(** * Neural style transfer (style_transfer.py): a shallow embedding

    The Python module [style_transfer/style_transfer.py] is embedded function
    by function.  Conventions of the embedding:

    - a torch tensor is a [shape] and its contiguous, row-major [data];
      floating-point entries are idealised as exact rationals ([Qc]), so
      rounding, overflow and NaN are outside the model;
    - a Python exception is a [Raise] in the error monad [res];
    - Python objects that the code mutates ([dict], [list], tensors reached
      through [copy.deepcopy] and item assignment) live in an explicit store;
    - torch, torchvision and PIL functions whose implementation is not part
      of the module (the VGG network, [F.interpolate], autograd, the Adam
      update, image resizing) are fields of the class [Backend]. *)

From Stdlib Require Import ZArith QArith Qcanon Qcabs Lia List String.
From stdpp Require Import base option list gmap strings sorting.
Import ListNotations.

#[local] Set Warnings "-register-all,-clear-no-such-hyp".

Local Open Scope Qc_scope.
Local Open Scope list_scope.

(** ** Exceptions *)

Inductive exn :=
| KeyError | IndexError | TypeError | ValueError | AttributeError
| RuntimeError | ZeroDivisionError | RecursionError | SystemError.

Inductive res (A : Type) :=
| Ok (a : A)
| Raise (e : exn).
Arguments Ok {A} a.
Arguments Raise {A} e.

#[global] Instance res_ret : MRet res := λ A a, Ok a.
#[global] Instance res_bind : MBind res := λ A B f m,
  match m with Ok a => f a | Raise e => Raise e end.
#[global] Instance res_fmap : FMap res := λ A B f m,
  match m with Ok a => Ok (f a) | Raise e => Raise e end.

Definition raises {A} (m : res A) : Prop := ∃ e, m = Raise e.

Fixpoint mapM_res {A B} (f : A → res B) (l : list A) : res (list B) :=
  match l with
  | [] => Ok []
  | a :: l' => b ← f a; bs ← mapM_res f l'; Ok (b :: bs)
  end.

(** ** Tensors *)

Record tensor := mkTensor { shape : list nat; data : list Qc }.

Definition numel (s : list nat) : nat := foldr Nat.mul 1%nat s.
Definition ndim (t : tensor) : nat := length (shape t).
Definition wf_tensor (t : tensor) : Prop := length (data t) = numel (shape t).

Definition qsum (l : list Qc) : Qc := foldr Qcplus 0 l.
Definition sum_upto (n : nat) (f : nat → Qc) : Qc := qsum (map f (seq 0 n)).
Definition sq (x : Qc) : Qc := x * x.

(** [unstack d n l] views [l] as [d] consecutive blocks of [n] entries:
    block [i] is [l[i*n : (i+1)*n]]. *)
Definition unstack {A} (d n : nat) (l : list A) : list (list A) :=
  map (λ i, take n (drop (i * n) l)) (seq 0 d).

Definition tmap (f : Qc → Qc) (t : tensor) : tensor :=
  {| shape := shape t; data := map f (data t) |}.

(** [Tensor.clamp(lo, hi)] and [Tensor.relu_()] entrywise. *)
Definition qmax (x y : Qc) : Qc := if bool_decide (x ≤ y) then y else x.
Definition qmin (x y : Qc) : Qc := if bool_decide (x ≤ y) then x else y.
Definition clamp (lo hi : Qc) (t : tensor) : tensor := tmap (λ x, qmin (qmax x lo) hi) t.
Definition relu (t : tensor) : tensor := tmap (λ x, qmax x 0) t.

Definition tensor_all (P : Qc → Prop) (t : tensor) : Prop := Forall P (data t).

(** Integer indexing [t[k]] along the first dimension. *)
Definition tensor_index (t : tensor) (k : nat) : res tensor :=
  match shape t with
  | [] => Raise IndexError
  | d :: s =>
      if bool_decide (k < d)%nat
      then Ok {| shape := s; data := take (numel s) (drop (k * numel s) (data t)) |}
      else Raise IndexError
  end.

(** *** Broadcasting *)

Fixpoint broadcast_shapes_rev (a b : list nat) : option (list nat) :=
  match a, b with
  | [], _ => Some b
  | _, [] => Some a
  | x :: a', y :: b' =>
      s ← broadcast_shapes_rev a' b';
      if bool_decide (x = y) then Some (x :: s)
      else if bool_decide (x = 1%nat) then Some (y :: s)
      else if bool_decide (y = 1%nat) then Some (x :: s)
      else None
  end.

Definition broadcast_shapes (a b : list nat) : option (list nat) :=
  s ← broadcast_shapes_rev (rev a) (rev b); Some (rev s).

(** [expand src tgt d]: the data of a tensor of shape [src] expanded to the
    shape [tgt] of the same rank; a dimension of size 1 is repeated. *)
Fixpoint expand (src tgt : list nat) (d : list Qc) : list Qc :=
  match src, tgt with
  | s :: src', t :: tgt' =>
      let parts := map (expand src' tgt') (unstack s (numel src') d) in
      if bool_decide (s = t) then concat parts
      else concat (replicate t (concat parts))
  | _, _ => d
  end.

Definition expand_to (src tgt : list nat) (d : list Qc) : list Qc :=
  expand (replicate (length tgt - length src) 1%nat ++ src) tgt d.

(** [F.mse_loss(input, target, reduction='sum')]: when the sizes differ torch
    only warns, then broadcasts both arguments against each other; it raises
    when the shapes cannot be broadcast. *)
Definition mse_loss_sum (input target : tensor) : res Qc :=
  match broadcast_shapes (shape input) (shape target) with
  | None => Raise RuntimeError
  | Some s =>
      Ok (qsum (zip_with (λ x y, sq (x - y))
                  (expand_to (shape input) s (data input))
                  (expand_to (shape target) s (data target))))
  end.

(** ** Loss modules *)

Inductive layer := Layer (n : nat) | Input.

#[global] Instance layer_eq_dec : EqDecision layer.
Proof. solve_decision. Defined.

#[global] Program Instance layer_countable : Countable layer :=
  inj_countable'
    (λ l, match l with Layer n => Some n | Input => None end)
    (λ o, match o with Some n => Layer n | None => Input end) _.
Next Obligation. by intros []. Qed.

(** What a module's [forward] is applied to: a tensor, or the mapping from
    layers to activations built by [VGGFeatures.forward]. *)
Inductive value :=
| VTensor (t : tensor)
| VFeats (f : gmap layer tensor).

Inductive module :=
| ContentLoss (target : tensor)
| StyleLoss (target : tensor)
| TVLoss
| Normalize (m : module) (scale eps : Qc)
| LayerApply (m : module) (l : layer).

Definition ContentLoss_forward (target input : tensor) : res Qc :=
  mse_loss_sum input target.

Definition dot (r1 r2 : list Qc) : Qc := qsum (zip_with Qcmult r1 r2).

(** [mat @ mat.transpose(-2, -1) / mat.shape[-1]] for one [c] x [n] matrix
    given by its rows. *)
Definition gram (n : nat) (rows : list (list Qc)) : list Qc :=
  concat (map (λ ri, map (λ rj, dot ri rj / Q2Qc (Z.of_nat n # 1)) rows) rows).

Definition get_target (target : tensor) : res tensor :=
  match rev (shape target) with
  | w :: h :: c :: pre =>
      let n := (h * w)%nat in
      let mats := unstack (numel pre) (c * n) (data target) in
      Ok {| shape := rev pre ++ [c; c];
            data := concat (map (λ m, gram n (unstack c n m)) mats) |}
  | _ => Raise IndexError
  end.

Definition StyleLoss_forward (target input : tensor) : res Qc :=
  g ← get_target input; mse_loss_sum g target.

(** The slices [l[:-1]] and [l[1:]]. *)
Definition but_last {A} (l : list A) : list A := removelast l.
Definition from_1 {A} (l : list A) : list A := drop 1 l.

(** One [h] x [w] plane of [TVLoss.forward], given by its rows. *)
Definition tv_plane (p : list (list Qc)) : Qc :=
  let a := map but_last (but_last p) in
  let x_diff := zip_with (zip_with Qcminus) a (map from_1 (but_last p)) in
  let y_diff := zip_with (zip_with Qcminus) a (map but_last (from_1 p)) in
  let diff := zip_with (zip_with Qcplus) (map (map sq) x_diff) (map (map sq) y_diff) in
  qsum (map qsum diff).

Definition TVLoss_forward (input : tensor) : res Qc :=
  match rev (shape input) with
  | w :: h :: pre =>
      Ok (qsum (map (λ p, tv_plane (unstack h w p))
                  (unstack (numel pre) (h * w) (data input))))
  | _ => Raise IndexError
  end.

Fixpoint forward (m : module) (input : value) : res Qc :=
  match m with
  | ContentLoss target =>
      match input with
      | VTensor x => ContentLoss_forward target x
      | VFeats _ => Raise AttributeError
      end
  | StyleLoss target =>
      match input with
      | VTensor x => StyleLoss_forward target x
      | VFeats _ => Raise AttributeError
      end
  | TVLoss =>
      match input with
      | VTensor x => TVLoss_forward x
      | VFeats _ => Raise TypeError
      end
  | Normalize m' _ _ => forward m' input
  | LayerApply m' l =>
      match input with
      | VFeats f =>
          match f !! l with
          | Some x => forward m' (VTensor x)
          | None => Raise KeyError
          end
      | VTensor x =>
          match l with
          | Layer k => x' ← tensor_index x k; forward m' (VTensor x')
          | Input => Raise IndexError
          end
      end
  end.

(** [Normalize._hook]: the backward hook registered on the wrapped module.
    [dims = range(1, i.ndim)]; an empty [dims] makes [sum] reduce over every
    dimension. *)
Definition l1 (l : list Qc) : Qc := qsum (map Qcabs l).

Definition hook_blocks (s : list nat) : nat * nat :=
  match s with
  | _ :: _ :: _ => (hd 0%nat s, numel (tl s))
  | _ => (1%nat, numel s)
  end.

Definition hook_rescale (scale eps : Qc) (block : list Qc) : list Qc :=
  let norm := l1 block in
  map (λ x, x * scale / (norm + eps)) block.

Definition Normalize_hook (scale eps : Qc) (grad_input : list tensor)
  : res (list tensor) :=
  match grad_input with
  | [] => Raise ValueError
  | i :: rest =>
      let '(b, n) := hook_blocks (shape i) in
      Ok ({| shape := shape i;
             data := concat (map (hook_rescale scale eps) (unstack b n (data i))) |}
          :: rest)
  end.

(** [WeightedLoss]: what [forward] prints, then what it returns. *)
Record WeightedLoss := mkWeightedLoss {
  losses : list module;
  weights : list Qc;
  verbose : bool
}.

Definition _print_losses (self : WeightedLoss) (ls : list Qc)
  : list (nat * module * Qc) :=
  omap (λ '(i, loss), m ← losses self !! i; Some (i, m, loss)) (imap pair ls).

Definition WeightedLoss_forward (self : WeightedLoss) (args : value)
  : res (list (nat * module * Qc) * Qc) :=
  ls ← mapM_res (λ '(loss, weight), v ← forward loss args; Ok (v * weight))
        (zip (losses self) (weights self));
  Ok (if verbose self then _print_losses self ls else [], foldl Qcplus 0 ls).

(** ** Sizes and the scale schedule *)

Definition Qc_of_Z (z : Z) : Qc := Q2Qc (inject_Z z).

(** Python's [round] on a number: to the nearest integer, ties to even. *)
Definition py_round (x : Qc) : Z :=
  let n := Qnum x in
  let d := Zpos (Qden x) in
  let f := (n / d)%Z in
  let r := (n mod d)%Z in
  if (2 * r <? d)%Z then f
  else if (d <? 2 * r)%Z then (f + 1)%Z
  else if Z.even f then f else (f + 1)%Z.

(** [max_dim * a / b] with Python's true division. *)
Definition true_div (a b : Z) : res Qc :=
  if bool_decide (b = 0%Z) then Raise ZeroDivisionError
  else Ok (Qc_of_Z a / Qc_of_Z b).

Definition size_to_fit (size : Z * Z) (max_dim : Z) (scale_up : bool)
  : res (Z * Z) :=
  let '(w, h) := size in
  if negb scale_up && bool_decide (Z.max h w ≤ max_dim)%Z then Ok (w, h)
  else if bool_decide (h > w)%Z
       then q ← true_div (max_dim * w) h; Ok (py_round q, max_dim)
       else q ← true_div (max_dim * h) w; Ok (max_dim, py_round q).

(** [round(start * pow(2, i/2))].  [start * 2^(i/2)] is the square root of
    the integer [start^2 * 2^i]; it is an integer when [i] is even and
    irrational otherwise, so it is never half-way between two integers and
    its nearest integer is [floor((floor(2 * |start| * 2^(i/2)) + 1) / 2)],
    with the sign of [start]. *)
Definition gen_scale (start : Z) (i : nat) : Z :=
  (Z.sgn start * ((Z.sqrt (4 * (start * start) * 2 ^ Z.of_nat i) + 1) / 2))%Z.

Definition gen_scales (start n : Z) : list Z :=
  map (gen_scale start) (seq 0 (Z.to_nat n)).

(** ** State and exceptions

    A computation over a state [Σ] returns a result or raises, and in both
    cases leaves a state behind: what was mutated before an exception stays
    mutated. *)

Definition SE (Σ A : Type) : Type := Σ → res A * Σ.

Definition ret {Σ A} (a : A) : SE Σ A := λ s, (Ok a, s).
Definition raise {Σ A} (e : exn) : SE Σ A := λ s, (Raise e, s).
Definition bind {Σ A B} (m : SE Σ A) (f : A → SE Σ B) : SE Σ B :=
  λ s, match m s with
       | (Ok a, s') => f a s'
       | (Raise e, s') => (Raise e, s')
       end.
Definition lift {Σ A} (r : res A) : SE Σ A := λ s, (r, s).

Notation "'let*' x ':=' m 'in' k" := (bind m (λ x, k))
  (at level 10, x name, m at level 100, k at level 200, only parsing).
Notation "'let*' ' p ':=' m 'in' k" := (bind m (λ x, match x with p => k end))
  (at level 10, p pattern, m at level 100, k at level 200, only parsing).

(** [for x in l: body], threading an accumulator. *)
Fixpoint foldM {Σ A B} (f : B → A → SE Σ B) (b : B) (l : list A) : SE Σ B :=
  match l with
  | [] => ret b
  | a :: l' => let* b' := f b a in foldM f b' l'
  end.

Definition forM_ {Σ A} (l : list A) (f : A → SE Σ unit) : SE Σ unit :=
  foldM (λ _ a, f a) tt l.

(** ** The Python store

    Objects with identity are allocated in a [store]; a location is the index
    of the object.  Immutable values ([None], numbers, strings, tuples of
    those) are [atom]s and are held by value. *)

Abbreviation loc := nat.

Inductive atom :=
| ANone
| ABool (b : bool)
| AInt (z : Z)
| AFloat (x : Qc)
| AStr (s : string)
| ATuple (l : list atom).

Inductive key := KInt (z : Z) | KStr (s : string).

#[global] Instance key_eq_dec : EqDecision key.
Proof. solve_decision. Defined.

Inductive pyval := PAtom (a : atom) | PRef (l : loc).
Arguments PRef l%_nat_scope.

Inductive obj :=
| OTensor (t : tensor)
| ODict (d : list (key * pyval))
| OList (l : list pyval).

Abbreviation store := (list obj).

Fixpoint dict_get (k : key) (d : list (key * pyval)) : option pyval :=
  match d with
  | [] => None
  | (k', v) :: d' => if decide (k = k') then Some v else dict_get k d'
  end.

(** [d[k] = v]: an existing key keeps its position. *)
Fixpoint dict_set (k : key) (v : pyval) (d : list (key * pyval))
  : list (key * pyval) :=
  match d with
  | [] => [(k, v)]
  | (k', v') :: d' =>
      if decide (k = k') then (k', v) :: d' else (k', v') :: dict_set k v d'
  end.

Definition alloc (o : obj) : SE store loc :=
  λ st, (Ok (length st), st ++ [o]).

Definition load (l : loc) : SE store obj :=
  λ st, match st !! l with
        | Some o => (Ok o, st)
        | None => (Raise SystemError, st)
        end.

Definition store_at (l : loc) (o : obj) : SE store unit :=
  λ st, (Ok tt, <[l := o]> st).

(** [x[k]] *)
Definition getitem (x : pyval) (k : key) : SE store pyval :=
  match x with
  | PAtom _ => raise TypeError
  | PRef l =>
      let* o := load l in
      match o with
      | ODict d =>
          match dict_get k d with
          | Some v => ret v
          | None => raise KeyError
          end
      | OList _ => raise TypeError
      | OTensor _ => raise IndexError
      end
  end.

(** [x[k] = v] *)
Definition setitem (x : pyval) (k : key) (v : pyval) : SE store unit :=
  match x with
  | PAtom _ => raise TypeError
  | PRef l =>
      let* o := load l in
      match o with
      | ODict d => store_at l (ODict (dict_set k v d))
      | OList _ => raise TypeError
      | OTensor _ => raise IndexError
      end
  end.

(** [x.append(v)] *)
Definition append (x : pyval) (v : pyval) : SE store unit :=
  match x with
  | PAtom _ => raise AttributeError
  | PRef l =>
      let* o := load l in
      match o with
      | OList xs => store_at l (OList (xs ++ [v]))
      | _ => raise AttributeError
      end
  end.

(** [x.values()] *)
Definition values (x : pyval) : SE store (list pyval) :=
  match x with
  | PAtom _ => raise AttributeError
  | PRef l =>
      let* o := load l in
      match o with
      | ODict d => ret (map snd d)
      | _ => raise AttributeError
      end
  end.

(** [copy.deepcopy(x, memo)].  Atoms are their own copy.  A tensor, a dict
    or a list is copied once: the copy is entered in [memo] before the
    members are copied, and a second visit returns the memoised copy.
    [limit] bounds the nesting of the recursive calls, as the interpreter's
    recursion limit does. *)
Fixpoint deepcopy (limit : nat) (x : pyval) (memo : gmap loc loc)
  : SE store (pyval * gmap loc loc) :=
  match limit with
  | O => raise RecursionError
  | S limit' =>
      match x with
      | PAtom _ => ret (x, memo)
      | PRef l =>
          match memo !! l with
          | Some l' => ret (PRef l', memo)
          | None =>
              let* o := load l in
              match o with
              | OTensor t =>
                  let* l' := alloc (OTensor t) in
                  ret (PRef l', <[l := l']> memo)
              | ODict d =>
                  let* l' := alloc (ODict []) in
                  let* memo' := foldM (λ memo kv,
                             let* ' (v', memo') := deepcopy limit' (snd kv) memo in
                             let* _ := setitem (PRef l') (fst kv) v' in
                             ret memo')
                           (<[l := l']> memo) d in
                  ret (PRef l', memo')
              | OList xs =>
                  let* l' := alloc (OList []) in
                  let* memo' := foldM (λ memo v,
                             let* ' (v', memo') := deepcopy limit' v memo in
                             let* _ := append (PRef l') v' in
                             ret memo')
                           (<[l := l']> memo) xs in
                  ret (PRef l', memo')
              end
          end
      end
  end.

(** ** What the module takes from torch, torchvision and PIL *)

Inductive interp_mode := bicubic | bilinear.

Class Backend := {
  (** the interpreter's bound on nested calls *)
  recursion_limit : nat;
  (** [F.interpolate(input, size, mode=mode)] *)
  F_interpolate : tensor → Z * Z → interp_mode → res tensor;
  (** PIL images: [img.size], [img.resize(size, Image.LANCZOS)],
      [TF.to_tensor], [TF.to_pil_image] *)
  PIL_Image : Type;
  Image_size : PIL_Image → Z * Z;
  Image_resize : PIL_Image → Z * Z → res PIL_Image;
  TF_to_tensor : PIL_Image → tensor;
  TF_to_pil_image : tensor → res PIL_Image;
  (** [models.vgg19(pretrained=True).features[:stop][cur:layer+1](input)],
      the pooling layers replaced as in [VGGFeatures.__init__] *)
  vgg19_features : nat → nat → nat → tensor → res tensor;
  (** [optim.Adam([param], lr=lr)] and its methods; [state_dict] gives the
      state as a root value in a store *)
  optimizer : Type;
  optim_Adam : tensor → Qc → res optimizer;
  state_dict : optimizer → pyval * store;
  load_state_dict : optimizer → pyval → store → res optimizer;
  (** [opt.zero_grad(); loss.backward()] for [loss = crit(feats)]: the
      gradient left on the image *)
  backward : WeightedLoss → tensor → res tensor;
  (** [opt.step()]: the optimizer and its parameter afterwards *)
  opt_step : optimizer → tensor → tensor → res (optimizer * tensor)
}.

Section scale_adam.
Context `{Backend}.

(** [interpolate(t, shape, mode=mode)] on a tensor of the store; the
    result is a new tensor. *)
Definition interpolate (x : pyval) (size : Z * Z) (mode : interp_mode)
  : SE store pyval :=
  match x with
  | PAtom _ => raise AttributeError
  | PRef l =>
      let* o := load l in
      match o with
      | OTensor t =>
          let* t' := lift (F_interpolate t size mode) in
          let* l' := alloc (OTensor t') in
          ret (PRef l')
      | _ => raise AttributeError
      end
  end.

(** [x.relu_()] *)
Definition relu_ (x : pyval) : SE store unit :=
  match x with
  | PAtom _ => raise AttributeError
  | PRef l =>
      let* o := load l in
      match o with
      | OTensor t => store_at l (OTensor (relu t))
      | _ => raise AttributeError
      end
  end.

Definition scale_adam_group (size : Z * Z) (group : pyval) : SE store unit :=
  let* exp_avg := getitem group (KStr "exp_avg") in
  let* exp_avg_sq := getitem group (KStr "exp_avg_sq") in
  let* m := interpolate exp_avg size bicubic in
  let* _ := setitem group (KStr "exp_avg") m in
  let* v := interpolate exp_avg_sq size bilinear in
  let* _ := setitem group (KStr "exp_avg_sq") v in
  let* v' := getitem group (KStr "exp_avg_sq") in
  relu_ v'.

Definition scale_adam (state : pyval) (size : Z * Z) : SE store pyval :=
  let* ' (state', _) := deepcopy recursion_limit state ∅ in
  let* groups := (let* s := getitem state' (KStr "state") in values s) in
  let* _ := forM_ groups (scale_adam_group size) in
  ret state'.

End scale_adam.

(** ** VGGFeatures *)

Fixpoint foldM_res {A B} (f : B → A → res B) (b : B) (l : list A) : res B :=
  match l with
  | [] => Ok b
  | a :: l' => b' ← f b a; foldM_res f b' l'
  end.

(** [sorted(set(layers))] *)
Definition sorted_set (l : list nat) : list nat :=
  merge_sort Nat.le (remove_dups l).

(** [t[None]] *)
Definition unsqueeze (t : tensor) : tensor :=
  {| shape := 1%nat :: shape t; data := data t |}.

Record VGGFeatures := mkVGGFeatures {
  layers : list nat;
  (** the length of [self.model]: [self.layers[-1] + 1] *)
  model_stop : nat
}.

Definition VGGFeatures_init (layers : list nat) : res VGGFeatures :=
  let layers := sorted_set layers in
  match last layers with
  | Some top => Ok {| layers := layers; model_stop := top + 1 |}
  | None => Raise IndexError
  end.

Section engine.
Context `{Backend}.

Definition VGGFeatures_forward (self : VGGFeatures) (input : tensor)
    (layers_arg : option (list nat)) : res (gmap layer tensor) :=
  let layers :=
    match layers_arg with
    | None => layers self
    | Some l => sorted_set l
    end in
  r ← foldM_res (λ '(feats, input, cur) layer,
         input' ← vgg19_features (model_stop self) cur (layer + 1) input;
         Ok (<[Layer layer := input']> feats, input', (layer + 1)%nat))
       (∅, input, 0%nat) layers;
  Ok (r.1.1).

(** ** StyleTransfer *)

Record StyleTransfer := mkStyleTransfer {
  device : string;
  image : option tensor;
  content_layers : list nat;
  style_layers : list nat;
  style_weights : list Qc;
  model : VGGFeatures
}.

Definition StyleTransfer_init (device : string) : res StyleTransfer :=
  let content_layers := [22%nat] in
  let style_layers := [1; 6; 11; 20; 29]%nat in
  let style_weights := map Qc_of_Z [256; 64; 16; 4; 1]%Z in
  let weight_sum := foldl Qcplus 0 (map Qcabs style_weights) in
  m ← VGGFeatures_init (style_layers ++ content_layers);
  Ok {| device := device;
        image := None;
        content_layers := content_layers;
        style_layers := style_layers;
        style_weights := map (λ w, w / weight_sum) style_weights;
        model := m |}.

Definition get_image (self : StyleTransfer) : res (option PIL_Image) :=
  match image self with
  | Some img =>
      img0 ← tensor_index img 0;
      p ← TF_to_pil_image img0;
      Ok (Some p)
  | None => Ok None
  end.

(** What a run of [stylize] leaves behind: the engine object, and in [out]
    what it printed together with the values of [self.image] and the
    origin of [opt] at the points named below. *)
Inductive opt_origin := Fresh | Resampled.

Inductive event :=
| Print_content (cw ch : Z)
| Print_style (sw sh : Z)
| Write_loss (i : Z) (x : Qc)
(** [self.image] after the resize of lines 208-209 *)
| At_resize (index : nat) (scale : Z) (img : tensor)
(** [opt] after line 236 *)
| At_optimizer (index : nat) (scale : Z) (o : opt_origin)
(** [self.image] at the end of the loop body, line 247 *)
| At_step (index : nat) (scale : Z) (i : Z) (img : tensor).

Record world := mkWorld { self : StyleTransfer; out : list event }.

Definition get_self : SE world StyleTransfer := λ w, (Ok (self w), w).

Definition set_image (img : tensor) : SE world unit :=
  λ w, (Ok tt,
        {| self := {| device := device (self w);
                      image := Some img;
                      content_layers := content_layers (self w);
                      style_layers := style_layers (self w);
                      style_weights := style_weights (self w);
                      model := model (self w) |};
           out := out w |}).

Definition emit (e : event) : SE world unit :=
  λ w, (Ok tt, {| self := self w; out := out w ++ [e] |}).

(** [self.image], which must be a tensor *)
Definition the_image : SE world tensor :=
  let* me := get_self in
  match image me with
  | Some img => ret img
  | None => raise AttributeError
  end.

(** Record [self.image] as it is at this point. *)
Definition observe (f : tensor → event) : SE world unit :=
  let* img := the_image in emit (f img).

(** [TF.to_tensor(img.resize(size, Image.LANCZOS))[None]] *)
Definition load_resized (img : PIL_Image) (size : Z * Z) : res tensor :=
  r ← Image_resize img size; Ok (unsqueeze (TF_to_tensor r)).

Definition list_index {A} (l : list A) (i : nat) : res A :=
  match l !! i with Some a => Ok a | None => Raise IndexError end.

Definition feats_index (f : gmap layer tensor) (l : layer) : res tensor :=
  match f !! l with Some a => Ok a | None => Raise KeyError end.

(** the default [eps=1e-8] of [Normalize] *)
Definition Normalize_eps : Qc := Q2Qc (1 # 100000000).

(** Lines 232-236. *)
Definition init_optimizer (opt : option optimizer) (index : nat)
    (scale initial_scale : Z) (size : Z * Z) (step_size : Qc)
  : SE world optimizer :=
  let* img := the_image in
  let* opt2 := lift (optim_Adam img step_size) in
  if bool_decide (scale ≠ initial_scale) then
    match opt with
    | None => raise AttributeError
    | Some o =>
        let '(sd, st) := state_dict o in
        let* opt_state := lift (scale_adam sd size st).1 in
        let* opt2' :=
          lift (load_state_dict opt2 opt_state (scale_adam sd size st).2) in
        let* _ := emit (At_optimizer index scale Resampled) in
        ret opt2'
    end
  else
    let* _ := emit (At_optimizer index scale Fresh) in
    ret opt2.

(** Lines 239-247: one pass of the inner loop. *)
Definition iteration (crit : WeightedLoss) (index : nat) (scale : Z)
    (opt : optimizer) (i : Z) : SE world optimizer :=
  let* me := get_self in
  let* img := the_image in
  let* feats := lift (VGGFeatures_forward (model me) img None) in
  let feats := <[Input := img]> feats in
  let* loss := lift (WeightedLoss_forward crit (VFeats feats)) in
  let* _ :=
    if bool_decide (numel (shape img) = 0%nat) then raise ZeroDivisionError
    else emit (Write_loss i (loss.2 / Qc_of_Z (Z.of_nat (numel (shape img))))) in
  let* grad := lift (backward crit img) in
  let* r := lift (opt_step opt img grad) in
  let* _ := set_image (clamp 0 1 r.2) in
  let* _ := observe (At_step index scale i) in
  ret r.1.

(** Lines 201-247: the body of the loop over the scales. *)
Definition stylize_scale (content_img style_img : PIL_Image)
    (content_weights : list Qc) (tv_loss : module) (tv_weight : Qc)
    (initial_scale iterations : Z) (step_size : Qc)
    (opt : option optimizer) (index_scale : nat * Z)
  : SE world (option optimizer) :=
  let '(index, scale) := index_scale in
  let* me := get_self in
  let* csize := lift (size_to_fit (Image_size content_img) scale true) in
  let* ssize := lift (size_to_fit (Image_size style_img) scale false) in
  let '(cw, ch) := csize in
  let '(sw, sh) := ssize in
  let* content := lift (load_resized content_img (cw, ch)) in
  let* style := lift (load_resized style_img (sw, sh)) in

  let* img := the_image in
  let* img' := lift (F_interpolate img (ch, cw) bicubic) in
  let* _ := set_image (clamp 0 1 img') in
  let* _ := observe (At_resize index scale) in

  let* _ := emit (Print_content cw ch) in
  let* content_feats :=
    lift (VGGFeatures_forward (model me) content (Some (content_layers me))) in
  let* content_losses :=
    lift (mapM_res (λ '(i, layer),
            weight ← list_index content_weights i;
            target ← feats_index content_feats (Layer layer);
            Ok (LayerApply (Normalize (ContentLoss target) weight Normalize_eps)
                  (Layer layer)))
          (imap pair (content_layers me))) in

  let* _ := emit (Print_style sw sh) in
  let* style_feats :=
    lift (VGGFeatures_forward (model me) style (Some (style_layers me))) in
  let* style_losses :=
    lift (mapM_res (λ '(i, layer),
            weight ← list_index (style_weights me) i;
            feat ← feats_index style_feats (Layer layer);
            target ← get_target feat;
            Ok (LayerApply (Normalize (StyleLoss target) weight Normalize_eps)
                  (Layer layer)))
          (imap pair (style_layers me))) in

  let crit :=
    {| losses := content_losses ++ style_losses ++ [tv_loss];
       weights := content_weights ++ style_weights me ++ [tv_weight];
       verbose := false |} in

  let* opt := init_optimizer opt index scale initial_scale (ch, cw) step_size in

  let* opt := foldM (iteration crit index scale) opt
                (map (λ k, Z.of_nat k) (seq 1 (Z.to_nat iterations))) in
  ret (Some opt).

Definition stylize (content_img style_img : PIL_Image)
    (content_weight tv_weight : Qc) (initial_scale scales iterations : Z)
    (step_size : Qc) : SE world (option PIL_Image) :=
  let* me := get_self in
  let* content_weights :=
    if bool_decide (length (content_layers me) = 0%nat)
    then raise ZeroDivisionError
    else ret (replicate (length (content_layers me))
                (content_weight / Qc_of_Z (Z.of_nat (length (content_layers me))))) in
  let tv_loss := LayerApply TVLoss Input in

  let* csize := lift (size_to_fit (Image_size content_img) initial_scale true) in
  let* img := lift (load_resized content_img csize) in
  let* _ := set_image img in

  let* _ := foldM (stylize_scale content_img style_img content_weights tv_loss
                     tv_weight initial_scale iterations step_size)
              None (imap pair (gen_scales initial_scale scales)) in
  let* me := get_self in
  lift (get_image me).

End engine.

(** ** Statements to compare the code with *)

(** The entry at plane [p], row [i], column [j] of contiguous data whose last
    two dimensions are [h] and [w]. *)
Definition pixel (h w : nat) (d : list Qc) (p i j : nat) : Qc :=
  nth (p * (h * w) + i * w + j) d 0.

(** Total variation over the pixels that have both a right and a below
    neighbour: rows [0 .. h-2], columns [0 .. w-2]. *)
Definition tv_cropped (planes h w : nat) (d : list Qc) : Qc :=
  sum_upto planes (λ p,
    sum_upto (h - 1) (λ i,
      sum_upto (w - 1) (λ j,
        sq (pixel h w d p i j - pixel h w d p i (j + 1))
        + sq (pixel h w d p i j - pixel h w d p (i + 1) j)))).

(** Total variation as the specification words it: every pixel with a right
    neighbour contributes its horizontal difference, every pixel with a
    below neighbour its vertical difference. *)
Definition tv_all_neighbours (planes h w : nat) (d : list Qc) : Qc :=
  sum_upto planes (λ p,
    sum_upto h (λ i,
      sum_upto (w - 1) (λ j,
        sq (pixel h w d p i j - pixel h w d p i (j + 1))))
    + sum_upto (h - 1) (λ i,
        sum_upto w (λ j,
          sq (pixel h w d p i j - pixel h w d p (i + 1) j)))).

(** A permutation of the [h * w] spatial positions, the same in every
    channel: position [q] of the result holds position [σ !! q] of the
    input. *)
Definition permute_spatial (σ : list nat) (t : tensor) : tensor :=
  match rev (shape t) with
  | w :: h :: pre =>
      {| shape := shape t;
         data := concat (map (λ row, map (λ k, nth k row 0) σ)
                           (unstack (numel pre) (h * w) (data t))) |}
  | _ => t
  end.

(** Block [k] of the [hook_blocks] of a gradient: sample [k] when the
    gradient has at least two dimensions. *)
Definition hook_block (t : tensor) (k : nat) : list Qc :=
  let '(_, n) := hook_blocks (shape t) in take n (drop (k * n) (data t)).

(** The sum of squared differences of two tensors entry by entry. *)
Definition squared_error (x y : list Qc) : Qc :=
  sum_upto (length x) (λ k, sq (nth k x 0 - nth k y 0)).

(** Every entry in [0, 1]. *)
Definition in_unit_interval (t : tensor) : Prop :=
  tensor_all (λ x, 0 ≤ x ∧ x ≤ 1) t.

(** The images recorded along a run are in range. *)
Definition image_in_range (e : event) : Prop :=
  match e with
  | At_resize _ _ img | At_step _ _ _ img => in_unit_interval img
  | _ => True
  end.

(** The origin of the optimizer at each scale that a run reached, in order. *)
Definition optimizer_origins (evs : list event) : list (nat * Z * opt_origin) :=
  omap (λ e, match e with
             | At_optimizer i s o => Some (i, s, o)
             | _ => None
             end) evs.

(** What lines 232-236 do at a scale: resample unless the scale is equal to
    [initial_scale]. *)
Definition origin_at (initial_scale scale : Z) : opt_origin :=
  if bool_decide (scale ≠ initial_scale) then Resampled else Fresh.

(** ** Assertions on runs *)

(** [hoare P m Q E]: from a state in [P], [m] ends in a state in [Q a] when
    it returns [a], and in a state in [E] when it raises. *)
Definition hoare {Σ A} (P : Σ → Prop) (m : SE Σ A)
    (Q : A → Σ → Prop) (E : Σ → Prop) : Prop :=
  ∀ s, P s →
    match m s with
    | (Ok a, s') => Q a s'
    | (Raise _, s') => E s'
    end.

(** *** On the engine *)

(** The events added to [base] are in range; when [b] holds, so is the
    image the engine holds. *)
Definition in_range (base : list event) (b : bool) (w : world) : Prop :=
  (∃ new, out w = base ++ new ∧ Forall image_in_range new)
  ∧ (b = true → ∀ img, image (self w) = Some img → in_unit_interval img).

Definition origins (base : list event) (l : list (nat * Z * opt_origin))
    (w : world) : Prop :=
  ∃ new, out w = base ++ new ∧ optimizer_origins new = l.

Definition not_optimizer (e : event) : Prop :=
  match e with At_optimizer _ _ _ => False | _ => True end.

Definition anything (w : world) : Prop := True.

Definition origins_of (initial_scale : Z) (l : list (nat * Z))
  : list (nat * Z * opt_origin) :=
  map (λ p, (p.1, p.2, origin_at initial_scale p.2)) l.

(** *** On rows of activations *)

Definition permute_row (σ : list nat) (row : list Qc) : list Qc :=
  map (λ k, nth k row 0) σ.


(** ** Optimizer states as values

    The value a reference stands for, read through the store: the dicts,
    lists and tensors below it, without their identities. *)

Inductive tree :=
| TAtom (a : atom)
| TTensor (t : tensor)
| TDict (d : list (key * tree))
| TList (l : list tree).

(** [repr st x t fp]: in the store [st] the value [x] stands for the tree
    [t], and [fp] lists the locations visited on the way, parents first.
    A state without sharing has a footprint without repetition. *)
Inductive repr (st : store) : pyval → tree → list loc → Prop :=
| repr_atom a : repr st (PAtom a) (TAtom a) []
| repr_tensor l t :
    st !! l = Some (OTensor t) → repr st (PRef l) (TTensor t) [l]
| repr_dict l d td fp :
    st !! l = Some (ODict d) → NoDup (map fst d) →
    repr_entries st d td fp → repr st (PRef l) (TDict td) (l :: fp)
| repr_list l xs ts fp :
    st !! l = Some (OList xs) →
    repr_items st xs ts fp → repr st (PRef l) (TList ts) (l :: fp)
with repr_entries (st : store)
  : list (key * pyval) → list (key * tree) → list loc → Prop :=
| repr_entries_nil : repr_entries st [] [] []
| repr_entries_cons k v t fp d td fps :
    repr st v t fp → repr_entries st d td fps →
    repr_entries st ((k, v) :: d) ((k, t) :: td) (fp ++ fps)
with repr_items (st : store) : list pyval → list tree → list loc → Prop :=
| repr_items_nil : repr_items st [] [] []
| repr_items_cons v t fp xs ts fps :
    repr st v t fp → repr_items st xs ts fps →
    repr_items st (v :: xs) (t :: ts) (fp ++ fps).

Scheme repr_mut := Minimality for repr Sort Prop
  with repr_entries_mut := Minimality for repr_entries Sort Prop
  with repr_items_mut := Minimality for repr_items Sort Prop.
Combined Scheme repr_mutind from repr_mut, repr_entries_mut, repr_items_mut.

(** The nesting of a tree: what [deepcopy] needs of the recursion limit. *)
Fixpoint depth (t : tree) : nat :=
  match t with
  | TAtom _ | TTensor _ => 1%nat
  | TDict d =>
      S ((fix go (d : list (key * tree)) : nat :=
            match d with
            | [] => 0%nat
            | (_, t') :: d' => Nat.max (depth t') (go d')
            end) d)
  | TList l =>
      S ((fix go (l : list tree) : nat :=
            match l with
            | [] => 0%nat
            | t' :: l' => Nat.max (depth t') (go l')
            end) l)
  end.

Fixpoint tdict_get (k : key) (d : list (key * tree)) : option tree :=
  match d with
  | [] => None
  | (k', t) :: d' => if decide (k = k') then Some t else tdict_get k d'
  end.

Fixpoint tdict_set (k : key) (t : tree) (d : list (key * tree))
  : list (key * tree) :=
  match d with
  | [] => [(k, t)]
  | (k', t') :: d' =>
      if decide (k = k') then (k', t) :: d' else (k', t') :: tdict_set k t d'
  end.

Definition key_state : key := KStr "state".
Definition key_exp_avg : key := KStr "exp_avg".
Definition key_exp_avg_sq : key := KStr "exp_avg_sq".

Section resample.
Context `{Backend}.

(** The resampler as section 4.7 of the specification words it, on one
    parameter's entry: the first moment resized bicubically, the second
    moment resized bilinearly and clamped at zero, the rest carried over.
    [None] stands for any failure. *)
Definition resample_group (size : Z * Z) (g : tree) : option tree :=
  match g with
  | TDict d =>
      match tdict_get key_exp_avg d, tdict_get key_exp_avg_sq d with
      | Some (TTensor m), Some (TTensor v) =>
          match F_interpolate m size bicubic, F_interpolate v size bilinear with
          | Ok m', Ok v' =>
              Some (TDict (tdict_set key_exp_avg_sq (TTensor (relu v'))
                             (tdict_set key_exp_avg (TTensor m') d)))
          | _, _ => None
          end
      | _, _ => None
      end
  | _ => None
  end.

Fixpoint resample_groups (size : Z * Z) (gs : list (key * tree))
  : option (list (key * tree)) :=
  match gs with
  | [] => Some []
  | (k, g) :: gs' =>
      g' ← resample_group size g;
      gs'' ← resample_groups size gs';
      Some ((k, g') :: gs'')
  end.

Definition resample (size : Z * Z) (t : tree) : option tree :=
  match t with
  | TDict d =>
      match tdict_get key_state d with
      | Some (TDict gs) =>
          gs' ← resample_groups size gs;
          Some (TDict (tdict_set key_state (TDict gs') d))
      | _ => None
      end
  | _ => None
  end.

End resample.

(** A state with the moment tensors of every parameter blanked: what is left
    is the step counters, the hyperparameters and the shape of the state. *)
Definition blank_moments_group (g : tree) : tree :=
  match g with
  | TDict d =>
      TDict (map (λ kt, if decide (kt.1 = key_exp_avg ∨ kt.1 = key_exp_avg_sq)
                        then (kt.1, TAtom ANone) else kt) d)
  | _ => g
  end.

Definition blank_moments (t : tree) : tree :=
  match t with
  | TDict d =>
      TDict (map (λ kt, if decide (kt.1 = key_state)
                        then match kt.2 with
                             | TDict gs =>
                                 (kt.1, TDict (map (λ kg, (kg.1, blank_moments_group kg.2)) gs))
                             | _ => kt
                             end
                        else kt) d)
  | _ => t
  end.

(** The state has its per-parameter entries under ['state'], and in each of
    them the second moment is a tensor without a negative entry. *)
Definition second_moments_nonneg (t : tree) : Prop :=
  ∃ d gs,
    t = TDict d ∧ tdict_get key_state d = Some (TDict gs)
    ∧ Forall (λ kg, ∃ g tv,
                kg.2 = TDict g
                ∧ tdict_get key_exp_avg_sq g = Some (TTensor tv)
                ∧ tensor_all (λ x, 0 ≤ x) tv) gs.

(** The step counter of every parameter, by the parameter's key. *)
Definition step_counters (t : tree) : list (key * option tree) :=
  match t with
  | TDict d =>
      match tdict_get key_state d with
      | Some (TDict gs) =>
          map (λ kg, (kg.1, match kg.2 with
                            | TDict g => tdict_get (KStr "step") g
                            | _ => None
                            end)) gs
      | _ => []
      end
  | _ => []
  end.

(** What a call leaves of the store it started from: every object that
    existed is still there, unchanged. *)
Definition store_kept (st0 st : store) : Prop :=
  (length st0 ≤ length st)%nat
  ∧ ∀ l, (l < length st0)%nat → st !! l = st0 !! l.

(** What copying a value that stands for [t] comes to: the call returns, the
    copy stands for [t] too, it is made of new objects only and shares
    nothing, the store it started from is kept, and [memo] changes on the
    locations of the source only. *)
Definition copied (st : store) (memo : gmap loc loc) (t : tree) (fp : list loc)
    (r : res (pyval * gmap loc loc) * store) : Prop :=
  ∃ y memo' st' fp',
    r = (Ok (y, memo'), st') ∧ repr st' y t fp' ∧ NoDup fp'
    ∧ Forall (λ l, (length st ≤ l)%nat) fp'
    ∧ store_kept st st'
    ∧ ∀ l, l ∉ fp → memo' !! l = memo !! l.

(** ** Confinement to the objects allocated since a given store *)

Definition val_above (n : nat) (v : pyval) : Prop :=
  match v with PRef l => (n ≤ l)%nat | PAtom _ => True end.

Definition obj_above (n : nat) (o : obj) : Prop :=
  match o with
  | OTensor _ => True
  | ODict d => Forall (λ kv, val_above n kv.2) d
  | OList xs => Forall (val_above n) xs
  end.

(** The objects of [st0] are kept, and the objects allocated since refer to
    objects allocated since only. *)
Definition framed (st0 st : store) : Prop :=
  store_kept st0 st
  ∧ ∀ l o, (length st0 ≤ l)%nat → st !! l = Some o → obj_above (length st0) o.

Definition memo_above (n : nat) (memo : gmap loc loc) : Prop :=
  ∀ l l', memo !! l = Some l' → (n ≤ l')%nat.


(** ** A small backend to run the module on

    Nearest-neighbour resizing, the identity for the network, and an
    optimizer that keeps its state in the layout of [Adam.state_dict()]:
    [{'state': {0: {'step', 'exp_avg', 'exp_avg_sq'}}, 'param_groups': [...]}]. *)

Module Reference.

Definition resize_nearest (t : tensor) (size : Z * Z) : res tensor :=
  match rev (shape t) with
  | w :: h :: pre =>
      let '(h', w') := size in
      if bool_decide (h' ≤ 0 ∨ w' ≤ 0 ∨ h = 0%nat ∨ w = 0%nat)%Z
      then Raise RuntimeError
      else
        let H := Z.to_nat h' in
        let W := Z.to_nat w' in
        Ok {| shape := rev pre ++ [H; W];
              data :=
                concat (map (λ plane,
                    concat (map (λ i,
                        map (λ j, nth ((i * h / H) * w + j * w / W) plane 0)
                          (seq 0 W))
                      (seq 0 H)))
                  (unstack (numel pre) (h * w) (data t))) |}
  | _ => Raise RuntimeError
  end.

Definition image_size (img : tensor) : Z * Z :=
  match rev (shape img) with
  | w :: h :: _ => (Z.of_nat w, Z.of_nat h)
  | _ => (0, 0)%Z
  end.

Definition key_param_groups := KStr "param_groups".
Definition key_step := KStr "step".

Definition new_adam (lr : Qc) : pyval * store :=
  (PRef 0,
   [ ODict [(key_state, PRef 1); (key_param_groups, PRef 2)];
     ODict [];
     OList [PRef 3];
     ODict [(KStr "lr", PAtom (AFloat lr));
            (KStr "betas",
             PAtom (ATuple [AFloat (Q2Qc (9 # 10)); AFloat (Q2Qc (999 # 1000))]));
            (KStr "eps", PAtom (AFloat (Q2Qc (1 # 100000000))));
            (KStr "weight_decay", PAtom (AInt 0));
            (KStr "amsgrad", PAtom (ABool false));
            (KStr "params", PRef 4)];
     OList [PAtom (AInt 0)] ]).

(** The step count held by the state, 0 when there is none yet. *)
Definition step_count (root : pyval) : SE store Z :=
  let* s := getitem root key_state in
  λ st,
    match getitem s (KInt 0) st with
    | (Ok g, _) =>
        match getitem g key_step st with
        | (Ok (PAtom (AInt n)), _) => (Ok n, st)
        | _ => (Ok 0%Z, st)
        end
    | _ => (Ok 0%Z, st)
    end.

Definition step (opt : pyval * store) (param grad : tensor)
  : res ((pyval * store) * tensor) :=
  let '(root, st) := opt in
  let run :=
    let* n := step_count root in
    let* s := getitem root key_state in
    let* m := alloc (OTensor grad) in
    let* v := alloc (OTensor (tmap sq grad)) in
    let* g := alloc (ODict [(key_step, PAtom (AInt (n + 1)));
                            (key_exp_avg, PRef m);
                            (key_exp_avg_sq, PRef v)]) in
    setitem s (KInt 0) (PRef g) in
  match run st with
  | (Ok _, st') =>
      Ok ((root, st'),
          {| shape := shape param;
             data := zip_with (λ x gx, x - Q2Qc (1 # 50) * gx)
                       (data param) (data grad) |})
  | (Raise e, _) => Raise e
  end.

#[local] Instance backend : Backend := {|
  recursion_limit := 1000;
  F_interpolate t size _ := resize_nearest t size;
  PIL_Image := tensor;
  Image_size := image_size;
  Image_resize img size := resize_nearest img (size.2, size.1);
  TF_to_tensor img := img;
  TF_to_pil_image t := Ok t;
  vgg19_features _ _ _ input := Ok input;
  optimizer := pyval * store;
  optim_Adam _ lr :=
    if bool_decide (lr < 0) then Raise ValueError else Ok (new_adam lr);
  state_dict opt := opt;
  load_state_dict _ v st := Ok (v, st);
  backward _ img := Ok (tmap (λ x, x - Q2Qc (1 # 2)) img);
  opt_step := step
|}.

Definition picture (h w : nat) (values : list Z) : tensor :=
  {| shape := [3; h; w]%nat; data := map (λ z, Q2Qc (z # 4)) values |}.

Definition new_world : res world :=
  me ← StyleTransfer_init "cpu"; Ok {| self := me; out := [] |}.

End Reference.

(** ** Example states *)

(** An optimizer state with one parameter after 7 steps, with negative
    entries in both moments, laid out as [Adam.state_dict()] lays it out. *)
Definition moments_store : store :=
  [ ODict [(key_state, PRef 1); (Reference.key_param_groups, PRef 2)];
    ODict [(KInt 0, PRef 3)];
    OList [PRef 6];
    ODict [(Reference.key_step, PAtom (AInt 7));
           (key_exp_avg, PRef 4);
           (key_exp_avg_sq, PRef 5)];
    OTensor {| shape := [1; 1; 1; 2]%nat; data := map Qc_of_Z [1; -2]%Z |};
    OTensor {| shape := [1; 1; 1; 2]%nat; data := map Qc_of_Z [-1; 4]%Z |};
    ODict [(KStr "lr", PAtom (AFloat (Q2Qc (1 # 50))));
           (KStr "amsgrad", PAtom (ABool false))] ].

Definition moments_tree : tree :=
  TDict
    [(key_state,
      TDict [(KInt 0,
              TDict [(Reference.key_step, TAtom (AInt 7));
                     (key_exp_avg,
                      TTensor {| shape := [1; 1; 1; 2]%nat;
                                 data := map Qc_of_Z [1; -2]%Z |});
                     (key_exp_avg_sq,
                      TTensor {| shape := [1; 1; 1; 2]%nat;
                                 data := map Qc_of_Z [-1; 4]%Z |})])]);
     (Reference.key_param_groups,
      TList [TDict [(KStr "lr", TAtom (AFloat (Q2Qc (1 # 50))));
                    (KStr "amsgrad", TAtom (ABool false))]])].

Definition moments_footprint : list loc := [0; 1; 3; 4; 5; 2; 6]%nat.

(** ** Example tensors *)

Definition image_2x2 : tensor :=
  {| shape := [1; 1; 2; 2]%nat;
     data := map Qc_of_Z [0; 0; 0; 1]%Z |}.

Definition activation_1x1x1x2 : tensor :=
  {| shape := [1; 1; 1; 2]%nat; data := map Qc_of_Z [1; 2]%Z |}.

Definition activation_1x1x1x1 : tensor :=
  {| shape := [1; 1; 1; 1]%nat; data := map Qc_of_Z [0]%Z |}.

Definition activation_zero_1x1x1x2 : tensor :=
  {| shape := [1; 1; 1; 2]%nat; data := map Qc_of_Z [0; 0]%Z |}.

Definition image_2x2_tv1 : tensor :=
  {| shape := [1; 1; 2; 2]%nat; data := map Qc_of_Z [1; 0; 1; 1]%Z |}.

Definition feats_tv1 : value := VFeats {[ Input := image_2x2_tv1 ]}.

Definition grad_zero_1x2 : tensor :=
  {| shape := [1; 2]%nat; data := map Qc_of_Z [0; 0]%Z |}.

Definition grad_2x2 : tensor :=
  {| shape := [2; 2]%nat; data := map Qc_of_Z [1; -1; 3; 0]%Z |}.

Definition activation_1x2x1x2 : tensor :=
  {| shape := [1; 2; 1; 2]%nat; data := map Qc_of_Z [1; 2; 3; 4]%Z |}.

Definition picture_2x2 : tensor :=
  Reference.picture 2 2 [0; 1; 2; 3; 4; 3; 2; 1; 0; 0; 4; 4]%Z.

(** A state dict without the key ['state'], and the state of an optimizer
    that has not stepped yet. *)
Definition stateless_store : store :=
  [ ODict [(Reference.key_param_groups, PRef 1)]; OList [] ].

Definition stateless_tree : tree :=
  TDict [(Reference.key_param_groups, TList [])].

Definition unstepped_store : store :=
  [ ODict [(key_state, PRef 1); (Reference.key_param_groups, PRef 2)];
    ODict [];
    OList [] ].

Definition unstepped_tree : tree :=
  TDict [(key_state, TDict []); (Reference.key_param_groups, TList [])].

(** ** Further statements to compare the code with *)

(** The fraction [a / b], [b > 0], rounded to the nearest integer, ties to
    even, computed on the integers. *)
Definition round_frac (a b : Z) : Z :=
  let f := (a / b)%Z in
  let r := (a mod b)%Z in
  if (2 * r <? b)%Z then f
  else if (b <? 2 * r)%Z then (f + 1)%Z
  else if Z.even f then f else (f + 1)%Z.

(** The layers a call of [VGGFeatures.forward] goes through. *)
Definition requested (self : VGGFeatures) (layers_arg : option (list nat))
  : list nat :=
  match layers_arg with None => layers self | Some l => sorted_set l end.


(** The optimizer steps of a run, in order: scale index, scale and pass
    number of each [At_step]. *)
Definition optimizer_steps (evs : list event) : list (nat * Z * Z) :=
  omap (λ e, match e with
             | At_step k s i _ => Some (k, s, i)
             | _ => None
             end) evs.

(** The pass numbers of [trange(1, iterations + 1)]. *)
Definition passes (iterations : Z) : list Z :=
  map (λ k, Z.of_nat k) (seq 1 (Z.to_nat iterations)).

(** The steps of the scales [l], each with its index, [iterations] passes
    per scale. *)
Definition steps_of (iterations : Z) (l : list (nat * Z)) : list (nat * Z * Z) :=
  concat (map (λ ks, map (λ i, (ks.1, ks.2, i)) (passes iterations)) l).

(** The events added to [base] hold the steps [l]; when [b] holds, the
    engine holds an image. *)
Definition run_steps (base : list event) (b : bool) (l : list (nat * Z * Z))
    (w : world) : Prop :=
  (∃ new, out w = base ++ new ∧ optimizer_steps new = l)
  ∧ (b = true → is_Some (image (self w))).

(** Entry [(i, j)] of matrix [b] of a batch of [c] x [c] matrices. *)
Definition matrix_entry (g : tensor) (c b i j : nat) : Qc :=
  nth (b * (c * c) + i * c + j) (data g) 0.

(** * Proofs *)

(** ** Lists as tables *)

Section tables.
Context {A : Type}.
Implicit Types (l : list A) (d : A).

Lemma length_table (f : nat → A) n : length (map f (seq 0 n)) = n.
Proof. by rewrite length_map, length_seq. Qed.

Lemma nth_table d (f : nat → A) n i :
  (i < n)%nat → nth i (map f (seq 0 n)) d = f i.
Proof.
  intros Hi.
  rewrite (nth_indep (map f (seq 0 n)) d (f 0%nat)) by (by rewrite length_table).
  rewrite (map_nth f (seq 0 n) 0%nat i). by rewrite seq_nth.
Qed.

Lemma table_nth d l : l = map (λ i, nth i l d) (seq 0 (length l)).
Proof.
  apply (nth_ext _ _ d d).
  - by rewrite length_table.
  - intros n Hn. by rewrite nth_table.
Qed.

Lemma table_ext (f g : nat → A) n :
  (∀ i, (i < n)%nat → f i = g i) → map f (seq 0 n) = map g (seq 0 n).
Proof.
  intros Hfg. apply map_ext_in. intros i Hi. apply Hfg.
  apply in_seq in Hi. lia.
Qed.

Lemma take_table d l n :
  (n ≤ length l)%nat → take n l = map (λ i, nth i l d) (seq 0 n).
Proof.
  intros Hn. rewrite (table_nth d (take n l)), length_take_le by done.
  apply table_ext. intros i Hi. rewrite nth_firstn.
  destruct (Nat.ltb_spec i n); [done | lia].
Qed.

Lemma but_last_table d l :
  but_last l = map (λ i, nth i l d) (seq 0 (length l - 1)).
Proof.
  unfold but_last. rewrite removelast_firstn_len.
  replace (Init.Nat.pred (length l)) with (length l - 1)%nat by lia.
  apply take_table. lia.
Qed.

Lemma from_1_table d l :
  from_1 l = map (λ i, nth (S i) l d) (seq 0 (length l - 1)).
Proof.
  unfold from_1. rewrite (table_nth d (drop 1 l)), length_drop.
  apply table_ext. intros i _. by rewrite nth_skipn.
Qed.

End tables.

Lemma zip_with_map_same {I A B C} (f : A → B → C) (g1 : I → A) (g2 : I → B)
    (l : list I) :
  zip_with f (map g1 l) (map g2 l) = map (λ i, f (g1 i) (g2 i)) l.
Proof. induction l as [|i l IH]; simpl; [done | by rewrite IH]. Qed.

Lemma zip_with_nth {A B C} (f : A → B → C) (dA : A) (dB : B) l1 l2 :
  length l1 = length l2 →
  zip_with f l1 l2 = map (λ i, f (nth i l1 dA) (nth i l2 dB)) (seq 0 (length l1)).
Proof.
  intros Hlen.
  rewrite (table_nth dA l1) at 1. rewrite (table_nth dB l2) at 1.
  rewrite <- Hlen. apply zip_with_map_same.
Qed.

(** ** Blocks of contiguous data *)

Section blocks.
Context {A : Type}.
Implicit Types (l : list A) (ls : list (list A)).

Lemma length_unstack d n l : length (unstack d n l) = d.
Proof. unfold unstack. apply length_table. Qed.

Lemma nth_unstack d n l i :
  (i < d)%nat → nth i (unstack d n l) [] = take n (drop (i * n) l).
Proof. intros Hi. unfold unstack. by rewrite nth_table. Qed.

Lemma length_block d n l i :
  length l = (d * n)%nat → (i < d)%nat →
  length (take n (drop (i * n) l)) = n.
Proof.
  intros Hl Hi. rewrite length_take_le; [done |].
  rewrite length_drop, Hl. nia.
Qed.

Lemma Forall_length_unstack d n l :
  length l = (d * n)%nat → Forall (λ b, length b = n) (unstack d n l).
Proof.
  intros Hl. unfold unstack. apply List.Forall_forall. intros b Hb.
  apply in_map_iff in Hb as (i & <- & Hi). apply in_seq in Hi.
  apply (length_block d); [done | lia].
Qed.

Lemma unstack_S d n l :
  unstack (S d) n l = take n l :: unstack d n (drop n l).
Proof.
  unfold unstack. rewrite <- cons_seq, <- seq_shift. simpl. rewrite map_map.
  apply f_equal, map_ext. intros i. rewrite drop_drop.
  by replace (n + i * n)%nat with (S i * n)%nat by lia.
Qed.

Lemma concat_unstack d n l :
  length l = (d * n)%nat → concat (unstack d n l) = l.
Proof.
  revert l. induction d as [|d IH]; intros l Hl.
  - simpl in *. by destruct l.
  - rewrite unstack_S. simpl.
    rewrite IH by (rewrite length_drop; lia). apply take_drop.
Qed.

Lemma unstack_concat n ls :
  Forall (λ b, length b = n) ls → unstack (length ls) n (concat ls) = ls.
Proof.
  induction 1 as [|b ls Hb _ IH]; [done |].
  simpl length. rewrite unstack_S. simpl concat.
  rewrite take_app_length', drop_app_length' by done. by rewrite IH.
Qed.

Lemma length_concat_uniform n ls :
  Forall (λ b, length b = n) ls → length (concat ls) = (length ls * n)%nat.
Proof.
  induction 1 as [|b ls Hb _ IH]; [done |].
  simpl. rewrite length_app, IH, Hb. lia.
Qed.

(** Block [i] of [c * n] entries, cut into [c] rows of [n], is rows
    [i*c .. i*c + c - 1] of the whole. *)
Lemma unstack_block c n l i :
  unstack c n (take (c * n) (drop (i * (c * n)) l))
  = take c (drop (i * c) (unstack (S i * c) n l)).
Proof.
  apply (nth_ext _ _ [] []).
  - rewrite length_unstack, length_take, length_drop, length_unstack. lia.
  - rewrite length_unstack. intros k Hk.
    rewrite nth_unstack by done.
    rewrite nth_firstn. destruct (Nat.ltb_spec k c); [|lia].
    rewrite nth_skipn, nth_unstack by lia.
    rewrite skipn_firstn_comm, take_take, drop_drop.
    f_equal; [nia | f_equal; lia].
Qed.
End blocks.

(** ** Sums *)

Lemma qsum_app l1 l2 : qsum (l1 ++ l2) = qsum l1 + qsum l2.
Proof.
  unfold qsum. induction l1 as [|x l1 IH]; simpl.
  - by rewrite Qcplus_0_l.
  - rewrite IH. ring.
Qed.

Lemma qsum_Permutation l1 l2 : Permutation l1 l2 → qsum l1 = qsum l2.
Proof.
  unfold qsum. induction 1 as [|x l1 l2 _ IH|x y l|l1 l2 l3 _ IH1 _ IH2]; simpl.
  - done.
  - by rewrite IH.
  - ring.
  - by rewrite IH1.
Qed.

Lemma foldl_Qcplus a l : foldl Qcplus a l = a + qsum l.
Proof.
  revert a. induction l as [|x l IH]; intros a; simpl.
  - unfold qsum. simpl. ring.
  - rewrite IH. unfold qsum. simpl. ring.
Qed.

Lemma qsum_map_qsum {I} (F : I → list Qc) (l : list I) :
  qsum (concat (map F l)) = qsum (map (λ i, qsum (F i)) l).
Proof.
  induction l as [|i l IH]; simpl; [done |].
  rewrite qsum_app, IH. done.
Qed.

Lemma qsum_nonneg l : Forall (λ x, 0 ≤ x) l → 0 ≤ qsum l.
Proof.
  unfold qsum. induction 1 as [|x l Hx _ IH]; simpl.
  - apply Qcle_refl.
  - replace 0 with (0 + 0) by ring. by apply Qcplus_le_compat.
Qed.

(** ** TVLoss *)

Lemma numel_app s1 s2 : numel (s1 ++ s2) = (numel s1 * numel s2)%nat.
Proof.
  unfold numel. induction s1 as [|x s1 IH]; simpl; [lia |]. rewrite IH. lia.
Qed.

Lemma numel_rev s : numel (rev s) = numel s.
Proof.
  induction s as [|x s IH]; [done |].
  simpl rev. rewrite numel_app, IH. unfold numel. simpl. lia.
Qed.

Lemma tv_plane_table (p : list (list Qc)) h w :
  length p = h → Forall (λ r, length r = w) p →
  tv_plane p =
  sum_upto (h - 1) (λ i,
    sum_upto (w - 1) (λ j,
      sq (nth j (nth i p []) 0 - nth (j + 1) (nth i p []) 0)
      + sq (nth j (nth i p []) 0 - nth j (nth (i + 1) p []) 0))).
Proof.
  intros Hh Hw.
  assert (Hrow : ∀ i, (i < h)%nat → length (nth i p []) = w).
  { intros i Hi. eapply (proj1 (List.Forall_forall _ _) Hw), nth_In. lia. }
  unfold tv_plane.
  rewrite (but_last_table [] p), (from_1_table [] p), Hh, !map_map.
  rewrite (table_ext (λ i, but_last (nth i p []))
             (λ i, map (λ j, nth j (nth i p []) 0) (seq 0 (w - 1)))).
  2:{ intros i Hi. rewrite (but_last_table 0), Hrow by lia. done. }
  rewrite (table_ext (λ i, from_1 (nth i p []))
             (λ i, map (λ j, nth (S j) (nth i p []) 0) (seq 0 (w - 1)))).
  2:{ intros i Hi. rewrite (from_1_table 0), Hrow by lia. done. }
  rewrite (table_ext (λ i, but_last (nth (S i) p []))
             (λ i, map (λ j, nth j (nth (S i) p []) 0) (seq 0 (w - 1)))).
  2:{ intros i Hi. rewrite (but_last_table 0), Hrow by lia. done. }
  rewrite !zip_with_map_same, !map_map, zip_with_map_same.
  unfold sum_upto. rewrite map_map. f_equal. apply map_ext. intros i.
  rewrite !zip_with_map_same, !map_map, zip_with_map_same.
  f_equal. apply map_ext. intros j.
  by replace (j + 1)%nat with (S j) by lia; replace (i + 1)%nat with (S i) by lia.
Qed.

Lemma nth_pixel (planes h w : nat) (d : list Qc) p i j :
  length d = (planes * (h * w))%nat →
  (p < planes)%nat → (i < h)%nat → (j < w)%nat →
  nth j (nth i (unstack h w (take (h * w) (drop (p * (h * w)) d))) []) 0
  = pixel h w d p i j.
Proof.
  intros Hd Hp Hi Hj. unfold pixel.
  rewrite nth_unstack by done.
  rewrite nth_firstn. destruct (Nat.ltb_spec j w); [|lia].
  rewrite nth_skipn, nth_firstn.
  destruct (Nat.ltb_spec (i * w + j) (h * w)); [|nia].
  rewrite nth_skipn. f_equal. lia.
Qed.

Lemma TVLoss_forward_cropped pre h w t :
  shape t = pre ++ [h; w] → wf_tensor t →
  TVLoss_forward t = Ok (tv_cropped (numel pre) h w (data t)).
Proof.
  intros Hs Hwf. unfold TVLoss_forward, wf_tensor in *. rewrite Hs in *.
  rewrite rev_app_distr. simpl. rewrite numel_rev.
  rewrite numel_app in Hwf. unfold numel at 2 in Hwf. simpl in Hwf.
  rewrite Nat.mul_1_r in Hwf.
  f_equal. unfold tv_cropped, sum_upto at 1. unfold unstack at 2.
  rewrite map_map. f_equal. apply table_ext. intros p Hp.
  rewrite (tv_plane_table _ h w).
  - unfold sum_upto. f_equal. apply table_ext. intros i Hi.
    f_equal. apply table_ext. intros j Hj.
    rewrite !(nth_pixel (numel pre)) by (done || lia). done.
  - apply length_unstack.
  - apply Forall_length_unstack. by apply (length_block (numel pre)).
Qed.

(** C4, as the code has it: both differences are taken on the block of
    rows [0 .. h-2] and columns [0 .. w-2] only, so [TVLoss.forward] is the
    sum, over the pixels that have both a right and a below neighbour, of the
    squared difference to the right neighbour plus the squared difference to
    the below neighbour; the last row and the last column contribute
    nothing. *)
Theorem TVLoss_is_cropped_total_variation (pre : list nat) (h w : nat) (t : tensor) :
  shape t = pre ++ [h; w] → wf_tensor t →
  TVLoss_forward t = Ok (tv_cropped (numel pre) h w (data t)).
Proof. apply TVLoss_forward_cropped. Qed.

Lemma TVLoss_is_cropped_total_variation_witness :
  shape image_2x2 = [1; 1]%nat ++ [2; 2]%nat ∧ wf_tensor image_2x2 ∧
  TVLoss_forward image_2x2 = Ok (tv_cropped 1 2 2 (data image_2x2)).
Proof.
  split; [reflexivity |]. split; [reflexivity |].
  apply (TVLoss_is_cropped_total_variation [1; 1]%nat 2 2 image_2x2); reflexivity.
Defined.

(** C4 as stated fails: in the 2 x 2 image [[0, 0], [0, 1]] the pixel of the
    last row that has a right neighbour and the pixel of the last column that
    has a below neighbour each differ from that neighbour by 1, so the sum
    over all neighbour pairs is 2, and [TVLoss.forward] returns 0. *)
Lemma TVLoss_not_all_neighbours :
  TVLoss_forward image_2x2 = Ok 0 ∧
  tv_all_neighbours 1 2 2 (data image_2x2) = Qc_of_Z 2 ∧
  TVLoss_forward image_2x2 ≠ Ok (tv_all_neighbours 1 2 2 (data image_2x2)).
Proof.
  split; [by vm_compute |]. split; [by vm_compute |].
  vm_compute. intros E. discriminate E.
Qed.

(** ** StyleLoss.get_target *)

Lemma unstack_rows_of_block {A} c n (l : list A) i d :
  (S i * c ≤ d)%nat →
  unstack c n (take (c * n) (drop (i * (c * n)) l))
  = take c (drop (i * c) (unstack d n l)).
Proof.
  intros Hd. apply (nth_ext _ _ [] []).
  - rewrite length_unstack, length_take, length_drop, length_unstack. lia.
  - rewrite length_unstack. intros k Hk.
    rewrite nth_unstack by done.
    rewrite nth_firstn. destruct (Nat.ltb_spec k c); [|lia].
    rewrite nth_skipn, nth_unstack by lia.
    rewrite skipn_firstn_comm, take_take, drop_drop.
    f_equal; [nia | f_equal; lia].
Qed.

Lemma map_unstack_ext {A B} (G : list A → B) d n l1 l2 :
  (∀ i, (i < d)%nat →
     G (take n (drop (i * n) l1)) = G (take n (drop (i * n) l2))) →
  map G (unstack d n l1) = map G (unstack d n l2).
Proof. intros HG. unfold unstack. rewrite !map_map. by apply table_ext. Qed.

Lemma dot_permute_row n σ r1 r2 :
  length r1 = n → length r2 = n → Permutation σ (seq 0 n) →
  dot (permute_row σ r1) (permute_row σ r2) = dot r1 r2.
Proof.
  intros H1 H2 Hσ. unfold dot, permute_row.
  rewrite zip_with_map_same.
  rewrite (zip_with_nth Qcmult 0 0 r1 r2) by congruence.
  rewrite H1. apply qsum_Permutation. by apply Permutation_map.
Qed.

Lemma gram_permute_rows n σ rows :
  Forall (λ r, length r = n) rows → Permutation σ (seq 0 n) →
  gram n (map (permute_row σ) rows) = gram n rows.
Proof.
  intros Hrows Hσ. unfold gram. rewrite map_map. f_equal.
  apply map_ext_in. intros ri Hi. rewrite map_map.
  apply map_ext_in. intros rj Hj.
  rewrite List.Forall_forall in Hrows.
  by rewrite (dot_permute_row n) by auto.
Qed.

Lemma get_target_permute_spatial pre c h w t σ :
  shape t = pre ++ [c; h; w] → wf_tensor t → Permutation σ (seq 0 (h * w)) →
  ∃ g, get_target t = Ok g ∧ get_target (permute_spatial σ t) = Ok g.
Proof.
  intros Hs Hwf Hσ. unfold wf_tensor in Hwf.
  assert (Hrev : rev (shape t) = w :: h :: c :: rev pre).
  { by rewrite Hs, rev_app_distr. }
  unfold get_target, permute_spatial. rewrite Hrev. cbn [shape data].
  rewrite Hrev.
  eexists. split; [reflexivity |].
  apply f_equal, (f_equal (mkTensor _)), f_equal.
  set (n := (h * w)%nat) in *. set (P := numel (rev pre)).
  assert (Hlen : length (data t) = ((P * c) * n)%nat).
  { rewrite Hwf, Hs, numel_app. unfold P. rewrite numel_rev.
    unfold numel at 2. simpl. lia. }
  change (numel (c :: rev pre)) with (c * P)%nat.
  set (R := unstack (c * P) n (data t)).
  assert (HR : Forall (λ r, length r = n) R).
  { apply Forall_length_unstack. rewrite Hlen. lia. }
  assert (HR' : Forall (λ r, length r = n) (map (permute_row σ) R)).
  { apply List.Forall_forall. intros r Hr.
    apply in_map_iff in Hr as (r0 & <- & _). unfold permute_row.
    rewrite length_map. apply Permutation_length in Hσ.
    by rewrite Hσ, length_seq. }
  assert (HRlen : length R = (c * P)%nat) by apply length_unstack.
  change (map (λ row, map (λ k, nth k row 0) σ) R) with (map (permute_row σ) R).
  apply map_unstack_ext. intros i Hi.
  rewrite !(unstack_rows_of_block c n _ i (c * P)) by nia.
  fold R.
  replace (unstack (c * P) n (concat (map (permute_row σ) R)))
    with (map (permute_row σ) R).
  2:{ rewrite <- (unstack_concat n (map (permute_row σ) R)) at 1 by done.
      by rewrite length_map, HRlen. }
  rewrite skipn_map, firstn_map.
  apply gram_permute_rows; [|done].
  by apply Forall_take, Forall_drop.
Qed.

(** C8: the Gram target of an activation of shape [(..., c, h, w)] is the
    same matrix for the activation and for the activation with its [h * w]
    spatial positions permuted (the same permutation in every channel). *)
Theorem get_target_spatial_permutation_invariant
    (pre : list nat) (c h w : nat) (t : tensor) (σ : list nat) :
  shape t = pre ++ [c; h; w] → wf_tensor t → Permutation σ (seq 0 (h * w)) →
  ∃ g, get_target t = Ok g ∧ get_target (permute_spatial σ t) = Ok g.
Proof. apply get_target_permute_spatial. Qed.

Lemma get_target_spatial_permutation_invariant_witness :
  shape activation_1x2x1x2 = [1]%nat ++ [2; 1; 2]%nat
  ∧ wf_tensor activation_1x2x1x2
  ∧ Permutation [1; 0]%nat (seq 0 (1 * 2))
  ∧ ∃ g, get_target activation_1x2x1x2 = Ok g
         ∧ get_target (permute_spatial [1; 0]%nat activation_1x2x1x2) = Ok g.
Proof.
  split; [reflexivity |]. split; [reflexivity |]. split; [apply perm_swap |].
  apply (get_target_spatial_permutation_invariant [1]%nat 2 1 2
           activation_1x2x1x2 [1; 0]%nat);
    [reflexivity | reflexivity | apply perm_swap].
Defined.

(** ** ContentLoss *)

Lemma broadcast_shapes_rev_diag a : broadcast_shapes_rev a a = Some a.
Proof.
  induction a as [|x a IH]; [done |].
  simpl. rewrite IH. simpl. by rewrite bool_decide_true.
Qed.

Lemma broadcast_shapes_diag s : broadcast_shapes s s = Some s.
Proof.
  unfold broadcast_shapes. rewrite broadcast_shapes_rev_diag. simpl.
  by rewrite rev_involutive.
Qed.

Lemma expand_diag s d : length d = numel s → expand s s d = d.
Proof.
  revert d. induction s as [|n s IH]; intros d Hd; [done |].
  simpl. rewrite bool_decide_true by done.
  rewrite <- (concat_unstack n (numel s) d) at 2 by done.
  f_equal. rewrite <- (map_id (unstack n (numel s) d)) at 2.
  apply map_ext_in. intros b Hb. apply IH.
  pose proof (Forall_length_unstack n (numel s) d Hd) as Hall.
  rewrite List.Forall_forall in Hall. by apply Hall.
Qed.

Lemma expand_to_diag s d : length d = numel s → expand_to s s d = d.
Proof.
  intros Hd. unfold expand_to. rewrite Nat.sub_diag. simpl.
  by apply expand_diag.
Qed.

Lemma squared_error_zip x y :
  length x = length y →
  qsum (zip_with (λ a b, sq (a - b)) x y) = squared_error x y.
Proof.
  intros Hlen. unfold squared_error, sum_upto.
  by rewrite (zip_with_nth _ 0 0) by done.
Qed.

Lemma mse_loss_sum_raises input target :
  raises (mse_loss_sum input target)
  ↔ broadcast_shapes (shape input) (shape target) = None.
Proof.
  unfold mse_loss_sum, raises.
  destruct (broadcast_shapes (shape input) (shape target)); split.
  - intros [e He]. discriminate.
  - discriminate.
  - done.
  - by eexists.
Qed.

Lemma mse_loss_sum_same_shape input target :
  shape input = shape target → wf_tensor input → wf_tensor target →
  mse_loss_sum input target = Ok (squared_error (data input) (data target)).
Proof.
  unfold wf_tensor, mse_loss_sum. intros Hs Hi Ht.
  rewrite Hs, broadcast_shapes_diag.
  rewrite !expand_to_diag by congruence.
  rewrite squared_error_zip; [done |]. congruence.
Qed.

(** C9, as the code has it: [ContentLoss.forward] has no shape check of its
    own; it is [F.mse_loss(input, target, reduction='sum')], which broadcasts.
    It raises exactly when the two shapes cannot be broadcast against each
    other; for shapes that differ but broadcast it returns the squared-error
    sum of the broadcast tensors; for identical shapes it returns the
    squared-error sum of candidate and target. *)
Theorem ContentLoss_raises_iff_not_broadcastable (target input : tensor) :
  (raises (ContentLoss_forward target input)
   ↔ broadcast_shapes (shape input) (shape target) = None)
  ∧ (∀ s, broadcast_shapes (shape input) (shape target) = Some s →
       ContentLoss_forward target input
       = Ok (qsum (zip_with (λ x y, sq (x - y))
                     (expand_to (shape input) s (data input))
                     (expand_to (shape target) s (data target)))))
  ∧ (shape input = shape target → wf_tensor input → wf_tensor target →
       ContentLoss_forward target input
       = Ok (squared_error (data input) (data target))).
Proof.
  unfold ContentLoss_forward. split; [apply mse_loss_sum_raises |]. split.
  - intros s Hs. unfold mse_loss_sum. by rewrite Hs.
  - apply mse_loss_sum_same_shape.
Qed.

Lemma ContentLoss_raises_iff_not_broadcastable_witness :
  shape activation_zero_1x1x1x2 = shape activation_1x1x1x2
  ∧ wf_tensor activation_zero_1x1x1x2 ∧ wf_tensor activation_1x1x1x2
  ∧ ContentLoss_forward activation_1x1x1x2 activation_zero_1x1x1x2
    = Ok (squared_error (data activation_zero_1x1x1x2) (data activation_1x1x1x2)).
Proof.
  split; [reflexivity |]. split; [reflexivity |]. split; [reflexivity |].
  apply (ContentLoss_raises_iff_not_broadcastable
           activation_1x1x1x2 activation_zero_1x1x1x2); reflexivity.
Defined.

(** C9 as stated fails: a candidate of shape (1, 1, 1, 1) against a target of
    shape (1, 1, 1, 2) has a different shape, and [ContentLoss.forward]
    returns 5 = (0 - 1)^2 + (0 - 2)^2 instead of raising. *)
Lemma ContentLoss_shape_mismatch_without_error :
  shape activation_1x1x1x1 ≠ shape activation_1x1x1x2
  ∧ ContentLoss_forward activation_1x1x1x2 activation_1x1x1x1 = Ok (Qc_of_Z 5)
  ∧ ¬ (raises (ContentLoss_forward activation_1x1x1x2 activation_1x1x1x1)
       ↔ shape activation_1x1x1x1 ≠ shape activation_1x1x1x2).
Proof.
  assert (Hne : shape activation_1x1x1x1 ≠ shape activation_1x1x1x2) by discriminate.
  assert (Hok : ContentLoss_forward activation_1x1x1x2 activation_1x1x1x1
                = Ok (Qc_of_Z 5)) by (by vm_compute).
  split; [done |]. split; [done |].
  intros [_ Hraise]. destruct (Hraise Hne) as [e He].
  rewrite Hok in He. discriminate He.
Qed.

(** ** WeightedLoss *)

Lemma mapM_res_weighted (args : value) ls ws vals :
  length ls = length ws →
  mapM_res (λ m, forward m args) ls = Ok vals →
  mapM_res (λ '(loss, weight), v ← forward loss args; Ok (v * weight))
    (zip ls ws)
  = Ok (zip_with Qcmult vals ws).
Proof.
  revert ws vals. induction ls as [|m ls IH]; intros [|w ws] vals Hlen Hvals;
    try discriminate Hlen.
  - simpl in Hvals. by injection Hvals as <-.
  - simpl in *. destruct (forward m args) as [v|e]; [|discriminate].
    simpl in *.
    destruct (mapM_res (λ m, forward m args) ls) as [vs|e] eqn:Hvs;
      [|discriminate].
    simpl in Hvals. injection Hvals as <-.
    rewrite (IH ws vs) by (done || lia). done.
Qed.

Lemma length_mapM_res {A B} (f : A → res B) l bs :
  mapM_res f l = Ok bs → length bs = length l.
Proof.
  revert bs. induction l as [|a l IH]; intros bs Hbs; simpl in *.
  - by injection Hbs as <-.
  - destruct (f a); [|discriminate]. simpl in Hbs.
    destruct (mapM_res f l) as [bs'|]; [|discriminate]. simpl in Hbs.
    injection Hbs as <-. simpl. by rewrite (IH bs').
Qed.

Lemma print_losses_shift (pre ls : list module) (xs : list Qc) :
  length ls = length xs →
  omap (λ '(i, loss), m ← (pre ++ ls) !! i; Some (i, m, loss))
    (imap (λ i x, ((length pre + i)%nat, x)) xs)
  = imap (λ i mx, ((length pre + i)%nat, mx.1, mx.2)) (zip ls xs).
Proof.
  revert pre xs. induction ls as [|m ls IH]; intros pre [|x xs] Hlen;
    try discriminate Hlen; [done |].
  simpl.
  rewrite Nat.add_0_r, (lookup_app_r pre) by lia.
  rewrite Nat.sub_diag. simpl. f_equal.
  specialize (IH (pre ++ [m]) xs). rewrite <- app_assoc in IH. simpl in IH.
  rewrite length_app in IH. simpl in IH.
  erewrite (imap_ext _ (λ i x0, ((length pre + 1 + i)%nat, x0))).
  2:{ intros i y _. simpl. f_equal. lia. }
  etrans; [exact (IH ltac:(simpl in Hlen; lia)) |].
  apply imap_ext. intros i y _. simpl. do 2 f_equal. lia.
Qed.

Lemma print_losses_zip self xs :
  length (losses self) = length xs →
  _print_losses self xs
  = imap (λ i mx, (i, mx.1, mx.2)) (zip (losses self) xs).
Proof.
  intros Hlen. unfold _print_losses.
  exact (print_losses_shift [] (losses self) xs Hlen).
Qed.

Lemma WeightedLoss_forward_ok (ls : list module) (ws : list Qc) (b : bool)
    (args : value) (vals : list Qc) :
  length ls = length ws →
  mapM_res (λ m, forward m args) ls = Ok vals →
  WeightedLoss_forward {| losses := ls; weights := ws; verbose := b |} args
  = Ok (if b then imap (λ i mx, (i, mx.1, mx.2)) (zip ls (zip_with Qcmult vals ws))
        else [],
        qsum (zip_with Qcmult vals ws)).
Proof.
  intros Hlen Hvals. unfold WeightedLoss_forward. simpl.
  rewrite (mapM_res_weighted args ls ws vals) by done. simpl.
  rewrite foldl_Qcplus, Qcplus_0_l.
  destruct b; [|done].
  rewrite print_losses_zip; [done |]. simpl.
  rewrite length_zip_with.
  apply length_mapM_res in Hvals. lia.
Qed.

(** C5, as the code has it: the list handed to [_print_losses] already holds
    the products, so verbose mode reports each term's weighted value (term
    value times weight), with the term's index and the term, in term order;
    the returned number is the same with and without reporting and is the
    sum over the terms of term value times weight. *)
Theorem WeightedLoss_verbose_reports_weighted_values
    (ls : list module) (ws : list Qc) (args : value) (vals : list Qc) :
  length ls = length ws →
  mapM_res (λ m, forward m args) ls = Ok vals →
  WeightedLoss_forward {| losses := ls; weights := ws; verbose := true |} args
  = Ok (imap (λ i mx, (i, mx.1, mx.2)) (zip ls (zip_with Qcmult vals ws)),
        qsum (zip_with Qcmult vals ws))
  ∧ WeightedLoss_forward {| losses := ls; weights := ws; verbose := false |} args
    = Ok ([], qsum (zip_with Qcmult vals ws)).
Proof.
  intros Hlen Hvals.
  split; by rewrite (WeightedLoss_forward_ok ls ws _ args vals).
Qed.

Lemma WeightedLoss_verbose_reports_weighted_values_witness :
  let ls := [LayerApply TVLoss Input; LayerApply TVLoss Input] in
  let ws := [Qc_of_Z 2; Qc_of_Z 3] in
  let vals := [Qc_of_Z 1; Qc_of_Z 1] in
  length ls = length ws
  ∧ mapM_res (λ m, forward m feats_tv1) ls = Ok vals
  ∧ WeightedLoss_forward {| losses := ls; weights := ws; verbose := true |} feats_tv1
    = Ok ([(0%nat, LayerApply TVLoss Input, Qc_of_Z 2);
           (1%nat, LayerApply TVLoss Input, Qc_of_Z 3)], Qc_of_Z 5).
Proof.
  intros ls ws vals.
  split; [reflexivity |]. split; [by vm_compute |].
  apply (WeightedLoss_verbose_reports_weighted_values ls ws feats_tv1 vals);
    [reflexivity | by vm_compute].
Defined.

(** C5 as stated fails: a critic with the single term TVLoss of weight 2, on
    an image whose total variation is 1, reports 2 in verbose mode, not the
    raw value 1. *)
Lemma WeightedLoss_verbose_does_not_report_raw_values :
  forward (LayerApply TVLoss Input) feats_tv1 = Ok (Qc_of_Z 1)
  ∧ WeightedLoss_forward
      {| losses := [LayerApply TVLoss Input];
         weights := [Qc_of_Z 2]; verbose := true |} feats_tv1
    = Ok ([(0%nat, LayerApply TVLoss Input, Qc_of_Z 2)], Qc_of_Z 2)
  ∧ Qc_of_Z 2 ≠ Qc_of_Z 1.
Proof. split; [by vm_compute |]. split; [by vm_compute | discriminate]. Qed.

(** ** Normalize *)

Lemma l1_nonneg g : 0 ≤ l1 g.
Proof.
  unfold l1. apply qsum_nonneg, List.Forall_forall. intros x Hx.
  apply in_map_iff in Hx as (y & <- & _). apply Qcabs_nonneg.
Qed.

Lemma Qcle_plus_nonneg_r a b : 0 ≤ b → a ≤ a + b.
Proof.
  intros Hb. rewrite <- (Qcplus_0_r a) at 1.
  by apply Qcplus_le_compat; [apply Qcle_refl |].
Qed.

Lemma Qcplus_nonneg_zero a b : 0 ≤ a → 0 ≤ b → a + b = 0 → a = 0 ∧ b = 0.
Proof.
  intros Ha Hb Hab. split; apply Qcle_antisym; try done.
  - rewrite <- Hab. by apply Qcle_plus_nonneg_r.
  - rewrite <- Hab, Qcplus_comm. by apply Qcle_plus_nonneg_r.
Qed.

Lemma l1_zero g : l1 g = 0 → Forall (λ x, x = 0) g.
Proof.
  induction g as [|x g IH]; intros Hg; [done |].
  change (Qcabs x + l1 g = 0) in Hg.
  apply Qcplus_nonneg_zero in Hg as [H0 H1];
    [| apply Qcabs_nonneg | apply l1_nonneg].
  constructor; [by apply Qcabs_null | by apply IH].
Qed.

Lemma l1_scale (c : Qc) g : l1 (map (λ x, x * c) g) = l1 g * Qcabs c.
Proof.
  unfold l1, qsum. induction g as [|x g IH]; simpl; [ring |].
  rewrite IH, Qcabs_Qcmult. ring.
Qed.

Lemma hook_rescale_scale scale eps g :
  hook_rescale scale eps g = map (λ x, x * (scale / (l1 g + eps))) g.
Proof.
  unfold hook_rescale. apply map_ext. intros x. unfold Qcdiv. ring.
Qed.

Lemma l1_hook_rescale scale eps g :
  0 ≤ eps →
  l1 (hook_rescale scale eps g) * (l1 g + eps) = Qcabs scale * l1 g.
Proof.
  intros Heps. pose proof (l1_nonneg g) as Hg.
  rewrite hook_rescale_scale, l1_scale.
  set (d := l1 g + eps).
  assert (Hd : 0 ≤ d).
  { unfold d. eapply Qcle_trans; [exact Hg | by apply Qcle_plus_nonneg_r]. }
  destruct (Qcle_lt_or_eq _ _ Hd) as [Hpos | Hzero].
  - unfold Qcdiv. rewrite Qcabs_Qcmult.
    rewrite (Qcabs_pos (/ d)) by (apply Qclt_le_weak; by apply Qcinv_pos).
    assert (Hne : d ≠ 0) by (intros E; by apply (Qclt_not_eq _ _ Hpos)).
    field. done.
  - assert (Hg0 : l1 g = 0).
    { apply Qcle_antisym; [|done]. rewrite Hzero. unfold d.
      by apply Qcle_plus_nonneg_r. }
    rewrite Hg0, <- Hzero. ring.
Qed.

Lemma l1_hook_rescale_le scale eps g :
  0 ≤ eps → l1 (hook_rescale scale eps g) ≤ Qcabs scale.
Proof.
  intros Heps. pose proof (l1_nonneg g) as Hg.
  pose proof (l1_hook_rescale scale eps g Heps) as E.
  set (d := l1 g + eps) in *.
  assert (Hd : 0 ≤ d).
  { unfold d. eapply Qcle_trans; [exact Hg | by apply Qcle_plus_nonneg_r]. }
  destruct (Qcle_lt_or_eq _ _ Hd) as [Hpos | Hzero].
  - apply (Qcmult_lt_0_le_reg_r _ _ d Hpos). rewrite E.
    apply Qcmult_le_mono_nonneg_l; [apply Qcabs_nonneg |].
    unfold d. by apply Qcle_plus_nonneg_r.
  - rewrite hook_rescale_scale, l1_scale. fold d. rewrite <- Hzero.
    unfold Qcdiv. replace (/ 0) with 0 by (by vm_compute).
    rewrite Qcmult_0_r, (Qcabs_pos 0) by apply Qcle_refl.
    rewrite Qcmult_0_r. apply Qcabs_nonneg.
Qed.

Lemma hook_blocks_numel s :
  ((hook_blocks s).1 * (hook_blocks s).2)%nat = numel s.
Proof.
  destruct s as [|a [|b s]]; unfold hook_blocks, numel; simpl; lia.
Qed.

Lemma length_hook_rescale scale eps g :
  length (hook_rescale scale eps g) = length g.
Proof. unfold hook_rescale. apply length_map. Qed.

Lemma Normalize_hook_blocks scale eps i rest :
  wf_tensor i →
  ∃ i', Normalize_hook scale eps (i :: rest) = Ok (i' :: rest)
        ∧ shape i' = shape i
        ∧ ∀ k, (k < (hook_blocks (shape i)).1)%nat →
            hook_block i' k = hook_rescale scale eps (hook_block i k).
Proof.
  unfold wf_tensor. intros Hwf. unfold Normalize_hook, hook_block.
  pose proof (hook_blocks_numel (shape i)) as Hbn.
  destruct (hook_blocks (shape i)) as [b n] eqn:Hb. simpl in Hbn.
  eexists. split; [reflexivity |]. split; [done |]. simpl. rewrite Hb.
  intros k Hk.
  set (blocks := unstack b n (data i)).
  assert (Hall : Forall (λ g, length g = n) (map (hook_rescale scale eps) blocks)).
  { apply List.Forall_forall. intros g Hg.
    apply in_map_iff in Hg as (g0 & <- & Hg0).
    rewrite length_hook_rescale.
    pose proof (Forall_length_unstack b n (data i)) as Hu.
    rewrite List.Forall_forall in Hu. apply Hu; [congruence | done]. }
  rewrite <- (nth_unstack (length (map (hook_rescale scale eps) blocks)))
    by (unfold blocks; by rewrite length_map, length_unstack).
  rewrite unstack_concat by done.
  rewrite (nth_indep _ [] (hook_rescale scale eps []))
    by (unfold blocks; by rewrite length_map, length_unstack).
  rewrite map_nth. unfold blocks. by rewrite nth_unstack.
Qed.

(** C3, as the code has it: the hook returns [i * scale / (norm + eps)]
    block by block (a block is a sample as soon as the gradient has two
    dimensions), so with [norm] the L1 norm of the sample's gradient and a
    positive [eps] the L1 norm of the rescaled gradient is
    [|scale| * norm / (norm + eps)]: it never exceeds [|scale|], and it is 0
    for a zero gradient.  The value returned by [forward] is that of the
    wrapped module. *)
Theorem Normalize_rescales_by_norm_plus_eps
    (scale eps : Qc) (i : tensor) (rest : list tensor) :
  0 < eps → wf_tensor i →
  (∃ i', Normalize_hook scale eps (i :: rest) = Ok (i' :: rest)
         ∧ shape i' = shape i
         ∧ ∀ k, (k < (hook_blocks (shape i)).1)%nat →
             hook_block i' k
             = map (λ x, x * scale / (l1 (hook_block i k) + eps)) (hook_block i k)
             ∧ l1 (hook_block i' k) * (l1 (hook_block i k) + eps)
               = Qcabs scale * l1 (hook_block i k)
             ∧ l1 (hook_block i' k) ≤ Qcabs scale)
  ∧ ∀ m input, forward (Normalize m scale eps) input = forward m input.
Proof.
  intros Heps%Qclt_le_weak Hwf. split; [|done].
  destruct (Normalize_hook_blocks scale eps i rest Hwf) as (i' & Hi' & Hs & Hk).
  exists i'. split; [done |]. split; [done |]. intros k Hlt.
  rewrite (Hk k Hlt). split; [done |]. split.
  - by apply l1_hook_rescale.
  - by apply l1_hook_rescale_le.
Qed.

Lemma Normalize_rescales_by_norm_plus_eps_witness :
  0 < Normalize_eps ∧ wf_tensor grad_2x2
  ∧ ∃ i', Normalize_hook 1 Normalize_eps [grad_2x2] = Ok [i']
          ∧ l1 (hook_block i' 0) * (l1 (hook_block grad_2x2 0) + Normalize_eps)
            = Qcabs 1 * l1 (hook_block grad_2x2 0).
Proof.
  split; [by vm_compute |]. split; [reflexivity |].
  destruct (Normalize_rescales_by_norm_plus_eps 1 Normalize_eps grad_2x2 [])
    as [(i' & Hi' & _ & Hk) _]; [by vm_compute | reflexivity |].
  exists i'. split; [exact Hi' |].
  destruct (Hk 0%nat) as (_ & E & _); [vm_compute; lia | exact E].
Defined.

(** C3 as stated fails: for a gradient that is zero on a sample (the content
    term's gradient on the first pass, where the working image is the content
    image) the hook returns zero, whose L1 norm is 0 and not the target
    scale 1. *)
Lemma Normalize_zero_gradient_keeps_norm_zero :
  Normalize_hook 1 Normalize_eps [grad_zero_1x2] = Ok [grad_zero_1x2]
  ∧ l1 (hook_block grad_zero_1x2 0) = 0
  ∧ l1 (hook_block grad_zero_1x2 0) ≠ 1.
Proof. split; [by vm_compute |]. split; [by vm_compute | by vm_compute]. Qed.

(** ** Reasoning about stateful computations *)

Section hoare.
Context {Σ : Type}.
Implicit Types (P E : Σ → Prop).

Lemma hoare_ret {A} P (Q : A → Σ → Prop) E (a : A) :
  (∀ s, P s → Q a s) → hoare P (ret a) Q E.
Proof. intros HQ s Hs. simpl. auto. Qed.

Lemma hoare_raise {A} P (Q : A → Σ → Prop) E e :
  (∀ s, P s → E s) → hoare P (raise e) Q E.
Proof. intros HE s Hs. simpl. auto. Qed.

Lemma hoare_lift {A} P E (r : res A) :
  (∀ s, P s → E s) → hoare P (lift r) (λ _, P) E.
Proof. intros HE s Hs. unfold lift. destruct r; auto. Qed.

Lemma hoare_bind {A B} P (R : A → Σ → Prop) (Q : B → Σ → Prop) E
    (m : SE Σ A) (f : A → SE Σ B) :
  hoare P m R E → (∀ a, hoare (R a) (f a) Q E) → hoare P (bind m f) Q E.
Proof.
  intros Hm Hf s Hs. unfold bind. specialize (Hm s Hs).
  destruct (m s) as [[a|e] s']; [by apply Hf | done].
Qed.

Lemma hoare_post {A} P (Q' Q : A → Σ → Prop) E (m : SE Σ A) :
  hoare P m Q' E → (∀ a s, Q' a s → Q a s) → hoare P m Q E.
Proof.
  intros Hm HQ s Hs. specialize (Hm s Hs).
  destruct (m s) as [[a|e] s']; auto.
Qed.

Lemma hoare_pre {A} P' P (Q : A → Σ → Prop) E (m : SE Σ A) :
  hoare P' m Q E → (∀ s, P s → P' s) → hoare P m Q E.
Proof. intros Hm HP s Hs. apply Hm. auto. Qed.

(** A loop whose invariant follows the elements already visited. *)
Lemma hoare_foldM {A B} (I : list A → B → Σ → Prop) E
    (f : B → A → SE Σ B) (l : list A) :
  (∀ pre a b, hoare (I pre b) (f b a) (I (pre ++ [a])) E) →
  ∀ pre b, hoare (I pre b) (foldM f b l) (I (pre ++ l)) E.
Proof.
  intros Hf. induction l as [|a l IH]; intros pre b; simpl.
  - apply hoare_ret. intros s. by rewrite app_nil_r.
  - eapply hoare_bind; [apply Hf |]. intros b'.
    replace (pre ++ a :: l) with ((pre ++ [a]) ++ l)
      by (by rewrite <- app_assoc).
    apply IH.
Qed.

Lemma hoare_foldM_inv {A B} (I : Σ → Prop) E
    (f : B → A → SE Σ B) (l : list A) b :
  (∀ a b, hoare I (f b a) (λ _, I) E) → hoare I (foldM f b l) (λ _, I) E.
Proof.
  intros Hf.
  apply (hoare_foldM (λ _ _, I) E f l (λ pre a b, Hf a b) [] b).
Qed.
End hoare.

(** One step of a sequence: the first computation by [tac], then the rest. *)
Ltac hoare_seq tac := eapply hoare_bind; [tac | intros ?].
Ltac hoare_last tac := eapply hoare_post; [tac | try (intros; eauto; fail)].

(** ** The engine *)

Lemma clamp_in_unit_interval t : in_unit_interval (clamp 0 1 t).
Proof.
  unfold in_unit_interval, tensor_all, clamp, tmap. simpl.
  apply List.Forall_forall. intros y Hy.
  apply in_map_iff in Hy as (x & <- & _).
  unfold qmin, qmax.
  destruct (bool_decide (x ≤ 0)) eqn:Hx.
  - rewrite bool_decide_true by done. split; [apply Qcle_refl | done].
  - apply bool_decide_eq_false in Hx. apply Qcnot_le_lt in Hx.
    destruct (bool_decide (x ≤ 1)) eqn:H1.
    + apply bool_decide_eq_true in H1. split; [by apply Qclt_le_weak | done].
    + split; [done | apply Qcle_refl].
Qed.

Lemma optimizer_origins_app evs1 evs2 :
  optimizer_origins (evs1 ++ evs2)
  = optimizer_origins evs1 ++ optimizer_origins evs2.
Proof. unfold optimizer_origins. apply omap_app. Qed.

Section engine_proofs.
Context `{Backend}.

(** *** The recorded images *)

Lemma in_range_weaken base b w : in_range base b w → in_range base false w.
Proof. intros [Hout _]. split; [done | discriminate]. Qed.

Lemma in_range_init base : ∀ w, out w = base → in_range base false w.
Proof.
  intros w Hw. split; [|discriminate]. exists []. by rewrite app_nil_r.
Qed.

Lemma in_range_get_self base b :
  hoare (in_range base b) get_self (λ _, in_range base b) (in_range base false).
Proof. intros w Hw. done. Qed.

Lemma in_range_lift {A} base b (r : res A) :
  hoare (in_range base b) (lift r) (λ _, in_range base b) (in_range base false).
Proof. apply hoare_lift, in_range_weaken. Qed.

Lemma in_range_raise {A} base b e :
  hoare (in_range base b) (raise (A:=A) e) (λ _, in_range base b)
    (in_range base false).
Proof. apply hoare_raise, in_range_weaken. Qed.

Lemma in_range_the_image base b :
  hoare (in_range base b) the_image (λ _, in_range base b) (in_range base false).
Proof.
  intros w Hw. unfold the_image, bind, get_self. simpl.
  destruct (image (self w)); simpl; [done | by eapply in_range_weaken].
Qed.

Lemma in_range_set_image_clamp base b x :
  hoare (in_range base b) (set_image (clamp 0 1 x)) (λ _, in_range base true)
    (in_range base false).
Proof.
  intros w [Hout _]. simpl. split; [done |].
  intros _ img [= <-]. apply clamp_in_unit_interval.
Qed.

Lemma in_range_set_image base b x :
  hoare (in_range base b) (set_image x) (λ _, in_range base false)
    (in_range base false).
Proof. intros w [Hout _]. simpl. split; [done | discriminate]. Qed.

Lemma in_range_emit base b e :
  image_in_range e →
  hoare (in_range base b) (emit e) (λ _, in_range base b) (in_range base false).
Proof.
  intros He w [(new & Hout & Hnew) Himg]. simpl. split; [|done].
  exists (new ++ [e]). rewrite Hout, app_assoc. split; [done |].
  apply Forall_app. split; [done | by constructor].
Qed.

Lemma in_range_observe base f :
  (∀ img, in_unit_interval img → image_in_range (f img)) →
  hoare (in_range base true) (observe f) (λ _, in_range base true)
    (in_range base false).
Proof.
  intros Hf w Hw. unfold observe, the_image, bind, get_self. simpl.
  destruct (image (self w)) as [img|] eqn:Himg; simpl;
    [| by eapply in_range_weaken].
  apply (in_range_emit base true (f img)); [|done].
  apply Hf. destruct Hw as [_ Hw]. by apply Hw.
Qed.

Lemma in_range_init_optimizer base opt index scale initial_scale size step_size :
  hoare (in_range base true)
    (init_optimizer opt index scale initial_scale size step_size)
    (λ _, in_range base true) (in_range base false).
Proof.
  unfold init_optimizer.
  hoare_seq ltac:(apply in_range_the_image).
  hoare_seq ltac:(apply in_range_lift).
  destruct (bool_decide (scale ≠ initial_scale)).
  - destruct opt as [o|]; [| apply in_range_raise].
    destruct (state_dict o) as [sd st].
    hoare_seq ltac:(apply in_range_lift).
    hoare_seq ltac:(apply in_range_lift).
    hoare_seq ltac:(by apply in_range_emit).
    by apply hoare_ret.
  - hoare_seq ltac:(by apply in_range_emit).
    by apply hoare_ret.
Qed.

Lemma in_range_iteration base b crit index scale opt i :
  hoare (in_range base b) (iteration crit index scale opt i)
    (λ _, in_range base true) (in_range base false).
Proof.
  unfold iteration.
  hoare_seq ltac:(apply in_range_get_self).
  hoare_seq ltac:(apply in_range_the_image).
  hoare_seq ltac:(apply in_range_lift).
  hoare_seq ltac:(apply in_range_lift).
  eapply hoare_bind.
  { destruct (bool_decide _); [apply in_range_raise | by apply in_range_emit]. }
  intros ?.
  hoare_seq ltac:(apply in_range_lift).
  hoare_seq ltac:(apply in_range_lift).
  hoare_seq ltac:(apply in_range_set_image_clamp).
  hoare_seq ltac:(by apply in_range_observe).
  by apply hoare_ret.
Qed.

Lemma in_range_stylize_scale base content_img style_img content_weights
    tv_loss tv_weight initial_scale iterations step_size opt index_scale :
  hoare (in_range base false)
    (stylize_scale content_img style_img content_weights tv_loss tv_weight
       initial_scale iterations step_size opt index_scale)
    (λ _, in_range base false) (in_range base false).
Proof.
  unfold stylize_scale. destruct index_scale as [index scale].
  hoare_seq ltac:(apply in_range_get_self).
  eapply hoare_bind; [apply in_range_lift | intros [cw ch]].
  eapply hoare_bind; [apply in_range_lift | intros [sw sh]].
  hoare_seq ltac:(apply in_range_lift).
  hoare_seq ltac:(apply in_range_lift).
  hoare_seq ltac:(apply in_range_the_image).
  hoare_seq ltac:(apply in_range_lift).
  hoare_seq ltac:(apply in_range_set_image_clamp).
  hoare_seq ltac:(by apply in_range_observe).
  hoare_seq ltac:(by apply in_range_emit).
  hoare_seq ltac:(apply in_range_lift).
  hoare_seq ltac:(apply in_range_lift).
  hoare_seq ltac:(by apply in_range_emit).
  hoare_seq ltac:(apply in_range_lift).
  hoare_seq ltac:(apply in_range_lift).
  hoare_seq ltac:(apply in_range_init_optimizer).
  eapply hoare_bind.
  { apply (hoare_foldM_inv (in_range base true)). intros i opt'.
    apply in_range_iteration. }
  intros opt'. apply hoare_ret. apply in_range_weaken.
Qed.

Lemma in_range_stylize base content_img style_img content_weight tv_weight
    initial_scale scales iterations step_size :
  hoare (in_range base false)
    (stylize content_img style_img content_weight tv_weight
       initial_scale scales iterations step_size)
    (λ _, in_range base false) (in_range base false).
Proof.
  unfold stylize.
  hoare_seq ltac:(apply in_range_get_self).
  eapply hoare_bind.
  { destruct (bool_decide _); [apply in_range_raise |].
    apply hoare_ret. intros s Hs. exact Hs. }
  intros content_weights.
  hoare_seq ltac:(apply in_range_lift).
  hoare_seq ltac:(apply in_range_lift).
  hoare_seq ltac:(apply in_range_set_image).
  eapply hoare_bind.
  { apply (hoare_foldM_inv (in_range base false)). intros index_scale opt.
    apply in_range_stylize_scale. }
  intros ?.
  hoare_seq ltac:(apply in_range_get_self).
  apply in_range_lift.
Qed.

Lemma stylize_events_in_range content_img style_img content_weight tv_weight
    initial_scale scales iterations step_size w :
  ∃ new,
    out (stylize content_img style_img content_weight tv_weight
           initial_scale scales iterations step_size w).2 = out w ++ new
    ∧ Forall image_in_range new.
Proof.
  pose proof (in_range_stylize (out w) content_img style_img content_weight
                tv_weight initial_scale scales iterations step_size w
                (in_range_init (out w) w eq_refl)) as Hrun.
  destruct (stylize _ _ _ _ _ _ _ _ w) as [[r|e] w']; simpl;
    by destruct Hrun as [Hout _].
Qed.

End engine_proofs.

(** C2: in every run of [stylize], with any images, weights, scales, counts
    and backend, and whether the run completes or raises, the working image
    recorded after each resize (lines 208-209) and at the end of each pass
    of the optimisation loop (the optimizer step and the clamp that follows
    it, lines 245-247) has all its entries in [0, 1]. *)
Theorem working_image_stays_in_unit_interval `{Backend}
    (content_img style_img : PIL_Image) (content_weight tv_weight : Qc)
    (initial_scale scales iterations : Z) (step_size : Qc) (w : world) :
  ∃ new,
    out (stylize content_img style_img content_weight tv_weight
           initial_scale scales iterations step_size w).2 = out w ++ new
    ∧ ∀ e, e ∈ new →
        match e with
        | At_resize _ _ img | At_step _ _ _ img =>
            tensor_all (λ x, 0 ≤ x ∧ x ≤ 1) img
        | _ => True
        end.
Proof.
  destruct (stylize_events_in_range content_img style_img content_weight
              tv_weight initial_scale scales iterations step_size w)
    as (new & Hout & Hnew).
  exists new. split; [done |]. intros e He.
  rewrite Forall_forall in Hnew. apply (Hnew e He).
Qed.

(** ** The scale schedule *)



(** The model of [round(start * pow(2, i/2))] is the integer nearest to the
    square root of [start^2 * 2^i]. *)
Lemma gen_scale_nearest start i :
  (0 < start)%Z →
  let g := gen_scale start i in
  ((2 * g - 1) * (2 * g - 1) ≤ 4 * (start * start) * 2 ^ Z.of_nat i
   < (2 * g + 1) * (2 * g + 1))%Z.
Proof.
  intros Hs g. subst g. unfold gen_scale.
  set (n := (4 * (start * start) * 2 ^ Z.of_nat i)%Z).
  assert (Hpow : (1 ≤ 2 ^ Z.of_nat i)%Z).
  { change 1%Z with (2 ^ 0)%Z. apply Z.pow_le_mono_r; lia. }
  assert (Hn : (4 ≤ n)%Z) by (unfold n; nia).
  pose proof (Z.sqrt_spec n ltac:(lia)) as [Hlo Hhi].
  pose proof (Z.sqrt_nonneg n) as Hr.
  set (r := Z.sqrt n) in *.
  rewrite Z.sgn_pos, Z.mul_1_l by lia.
  pose proof (Z.div_mod (r + 1) 2 ltac:(lia)) as Hdm.
  pose proof (Z.mod_pos_bound (r + 1) 2 ltac:(lia)) as Hm.
  unfold Z.succ in Hhi.
  assert (Hr2 : (2 ≤ r)%Z) by nia.
  nia.
Qed.

Lemma gen_scales_1_2 : gen_scales 1 2 = [1; 1]%Z.
Proof. reflexivity. Qed.

(** ** The origin of the optimizer at each scale *)

Section origins.
Context `{Backend}.

Lemma origins_init base w : out w = base → origins base [] w.
Proof. intros Hw. exists []. by rewrite app_nil_r. Qed.

Lemma origins_get_self base l :
  hoare (origins base l) get_self (λ _, origins base l) anything.
Proof. intros w Hw. done. Qed.

Lemma origins_lift {A} base l (r : res A) :
  hoare (origins base l) (lift r) (λ _, origins base l) anything.
Proof. by apply hoare_lift. Qed.

Lemma origins_raise {A} base l e (Q : A → world → Prop) :
  hoare (origins base l) (raise e) Q anything.
Proof. by apply hoare_raise. Qed.

Lemma origins_the_image base l :
  hoare (origins base l) the_image (λ _, origins base l) anything.
Proof.
  intros w Hw. unfold the_image, bind, get_self. simpl.
  by destruct (image (self w)).
Qed.

Lemma origins_set_image base l x :
  hoare (origins base l) (set_image x) (λ _, origins base l) anything.
Proof. intros w Hw. done. Qed.

Lemma origins_emit base l e :
  not_optimizer e →
  hoare (origins base l) (emit e) (λ _, origins base l) anything.
Proof.
  intros He w (new & Hout & Hnew). simpl.
  exists (new ++ [e]). rewrite Hout, app_assoc. split; [done |].
  rewrite optimizer_origins_app, Hnew.
  destruct e; try done; simpl; by rewrite app_nil_r.
Qed.

Lemma origins_emit_optimizer base l i s o :
  hoare (origins base l) (emit (At_optimizer i s o))
    (λ _, origins base (l ++ [(i, s, o)])) anything.
Proof.
  intros w (new & Hout & Hnew). simpl.
  exists (new ++ [At_optimizer i s o]). rewrite Hout, app_assoc.
  split; [done |]. by rewrite optimizer_origins_app, Hnew.
Qed.

Lemma origins_observe base l f :
  (∀ img, not_optimizer (f img)) →
  hoare (origins base l) (observe f) (λ _, origins base l) anything.
Proof.
  intros Hf w Hw. unfold observe, the_image, bind, get_self. simpl.
  destruct (image (self w)) as [img|]; simpl; [| done].
  by apply (origins_emit base l (f img)).
Qed.

Lemma origins_init_optimizer base l opt index scale initial_scale size step_size :
  hoare (origins base l)
    (init_optimizer opt index scale initial_scale size step_size)
    (λ _, origins base (l ++ [(index, scale, origin_at initial_scale scale)]))
    anything.
Proof.
  unfold init_optimizer, origin_at.
  hoare_seq ltac:(apply origins_the_image).
  hoare_seq ltac:(apply origins_lift).
  destruct (bool_decide (scale ≠ initial_scale)).
  - destruct opt as [o|]; [| apply origins_raise].
    destruct (state_dict o) as [sd st].
    hoare_seq ltac:(apply origins_lift).
    hoare_seq ltac:(apply origins_lift).
    hoare_seq ltac:(apply origins_emit_optimizer).
    by apply hoare_ret.
  - hoare_seq ltac:(apply origins_emit_optimizer).
    by apply hoare_ret.
Qed.

Lemma origins_iteration base l crit index scale opt i :
  hoare (origins base l) (iteration crit index scale opt i)
    (λ _, origins base l) anything.
Proof.
  unfold iteration.
  hoare_seq ltac:(apply origins_get_self).
  hoare_seq ltac:(apply origins_the_image).
  hoare_seq ltac:(apply origins_lift).
  hoare_seq ltac:(apply origins_lift).
  eapply hoare_bind.
  { destruct (bool_decide _); [apply origins_raise | by apply origins_emit]. }
  intros ?.
  hoare_seq ltac:(apply origins_lift).
  hoare_seq ltac:(apply origins_lift).
  hoare_seq ltac:(apply origins_set_image).
  hoare_seq ltac:(by apply origins_observe).
  by apply hoare_ret.
Qed.

Lemma origins_stylize_scale base l content_img style_img content_weights
    tv_loss tv_weight initial_scale iterations step_size opt index scale :
  hoare (origins base l)
    (stylize_scale content_img style_img content_weights tv_loss tv_weight
       initial_scale iterations step_size opt (index, scale))
    (λ _, origins base (l ++ [(index, scale, origin_at initial_scale scale)]))
    anything.
Proof.
  unfold stylize_scale.
  hoare_seq ltac:(apply origins_get_self).
  eapply hoare_bind; [apply origins_lift | intros [cw ch]].
  eapply hoare_bind; [apply origins_lift | intros [sw sh]].
  hoare_seq ltac:(apply origins_lift).
  hoare_seq ltac:(apply origins_lift).
  hoare_seq ltac:(apply origins_the_image).
  hoare_seq ltac:(apply origins_lift).
  hoare_seq ltac:(apply origins_set_image).
  hoare_seq ltac:(by apply origins_observe).
  hoare_seq ltac:(by apply origins_emit).
  hoare_seq ltac:(apply origins_lift).
  hoare_seq ltac:(apply origins_lift).
  hoare_seq ltac:(by apply origins_emit).
  hoare_seq ltac:(apply origins_lift).
  hoare_seq ltac:(apply origins_lift).
  hoare_seq ltac:(apply origins_init_optimizer).
  eapply hoare_bind.
  { apply (hoare_foldM_inv (origins base _)). intros i opt'.
    apply origins_iteration. }
  intros opt'. by apply hoare_ret.
Qed.

Lemma origins_stylize base content_img style_img content_weight tv_weight
    initial_scale scales iterations step_size :
  hoare (origins base [])
    (stylize content_img style_img content_weight tv_weight
       initial_scale scales iterations step_size)
    (λ _, origins base
            (origins_of initial_scale (imap pair (gen_scales initial_scale scales))))
    anything.
Proof.
  unfold stylize.
  hoare_seq ltac:(apply origins_get_self).
  eapply (hoare_bind _ (λ _, origins base [])).
  { destruct (bool_decide _); [apply origins_raise | by apply hoare_ret]. }
  intros content_weights.
  hoare_seq ltac:(apply origins_lift).
  hoare_seq ltac:(apply origins_lift).
  hoare_seq ltac:(apply origins_set_image).
  eapply hoare_bind.
  { apply (hoare_foldM
             (λ pre (_ : option optimizer),
                origins base (origins_of initial_scale pre))
             anything _ _) with (pre := []).
    intros pre [index scale] opt. unfold origins_of. rewrite map_app.
    apply origins_stylize_scale. }
  intros ?.
  hoare_seq ltac:(apply origins_get_self).
  apply origins_lift.
Qed.

Lemma stylize_optimizer_origins content_img style_img content_weight tv_weight
    initial_scale scales iterations step_size w r w' :
  stylize content_img style_img content_weight tv_weight
    initial_scale scales iterations step_size w = (Ok r, w') →
  ∃ new, out w' = out w ++ new
         ∧ optimizer_origins new
           = origins_of initial_scale (imap pair (gen_scales initial_scale scales)).
Proof.
  intros Hrun.
  pose proof (origins_stylize (out w) content_img style_img content_weight
                tv_weight initial_scale scales iterations step_size w
                (origins_init (out w) w eq_refl)) as Hspec.
  by rewrite Hrun in Hspec.
Qed.

End origins.

(** C1 fails on the code at [initial_scale = 1], [scales = 2]: the second
    scale is [round(1 * 2^(1/2)) = 1], equal to [initial_scale], so the test
    [scale != initial_scale] of line 233 is false there and the optimizer of
    the second scale is the freshly constructed Adam, not the resampled state
    of the first scale.  Every completed run, with any images, weights,
    iteration count and backend, records origin [Fresh] at both scales. *)
Theorem second_scale_restarts_cold_at_initial_scale_1 `{Backend}
    (content_img style_img : PIL_Image) (content_weight tv_weight : Qc)
    (iterations : Z) (step_size : Qc) (w w' : world) (r : option PIL_Image) :
  stylize content_img style_img content_weight tv_weight 1 2 iterations
    step_size w = (Ok r, w') →
  gen_scales 1 2 = [1; 1]%Z
  ∧ ∃ new, out w' = out w ++ new
           ∧ optimizer_origins new = [(0%nat, 1%Z, Fresh); (1%nat, 1%Z, Fresh)].
Proof.
  intros Hrun. split; [reflexivity |].
  apply stylize_optimizer_origins in Hrun as (new & Hout & Hnew).
  exists new. split; [done |]. rewrite Hnew. reflexivity.
Qed.

Lemma second_scale_restarts_cold_at_initial_scale_1_witness :
  ∃ w0,
    Reference.new_world = Ok w0
    ∧ ∃ r w',
        @stylize Reference.backend picture_2x2 picture_2x2
          (Q2Qc (1 # 100)) (Q2Qc (1 # 5000000)) 1 2 1 (Q2Qc (1 # 50)) w0
        = (Ok r, w')
        ∧ gen_scales 1 2 = [1; 1]%Z
        ∧ ∃ new, out w' = out w0 ++ new
                 ∧ optimizer_origins new
                   = [(0%nat, 1%Z, Fresh); (1%nat, 1%Z, Fresh)].
Proof.
  eexists. split; [reflexivity |].
  match goal with
  | |- ∃ r w', ?run = _ ∧ _ => destruct run as [[r|e] w'] eqn:Hrun
  end.
  - exists r, w'. split; [reflexivity |].
    exact (@second_scale_restarts_cold_at_initial_scale_1 Reference.backend
             _ _ _ _ _ _ _ _ _ Hrun).
  - exfalso. vm_compute in Hrun. discriminate Hrun.
Defined.



(** C10: a freshly constructed engine holds no image, and [get_image] on it
    returns [None] without raising. *)
Theorem get_image_of_fresh_engine_is_None `{Backend} (device : string) :
  ∃ me, StyleTransfer_init device = Ok me
        ∧ image me = None
        ∧ get_image me = Ok None.
Proof. eexists. split; [reflexivity |]. split; reflexivity. Qed.

(** ** The store: what a copy leaves untouched *)

Lemma framed_refl st0 : framed st0 st0.
Proof.
  split; [by split |]. intros l o Hl Ho.
  apply lookup_lt_Some in Ho. lia.
Qed.

Lemma val_above_dict_get n k d v :
  Forall (λ kv, val_above n kv.2) d → dict_get k d = Some v → val_above n v.
Proof.
  induction 1 as [|[k' v'] d Hv _ IH]; simpl; [done |].
  destruct (decide (k = k')); [by intros [= <-] | done].
Qed.

Lemma val_above_dict_set n k v d :
  val_above n v → Forall (λ kv, val_above n kv.2) d →
  Forall (λ kv, val_above n kv.2) (dict_set k v d).
Proof.
  intros Hv. induction 1 as [|[k' v'] d Hv' Hd IH]; simpl.
  - by repeat constructor.
  - destruct (decide (k = k')); by constructor.
Qed.

Section frame.
Context (st0 : store).

Lemma framed_alloc o :
  obj_above (length st0) o →
  hoare (framed st0) (alloc o)
    (λ l st, framed st0 st ∧ (length st0 ≤ l)%nat) (framed st0).
Proof.
  intros Ho st [[Hlen Hold] Hnew]. simpl. split; [split; [split |] |].
  - rewrite length_app. lia.
  - intros l Hl. rewrite lookup_app_l by lia. by apply Hold.
  - intros l o' Hl Hlook.
    destruct (decide (l < length st)%nat) as [Hlt | Hge].
    + rewrite lookup_app_l in Hlook by done. by eapply Hnew.
    + rewrite lookup_app_r in Hlook by lia.
      destruct (l - length st)%nat; simpl in Hlook; [| done].
      by injection Hlook as <-.
  - done.
Qed.

Lemma framed_load l :
  hoare (framed st0) (load l)
    (λ o st, framed st0 st ∧ ((length st0 ≤ l)%nat → obj_above (length st0) o))
    (framed st0).
Proof.
  intros st Hst. unfold load. destruct (st !! l) as [o|] eqn:Hl; [| done].
  split; [done |]. intros Hge. destruct Hst as [_ Hnew]. by eapply Hnew.
Qed.

Lemma framed_store_at l o :
  (length st0 ≤ l)%nat → obj_above (length st0) o →
  hoare (framed st0) (store_at l o) (λ _, framed st0) (framed st0).
Proof.
  intros Hl Ho st [[Hlen Hold] Hnew]. simpl. split; [split |].
  - by rewrite length_insert.
  - intros l' Hl'. rewrite list_lookup_insert_ne by lia. by apply Hold.
  - intros l' o' Hl' Hlook.
    destruct (decide (l = l')) as [<- | Hne].
    + destruct (decide (l < length st)%nat).
      * rewrite list_lookup_insert_eq in Hlook by done. by injection Hlook as <-.
      * rewrite list_insert_ge in Hlook by lia. by eapply Hnew.
    + rewrite list_lookup_insert_ne in Hlook by done. by eapply Hnew.
Qed.

Lemma framed_ret {A} (a : A) (Q : A → store → Prop) :
  (∀ st, framed st0 st → Q a st) → hoare (framed st0) (ret a) Q (framed st0).
Proof. apply hoare_ret. Qed.

Lemma framed_raise {A} e (Q : A → store → Prop) :
  hoare (framed st0) (raise e) Q (framed st0).
Proof. by apply hoare_raise. Qed.

Lemma framed_getitem x k :
  val_above (length st0) x →
  hoare (framed st0) (getitem x k)
    (λ v st, framed st0 st ∧ val_above (length st0) v) (framed st0).
Proof.
  intros Hx. unfold getitem. destruct x as [a | l]; [apply framed_raise |].
  eapply hoare_bind; [apply framed_load |]. intros o.
  destruct o as [t | d | xs].
  - intros st [Hst _]. done.
  - intros st [Hst Ho]. destruct (dict_get k d) as [v|] eqn:Hk; simpl; [| done].
    split; [done |]. eapply val_above_dict_get; [| done]. by apply Ho.
  - intros st [Hst _]. done.
Qed.

Lemma framed_setitem x k v :
  val_above (length st0) x → val_above (length st0) v →
  hoare (framed st0) (setitem x k v) (λ _, framed st0) (framed st0).
Proof.
  intros Hx Hv. unfold setitem. destruct x as [a | l]; [apply framed_raise |].
  eapply hoare_bind; [apply framed_load |]. intros o.
  destruct o as [t | d | xs].
  - intros st [Hst _]. done.
  - intros st [Hst Ho].
    apply (framed_store_at l (ODict (dict_set k v d))); [done | | done].
    apply val_above_dict_set; [done | by apply Ho].
  - intros st [Hst _]. done.
Qed.

Lemma framed_append x v :
  val_above (length st0) x → val_above (length st0) v →
  hoare (framed st0) (append x v) (λ _, framed st0) (framed st0).
Proof.
  intros Hx Hv. unfold append. destruct x as [a | l]; [apply framed_raise |].
  eapply hoare_bind; [apply framed_load |]. intros o.
  destruct o as [t | d | xs].
  - intros st [Hst _]. done.
  - intros st [Hst _]. done.
  - intros st [Hst Ho].
    apply (framed_store_at l (OList (xs ++ [v]))); [done | | done].
    apply Forall_app. split; [by apply Ho | by constructor].
Qed.

Lemma framed_values x :
  val_above (length st0) x →
  hoare (framed st0) (values x)
    (λ vs st, framed st0 st ∧ Forall (val_above (length st0)) vs) (framed st0).
Proof.
  intros Hx. unfold values. destruct x as [a | l]; [apply framed_raise |].
  eapply hoare_bind; [apply framed_load |]. intros o.
  destruct o as [t | d | xs].
  - intros st [Hst _]. done.
  - intros st [Hst Ho]. simpl. split; [done |].
    specialize (Ho Hx). simpl in Ho.
    induction Ho; simpl; by constructor.
  - intros st [Hst _]. done.
Qed.

Lemma framed_deepcopy limit x memo :
  memo_above (length st0) memo →
  hoare (framed st0) (deepcopy limit x memo)
    (λ r st, framed st0 st ∧ val_above (length st0) r.1
             ∧ memo_above (length st0) r.2)
    (framed st0).
Proof.
  revert x memo. induction limit as [|limit IH]; intros x memo Hmemo;
    [apply framed_raise |].
  cbn [deepcopy]. destruct x as [a | l].
  { apply framed_ret. by intros st Hst. }
  destruct (memo !! l) as [l'|] eqn:Hl.
  { apply framed_ret. intros st Hst. split; [done |].
    split; [| done]. by eapply Hmemo. }
  assert (Hins : ∀ l', (length st0 ≤ l')%nat →
                       memo_above (length st0) (<[l := l']> memo)).
  { intros l' Hl' k k'. rewrite lookup_insert.
    destruct (decide (l = k)); [by intros [= <-] | apply Hmemo]. }
  set (I l' := λ (m : gmap loc loc) (st : store),
         framed st0 st ∧ (length st0 ≤ l')%nat ∧ memo_above (length st0) m).
  eapply hoare_bind; [apply framed_load |]. intros o.
  eapply hoare_pre; [| intros st Hst; exact (proj1 Hst)].
  destruct o as [t | d | xs].
  - eapply hoare_bind; [by apply framed_alloc |]. intros l'.
    intros st [Hst Hl']. simpl. split; [done |].
    split; [done | by apply Hins].
  - eapply hoare_bind; [apply framed_alloc; constructor |]. intros l'.
    eapply (hoare_bind _ (I l')).
    + eapply hoare_pre.
      * apply (hoare_foldM (λ _, I l') (framed st0)) with (pre := []).
        intros _ kv m.
        eapply (hoare_bind _ (λ r st, I l' r.2 st ∧ val_above (length st0) r.1)).
        { intros st (Hst & Hl' & Hm). pose proof (IH kv.2 m Hm st Hst) as Hcopy.
          destruct (deepcopy limit kv.2 m st) as [[r|e] st']; [| done].
          destruct Hcopy as (? & ? & ?). by unfold I. }
        intros [v' m']. cbv beta iota.
        eapply (hoare_bind _ (λ _, I l' m')).
        { intros st [(Hst & Hl' & Hm) Hv].
          pose proof (framed_setitem (PRef l') kv.1 v' Hl' Hv st Hst) as Hset.
          destruct (setitem (PRef l') kv.1 v' st) as [[r|e] st']; [| done].
          by unfold I. }
        intros _. by apply hoare_ret.
      * intros st [Hst Hl']. split; [done |]. split; [done | by apply Hins].
    + intros m st (Hst & Hl' & Hm). by simpl.
  - eapply hoare_bind; [apply framed_alloc; constructor |]. intros l'.
    eapply (hoare_bind _ (I l')).
    + eapply hoare_pre.
      * apply (hoare_foldM (λ _, I l') (framed st0)) with (pre := []).
        intros _ v m.
        eapply (hoare_bind _ (λ r st, I l' r.2 st ∧ val_above (length st0) r.1)).
        { intros st (Hst & Hl' & Hm). pose proof (IH v m Hm st Hst) as Hcopy.
          destruct (deepcopy limit v m st) as [[r|e] st']; [| done].
          destruct Hcopy as (? & ? & ?). by unfold I. }
        intros [v' m']. cbv beta iota.
        eapply (hoare_bind _ (λ _, I l' m')).
        { intros st [(Hst & Hl' & Hm) Hv].
          pose proof (framed_append (PRef l') v' Hl' Hv st Hst) as Hset.
          destruct (append (PRef l') v' st) as [[r|e] st']; [| done].
          by unfold I. }
        intros _. by apply hoare_ret.
      * intros st [Hst Hl']. split; [done |]. split; [done | by apply Hins].
    + intros m st (Hst & Hl' & Hm). by simpl.
Qed.

End frame.

Section frame_scale_adam.
Context `{Backend} (st0 : store).

Lemma framed_interpolate x size mode :
  hoare (framed st0) (interpolate x size mode)
    (λ v st, framed st0 st ∧ val_above (length st0) v) (framed st0).
Proof.
  unfold interpolate. destruct x as [a | l]; [apply framed_raise |].
  eapply hoare_bind; [apply framed_load |]. intros o.
  eapply hoare_pre; [| intros st Hst; exact (proj1 Hst)].
  destruct o as [t | d | xs]; try apply framed_raise.
  eapply hoare_bind; [by apply hoare_lift |]. intros t'.
  eapply hoare_bind; [by apply framed_alloc |]. intros l'.
  intros st [Hst Hl']. done.
Qed.

Lemma framed_relu_ x :
  val_above (length st0) x →
  hoare (framed st0) (relu_ x) (λ _, framed st0) (framed st0).
Proof.
  intros Hx. unfold relu_. destruct x as [a | l]; [apply framed_raise |].
  eapply hoare_bind; [apply framed_load |]. intros o.
  eapply hoare_pre; [| intros st Hst; exact (proj1 Hst)].
  destruct o as [t | d | xs]; try apply framed_raise.
  by apply framed_store_at.
Qed.

Lemma framed_scale_adam_group size group :
  val_above (length st0) group →
  hoare (framed st0) (scale_adam_group size group) (λ _, framed st0) (framed st0).
Proof.
  intros Hg. unfold scale_adam_group.
  eapply hoare_bind; [by apply framed_getitem |]. intros exp_avg.
  eapply hoare_pre; [| intros st Hst; exact (proj1 Hst)].
  eapply hoare_bind; [by apply framed_getitem |]. intros exp_avg_sq.
  eapply hoare_pre; [| intros st Hst; exact (proj1 Hst)].
  eapply hoare_bind; [apply framed_interpolate |]. intros m.
  eapply (hoare_bind _ (λ _, framed st0)).
  { intros st [Hst Hm]. by apply framed_setitem. }
  intros _.
  eapply hoare_bind; [apply framed_interpolate |]. intros v.
  eapply (hoare_bind _ (λ _, framed st0)).
  { intros st [Hst Hv]. by apply framed_setitem. }
  intros _.
  eapply hoare_bind; [by apply framed_getitem |]. intros v'.
  intros st [Hst Hv']. by apply framed_relu_.
Qed.

Lemma framed_scale_adam state size :
  hoare (framed st0) (scale_adam state size) (λ _, framed st0) (framed st0).
Proof.
  unfold scale_adam.
  eapply hoare_bind; [by apply framed_deepcopy |]. intros [state' memo'].
  eapply (hoare_bind _
            (λ gs st, framed st0 st ∧ Forall (val_above (length st0)) gs)).
  { intros st (Hst & Hstate & _). simpl in Hstate.
    pose proof (framed_getitem st0 state' (KStr "state") Hstate st Hst) as Hget.
    unfold bind. destruct (getitem state' (KStr "state") st) as [[s|e] st1];
      [| done].
    destruct Hget as [Hst1 Hs]. by apply framed_values. }
  intros groups.
  eapply (hoare_bind _ (λ _, framed st0)).
  { intros st [Hst Hgs]. revert st Hst. unfold forM_.
    induction Hgs as [|g gs Hg _ IH]; intros st Hst; simpl; [done |].
    pose proof (framed_scale_adam_group size g Hg st Hst) as Hone.
    unfold bind. destruct (scale_adam_group size g st) as [[[]|e] st1]; [| done].
    by apply IH. }
  intros _. by apply framed_ret.
Qed.

End frame_scale_adam.

(** Whatever it is given and whether it returns or raises, [scale_adam]
    leaves every object of the store it started from as it was. *)
Lemma scale_adam_keeps_store `{Backend} state size st :
  store_kept st (scale_adam state size st).2.
Proof.
  pose proof (framed_scale_adam st state size st (framed_refl st)) as Hrun.
  destruct (scale_adam state size st) as [[y|e] st']; simpl; by apply Hrun.
Qed.

(** ** The store: running the primitives *)

Lemma bind_ok {Σ A B} (m : SE Σ A) (f : A → SE Σ B) s a s' :
  m s = (Ok a, s') → bind m f s = f a s'.
Proof. intros Hm. unfold bind. by rewrite Hm. Qed.

Lemma bind_raise {Σ A B} (m : SE Σ A) (f : A → SE Σ B) s e s' :
  m s = (Raise e, s') → bind m f s = (Raise e, s').
Proof. intros Hm. unfold bind. by rewrite Hm. Qed.

Lemma bind_bind_ok {Σ A B C} (m : SE Σ A) (f : A → SE Σ B) (g : B → SE Σ C)
    s a s' :
  m s = (Ok a, s') → bind (bind m f) g s = bind (f a) g s'.
Proof. intros Hm. unfold bind. by rewrite Hm. Qed.

Lemma load_ok st l o : st !! l = Some o → load l st = (Ok o, st).
Proof. intros Hl. unfold load. by rewrite Hl. Qed.

Lemma getitem_ok st l d k v :
  st !! l = Some (ODict d) → dict_get k d = Some v →
  getitem (PRef l) k st = (Ok v, st).
Proof.
  intros Hl Hk. unfold getitem. rewrite (bind_ok _ _ _ _ _ (load_ok _ _ _ Hl)).
  by rewrite Hk.
Qed.

Lemma getitem_missing st l d k :
  st !! l = Some (ODict d) → dict_get k d = None →
  getitem (PRef l) k st = (Raise KeyError, st).
Proof.
  intros Hl Hk. unfold getitem. rewrite (bind_ok _ _ _ _ _ (load_ok _ _ _ Hl)).
  by rewrite Hk.
Qed.

Lemma setitem_ok st l d k v :
  st !! l = Some (ODict d) →
  setitem (PRef l) k v st = (Ok (), <[l := ODict (dict_set k v d)]> st).
Proof.
  intros Hl. unfold setitem. by rewrite (bind_ok _ _ _ _ _ (load_ok _ _ _ Hl)).
Qed.

Lemma append_ok st l xs v :
  st !! l = Some (OList xs) →
  append (PRef l) v st = (Ok (), <[l := OList (xs ++ [v])]> st).
Proof.
  intros Hl. unfold append. by rewrite (bind_ok _ _ _ _ _ (load_ok _ _ _ Hl)).
Qed.

Lemma values_ok st l d :
  st !! l = Some (ODict d) → values (PRef l) st = (Ok (map snd d), st).
Proof.
  intros Hl. unfold values. by rewrite (bind_ok _ _ _ _ _ (load_ok _ _ _ Hl)).
Qed.

Lemma dict_set_fresh k v d :
  k ∉ map fst d → dict_set k v d = d ++ [(k, v)].
Proof.
  induction d as [|[k' v'] d IH]; simpl; [done |].
  intros Hk. apply not_elem_of_cons in Hk as [Hne Hk].
  destruct (decide (k = k')); [done |]. by rewrite IH.
Qed.

Lemma dict_get_set_eq k v d : dict_get k (dict_set k v d) = Some v.
Proof.
  induction d as [|[k' v'] d IH]; simpl.
  - by rewrite decide_True.
  - destruct (decide (k = k')) as [<- | Hne]; simpl.
    + by rewrite decide_True.
    + by rewrite decide_False.
Qed.

Lemma map_fst_dict_set k v d :
  is_Some (dict_get k d) → map fst (dict_set k v d) = map fst d.
Proof.
  induction d as [|[k' v'] d IH]; simpl; [by intros [? [=]] |].
  destruct (decide (k = k')); simpl; [done |]. intros Hk. by rewrite IH.
Qed.

(** ** What a value stands for, and the store around it *)

Lemma repr_fp_lt st :
  (∀ x t fp, repr st x t fp → Forall (λ l, (l < length st)%nat) fp)
  ∧ (∀ d td fp, repr_entries st d td fp → Forall (λ l, (l < length st)%nat) fp)
  ∧ (∀ xs ts fp, repr_items st xs ts fp → Forall (λ l, (l < length st)%nat) fp).
Proof.
  apply repr_mutind.
  - intros. constructor.
  - intros l t Hl. repeat constructor. by eapply lookup_lt_Some.
  - intros l d td fp Hl _ _ IH. constructor; [by eapply lookup_lt_Some | done].
  - intros l xs ts fp Hl _ IH. constructor; [by eapply lookup_lt_Some | done].
  - constructor.
  - intros. by apply Forall_app.
  - constructor.
  - intros. by apply Forall_app.
Qed.

Lemma repr_agree st st' :
  (∀ x t fp, repr st x t fp →
     (∀ l, l ∈ fp → st' !! l = st !! l) → repr st' x t fp)
  ∧ (∀ d td fp, repr_entries st d td fp →
       (∀ l, l ∈ fp → st' !! l = st !! l) → repr_entries st' d td fp)
  ∧ (∀ xs ts fp, repr_items st xs ts fp →
       (∀ l, l ∈ fp → st' !! l = st !! l) → repr_items st' xs ts fp).
Proof.
  apply repr_mutind.
  - intros. constructor.
  - intros l t Hl Hfp. constructor. rewrite Hfp; [done | set_solver].
  - intros l d td fp Hl Hnd _ IH Hfp. econstructor; [| done |].
    + rewrite Hfp; [done | set_solver].
    + apply IH. intros l' Hl'. apply Hfp. set_solver.
  - intros l xs ts fp Hl _ IH Hfp. econstructor.
    + rewrite Hfp; [done | set_solver].
    + apply IH. intros l' Hl'. apply Hfp. set_solver.
  - constructor.
  - intros k v t fp d td fps _ IHv _ IHd Hfp. constructor.
    + apply IHv. intros l Hl. apply Hfp. set_solver.
    + apply IHd. intros l Hl. apply Hfp. set_solver.
  - constructor.
  - intros v t fp xs ts fps _ IHv _ IHd Hfp. constructor.
    + apply IHv. intros l Hl. apply Hfp. set_solver.
    + apply IHd. intros l Hl. apply Hfp. set_solver.
Qed.

Lemma repr_entries_snoc st d td fp k v t fpv :
  repr_entries st d td fp → repr st v t fpv →
  repr_entries st (d ++ [(k, v)]) (td ++ [(k, t)]) (fp ++ fpv).
Proof.
  intros Hd Hv. induction Hd as [|k' v' t' fp' d td fps Hv' Hd IH]; simpl.
  - rewrite <- (app_nil_r fpv). by repeat constructor.
  - rewrite <- app_assoc. by constructor.
Qed.

Lemma repr_items_snoc st xs ts fp v t fpv :
  repr_items st xs ts fp → repr st v t fpv →
  repr_items st (xs ++ [v]) (ts ++ [t]) (fp ++ fpv).
Proof.
  intros Hd Hv. induction Hd as [|v' t' fp' xs ts fps Hv' Hd IH]; simpl.
  - rewrite <- (app_nil_r fpv). by repeat constructor.
  - rewrite <- app_assoc. by constructor.
Qed.

Lemma repr_entries_keys st d td fp :
  repr_entries st d td fp → map fst td = map fst d.
Proof. induction 1; simpl; by f_equal. Qed.

Lemma depth_pos t : (1 ≤ depth t)%nat.
Proof. destruct t; simpl; lia. Qed.

Lemma depth_TDict_cons k t d :
  depth (TDict ((k, t) :: d)) = S (Nat.max (depth t) (pred (depth (TDict d)))).
Proof. done. Qed.

Lemma depth_TList_cons t l :
  depth (TList (t :: l)) = S (Nat.max (depth t) (pred (depth (TList l)))).
Proof. done. Qed.

Lemma depth_TDict n d :
  (depth (TDict d) ≤ S n)%nat → Forall (λ kt, (depth kt.2 ≤ n)%nat) d.
Proof.
  induction d as [|[k t] d IH]; [constructor |].
  rewrite depth_TDict_cons. intros Hd. constructor; simpl; [lia |].
  apply IH. pose proof (depth_pos (TDict d)). lia.
Qed.

Lemma depth_TList n l :
  (depth (TList l) ≤ S n)%nat → Forall (λ t, (depth t ≤ n)%nat) l.
Proof.
  induction l as [|t l IH]; [constructor |].
  rewrite depth_TList_cons. intros Hd. constructor; simpl; [lia |].
  apply IH. pose proof (depth_pos (TList l)). lia.
Qed.

(** ** Copying a state *)

Section deepcopy_members.
Context (limit : nat).
Context (IH : ∀ x t fp st memo,
  repr st x t fp → (depth t ≤ limit)%nat → NoDup fp →
  (∀ l, l ∈ fp → memo !! l = None) →
  copied st memo t fp (deepcopy limit x memo st)).

Lemma deepcopy_entries l' d :
  ∀ st td fps memo acc tacc fpacc,
    repr_entries st d td fps →
    Forall (λ kt, (depth kt.2 ≤ limit)%nat) td →
    NoDup fps → (∀ l, l ∈ fps → memo !! l = None) →
    Forall (λ l, (l < l')%nat) fps →
    st !! l' = Some (ODict acc) →
    repr_entries st acc tacc fpacc → NoDup fpacc →
    Forall (λ l, (l' < l)%nat) fpacc →
    NoDup (map fst d) → (∀ k, k ∈ map fst d → k ∉ map fst acc) →
    ∃ memo' st' d' fp',
      foldM (λ memo kv,
               let* ' (v', memo') := deepcopy limit (snd kv) memo in
               let* _ := setitem (PRef l') (fst kv) v' in
               ret memo') memo d st = (Ok memo', st')
      ∧ st' !! l' = Some (ODict (acc ++ d')) ∧ map fst d' = map fst d
      ∧ repr_entries st' (acc ++ d') (tacc ++ td) (fpacc ++ fp')
      ∧ NoDup (fpacc ++ fp') ∧ Forall (λ l, (l' < l)%nat) fp'
      ∧ (length st ≤ length st')%nat
      ∧ (∀ l, (l < length st)%nat → l ≠ l' → st' !! l = st !! l)
      ∧ (∀ l, l ∉ fps → memo' !! l = memo !! l).
Proof.
  induction d as [|[k v] d IHd];
    intros st td fps memo acc tacc fpacc Hrep Hdepth Hnd Hmemo Hlt Hl'
      Hacc Hndacc Hgt Hkeys Hfresh;
    inversion Hrep as [|k0 v0 t fpv d0 td0 fps0 Hv Hd0]; subst.
  - exists memo, st, [], []. rewrite !app_nil_r. by repeat split.
  - apply Forall_cons in Hdepth as [Ht Hdepth]. simpl in Ht.
    apply NoDup_app in Hnd as (Hndv & Hdisj & Hnd0).
    apply Forall_app in Hlt as [Hltv Hlt0].
    apply NoDup_cons in Hkeys as [Hk Hkeys].
    pose proof (lookup_lt_Some _ _ _ Hl') as Hl'lt.
    destruct (IH v t fpv st memo Hv Ht Hndv) as
      (y & memo1 & st1 & fp1 & Hrun & Hy & Hnd1 & Hge1 & [Hlen1 Hkept1] & Hmemo1).
    { intros l Hl. apply Hmemo. set_solver. }
    assert (Hl'1 : st1 !! l' = Some (ODict acc)) by (by rewrite Hkept1).
    set (st2 := <[l' := ODict (acc ++ [(k, y)])]> st1).
    assert (Hagree : ∀ l, (l < length st)%nat → l ≠ l' → st2 !! l = st !! l).
    { intros l Hl Hne. unfold st2.
      rewrite list_lookup_insert_ne by done. by apply Hkept1. }
    pose proof (proj1 (proj2 (repr_fp_lt st)) _ _ _ Hacc) as Hacclt.
    pose proof (proj1 (repr_fp_lt st1) _ _ _ Hy) as Hfp1lt.
    destruct (IHd st2 td0 fps0 memo1 (acc ++ [(k, y)]) (tacc ++ [(k, t)])
                (fpacc ++ fp1)) as
      (memo' & st' & d' & fp' & Hrun' & Hl'' & Hkeys' & Hrep' & Hnd' & Hgt'
         & Hlen' & Hkept' & Hmemo'); try done.
    + apply (proj1 (proj2 (repr_agree st st2))); [done |].
      intros l Hl. rewrite Forall_forall in Hlt0. specialize (Hlt0 l Hl).
      apply Hagree; lia.
    + intros l Hl. rewrite Hmemo1; [apply Hmemo; set_solver |].
      intros Hin. by apply (Hdisj l).
    + unfold st2. apply list_lookup_insert_eq. lia.
    + apply repr_entries_snoc.
      * apply (proj1 (proj2 (repr_agree st st2))); [done |].
        intros l Hl. rewrite Forall_forall in Hacclt, Hgt.
        specialize (Hacclt l Hl). specialize (Hgt l Hl). apply Hagree; lia.
      * apply (proj1 (repr_agree st1 st2)); [done |].
        intros l Hl. rewrite Forall_forall in Hge1. specialize (Hge1 l Hl).
        unfold st2. apply list_lookup_insert_ne. lia.
    + apply NoDup_app. split; [done |]. split; [| done].
      intros l Hl Hl1. rewrite Forall_forall in Hacclt, Hge1.
      specialize (Hacclt l Hl). specialize (Hge1 l Hl1). lia.
    + apply Forall_app. split; [done |].
      eapply Forall_impl; [exact Hge1 |]. simpl. intros l Hl. lia.
    + intros k' Hk'. rewrite map_app. simpl. rewrite elem_of_app.
      intros [Hin | Hin].
      * apply (Hfresh k'); [simpl; apply elem_of_cons; by right | done].
      * apply list_elem_of_singleton in Hin as ->. done.
    + exists memo', st', ((k, y) :: d'), (fp1 ++ fp').
      rewrite <- !app_assoc in Hrep'. rewrite <- !app_assoc in Hl''.
      rewrite <- !app_assoc in Hnd'. simpl in *.
      assert (Hbody : bind (deepcopy limit v memo)
                (λ x, let (v', memo'0) := x in
                      bind (setitem (PRef l') k v') (λ _, ret memo'0)) st
              = (Ok memo1, st2)).
      { rewrite (bind_ok _ _ _ _ _ Hrun).
        rewrite (bind_ok _ _ _ _ _ (setitem_ok st1 l' acc k y Hl'1)).
        unfold st2. rewrite dict_set_fresh; [done |]. apply Hfresh. set_solver. }
      split; [by rewrite (bind_ok _ _ _ _ _ Hbody) |].
      split; [done |]. split; [by rewrite Hkeys' |]. split; [done |].
      split; [done |]. split.
      { apply Forall_app. split; [| done].
        eapply Forall_impl; [exact Hge1 |]. simpl. intros l Hl. lia. }
      assert (Hlen2 : length st2 = length st1)
        by (unfold st2; by rewrite length_insert).
      split; [lia |]. split.
      { intros l Hl Hne. rewrite Hkept' by lia. by apply Hagree. }
      intros l Hl. rewrite Hmemo' by set_solver. apply Hmemo1. set_solver.
Qed.

Lemma deepcopy_items l' xs :
  ∀ st ts fps memo acc tacc fpacc,
    repr_items st xs ts fps →
    Forall (λ t, (depth t ≤ limit)%nat) ts →
    NoDup fps → (∀ l, l ∈ fps → memo !! l = None) →
    Forall (λ l, (l < l')%nat) fps →
    st !! l' = Some (OList acc) →
    repr_items st acc tacc fpacc → NoDup fpacc →
    Forall (λ l, (l' < l)%nat) fpacc →
    ∃ memo' st' xs' fp',
      foldM (λ memo v,
               let* ' (v', memo') := deepcopy limit v memo in
               let* _ := append (PRef l') v' in
               ret memo') memo xs st = (Ok memo', st')
      ∧ st' !! l' = Some (OList (acc ++ xs'))
      ∧ repr_items st' (acc ++ xs') (tacc ++ ts) (fpacc ++ fp')
      ∧ NoDup (fpacc ++ fp') ∧ Forall (λ l, (l' < l)%nat) fp'
      ∧ (length st ≤ length st')%nat
      ∧ (∀ l, (l < length st)%nat → l ≠ l' → st' !! l = st !! l)
      ∧ (∀ l, l ∉ fps → memo' !! l = memo !! l).
Proof.
  induction xs as [|v xs IHxs];
    intros st ts fps memo acc tacc fpacc Hrep Hdepth Hnd Hmemo Hlt Hl'
      Hacc Hndacc Hgt;
    inversion Hrep as [|v0 t fpv xs0 ts0 fps0 Hv Hxs0]; subst.
  - exists memo, st, [], []. rewrite !app_nil_r. by repeat split.
  - apply Forall_cons in Hdepth as [Ht Hdepth].
    apply NoDup_app in Hnd as (Hndv & Hdisj & Hnd0).
    apply Forall_app in Hlt as [Hltv Hlt0].
    pose proof (lookup_lt_Some _ _ _ Hl') as Hl'lt.
    destruct (IH v t fpv st memo Hv Ht Hndv) as
      (y & memo1 & st1 & fp1 & Hrun & Hy & Hnd1 & Hge1 & [Hlen1 Hkept1] & Hmemo1).
    { intros l Hl. apply Hmemo. set_solver. }
    assert (Hl'1 : st1 !! l' = Some (OList acc)) by (by rewrite Hkept1).
    set (st2 := <[l' := OList (acc ++ [y])]> st1).
    assert (Hagree : ∀ l, (l < length st)%nat → l ≠ l' → st2 !! l = st !! l).
    { intros l Hl Hne. unfold st2.
      rewrite list_lookup_insert_ne by done. by apply Hkept1. }
    pose proof (proj2 (proj2 (repr_fp_lt st)) _ _ _ Hacc) as Hacclt.
    pose proof (proj1 (repr_fp_lt st1) _ _ _ Hy) as Hfp1lt.
    destruct (IHxs st2 ts0 fps0 memo1 (acc ++ [y]) (tacc ++ [t])
                (fpacc ++ fp1)) as
      (memo' & st' & xs' & fp' & Hrun' & Hl'' & Hrep' & Hnd' & Hgt'
         & Hlen' & Hkept' & Hmemo'); try done.
    + apply (proj2 (proj2 (repr_agree st st2))); [done |].
      intros l Hl. rewrite Forall_forall in Hlt0. specialize (Hlt0 l Hl).
      apply Hagree; lia.
    + intros l Hl. rewrite Hmemo1; [apply Hmemo; set_solver |].
      intros Hin. by apply (Hdisj l).
    + unfold st2. apply list_lookup_insert_eq. lia.
    + apply repr_items_snoc.
      * apply (proj2 (proj2 (repr_agree st st2))); [done |].
        intros l Hl. rewrite Forall_forall in Hacclt, Hgt.
        specialize (Hacclt l Hl). specialize (Hgt l Hl). apply Hagree; lia.
      * apply (proj1 (repr_agree st1 st2)); [done |].
        intros l Hl. rewrite Forall_forall in Hge1. specialize (Hge1 l Hl).
        unfold st2. apply list_lookup_insert_ne. lia.
    + apply NoDup_app. split; [done |]. split; [| done].
      intros l Hl Hl1. rewrite Forall_forall in Hacclt, Hge1.
      specialize (Hacclt l Hl). specialize (Hge1 l Hl1). lia.
    + apply Forall_app. split; [done |].
      eapply Forall_impl; [exact Hge1 |]. simpl. intros l Hl. lia.
    + exists memo', st', (y :: xs'), (fp1 ++ fp').
      rewrite <- !app_assoc in Hrep'. rewrite <- !app_assoc in Hl''.
      rewrite <- !app_assoc in Hnd'. simpl in *.
      assert (Hbody : bind (deepcopy limit v memo)
                (λ x, let (v', memo'0) := x in
                      bind (append (PRef l') v') (λ _, ret memo'0)) st
              = (Ok memo1, st2)).
      { rewrite (bind_ok _ _ _ _ _ Hrun).
        by rewrite (bind_ok _ _ _ _ _ (append_ok st1 l' acc y Hl'1)). }
      split; [by rewrite (bind_ok _ _ _ _ _ Hbody) |].
      split; [done |]. split; [done |].
      split; [done |]. split.
      { apply Forall_app. split; [| done].
        eapply Forall_impl; [exact Hge1 |]. simpl. intros l Hl. lia. }
      assert (Hlen2 : length st2 = length st1)
        by (unfold st2; by rewrite length_insert).
      split; [lia |]. split.
      { intros l Hl Hne. rewrite Hkept' by lia. by apply Hagree. }
      intros l Hl. rewrite Hmemo' by set_solver. apply Hmemo1. set_solver.
Qed.

End deepcopy_members.

Lemma alloc_run o st : alloc o st = (Ok (length st), st ++ [o]).
Proof. done. Qed.

(** [deepcopy] of a state without sharing, nested no deeper than the
    recursion limit, returns a state that stands for the same value and is
    made of new objects only. *)
Lemma deepcopy_repr limit :
  ∀ x t fp st memo,
    repr st x t fp → (depth t ≤ limit)%nat → NoDup fp →
    (∀ l, l ∈ fp → memo !! l = None) →
    copied st memo t fp (deepcopy limit x memo st).
Proof.
  induction limit as [|limit IH]; intros x t fp st memo Hrep Hdepth Hnd Hmemo.
  { pose proof (depth_pos t). lia. }
  cbn [deepcopy].
  destruct Hrep as [a | l t Hl | l d td fps Hl Hkeys Hd | l xs ts fps Hl Hxs].
  - exists (PAtom a), memo, st, [].
    split; [done |]. split; [constructor |]. split; [constructor |].
    split; [constructor |]. split; [by split | done].
  - rewrite Hmemo by set_solver.
    rewrite (bind_ok _ _ _ _ _ (load_ok _ _ _ Hl)).
    rewrite (bind_ok _ _ _ _ _ (alloc_run _ _)).
    exists (PRef (length st)), (<[l := length st]> memo),
      (st ++ [OTensor t]), [length st].
    split; [done |]. split.
    { constructor. rewrite lookup_app_r by lia. by rewrite Nat.sub_diag. }
    split; [apply NoDup_singleton |]. split; [by repeat constructor |].
    split.
    { split; [rewrite length_app; lia |].
      intros l0 Hl0. by rewrite lookup_app_l. }
    intros l0 Hl0. apply lookup_insert_ne. set_solver.
  - rewrite Hmemo by set_solver.
    rewrite (bind_ok _ _ _ _ _ (load_ok _ _ _ Hl)).
    rewrite (bind_ok _ _ _ _ _ (alloc_run _ _)).
    apply NoDup_cons in Hnd as [Hlfps Hnd].
    pose proof (proj1 (proj2 (repr_fp_lt st)) _ _ _ Hd) as Hfpslt.
    destruct (deepcopy_entries limit IH (length st) d (st ++ [ODict []]) td fps
                (<[l := length st]> memo) [] [] []) as
      (memo' & st' & d' & fp' & Hrun & Hl' & Hkeys' & Hrep' & Hnd' & Hgt'
         & Hlen' & Hkept' & Hmemo'); try done.
    + apply (proj1 (proj2 (repr_agree st (st ++ [ODict []])))); [done |].
      intros l0 Hl0. rewrite Forall_forall in Hfpslt.
      apply lookup_app_l. by apply Hfpslt.
    + by apply depth_TDict.
    + intros l0 Hl0. rewrite lookup_insert_ne by set_solver.
      apply Hmemo. set_solver.
    + rewrite lookup_app_r by lia. by rewrite Nat.sub_diag.
    + constructor.
    + constructor.
    + intros k _. simpl. apply not_elem_of_nil.
    + rewrite (bind_ok _ _ _ _ _ Hrun). simpl in *.
      rewrite length_app in Hlen'. simpl in Hlen'.
      exists (PRef (length st)), memo', st', (length st :: fp').
      split; [done |]. split.
      { econstructor; [done | by rewrite Hkeys' | done]. }
      split.
      { apply NoDup_cons. split; [| done]. intros Hin.
        rewrite Forall_forall in Hgt'. specialize (Hgt' _ Hin). lia. }
      split.
      { constructor; [done |]. eapply Forall_impl; [exact Hgt' |].
        simpl. intros l0 Hl0. lia. }
      split.
      { split; [lia |]. intros l0 Hl0.
        rewrite Hkept' by (rewrite ?length_app; simpl; lia).
        by apply lookup_app_l. }
      intros l0 Hl0. rewrite Hmemo' by set_solver.
      apply lookup_insert_ne. set_solver.
  - rewrite Hmemo by set_solver.
    rewrite (bind_ok _ _ _ _ _ (load_ok _ _ _ Hl)).
    rewrite (bind_ok _ _ _ _ _ (alloc_run _ _)).
    apply NoDup_cons in Hnd as [Hlfps Hnd].
    pose proof (proj2 (proj2 (repr_fp_lt st)) _ _ _ Hxs) as Hfpslt.
    destruct (deepcopy_items limit IH (length st) xs (st ++ [OList []]) ts fps
                (<[l := length st]> memo) [] [] []) as
      (memo' & st' & xs' & fp' & Hrun & Hl' & Hrep' & Hnd' & Hgt'
         & Hlen' & Hkept' & Hmemo'); try done.
    + apply (proj2 (proj2 (repr_agree st (st ++ [OList []])))); [done |].
      intros l0 Hl0. rewrite Forall_forall in Hfpslt.
      apply lookup_app_l. by apply Hfpslt.
    + by apply depth_TList.
    + intros l0 Hl0. rewrite lookup_insert_ne by set_solver.
      apply Hmemo. set_solver.
    + rewrite lookup_app_r by lia. by rewrite Nat.sub_diag.
    + constructor.
    + constructor.
    + rewrite (bind_ok _ _ _ _ _ Hrun). simpl in *.
      rewrite length_app in Hlen'. simpl in Hlen'.
      exists (PRef (length st)), memo', st', (length st :: fp').
      split; [done |]. split.
      { econstructor; [done | done]. }
      split.
      { apply NoDup_cons. split; [| done]. intros Hin.
        rewrite Forall_forall in Hgt'. specialize (Hgt' _ Hin). lia. }
      split.
      { constructor; [done |]. eapply Forall_impl; [exact Hgt' |].
        simpl. intros l0 Hl0. lia. }
      split.
      { split; [lia |]. intros l0 Hl0.
        rewrite Hkept' by (rewrite ?length_app; simpl; lia).
        by apply lookup_app_l. }
      intros l0 Hl0. rewrite Hmemo' by set_solver.
      apply lookup_insert_ne. set_solver.
Qed.

(** ** Reading and updating the entries of a dict *)

Lemma repr_entries_get st d td fp k :
  repr_entries st d td fp →
  match tdict_get k td with
  | Some t => ∃ v fpv, dict_get k d = Some v ∧ repr st v t fpv
                       ∧ ∀ l, l ∈ fpv → l ∈ fp
  | None => dict_get k d = None
  end.
Proof.
  induction 1 as [|k' v t fpv d td fps Hv Hd IH]; simpl; [done |].
  destruct (decide (k = k')) as [<- | Hne].
  - exists v, fpv. split; [done |]. split; [done |]. set_solver.
  - destruct (tdict_get k td) as [t'|]; [| done].
    destruct IH as (v' & fpv' & Hget & Hv' & Hsub).
    exists v', fpv'. split; [done |]. split; [done |]. set_solver.
Qed.

Lemma repr_entries_set st d td fp k v t fpv :
  repr_entries st d td fp → repr st v t fpv →
  ∃ fp', repr_entries st (dict_set k v d) (tdict_set k t td) fp'
         ∧ ∀ l, l ∈ fp' → l ∈ fp ∨ l ∈ fpv.
Proof.
  intros Hd Hv. induction Hd as [|k' v' t' fpv' d td fps Hv' Hd IH]; simpl.
  - exists (fpv ++ []). split; [by repeat constructor |]. set_solver.
  - destruct (decide (k = k')) as [<- | Hne].
    + exists (fpv ++ fps). split; [by constructor |]. set_solver.
    + destruct IH as (fp' & Hrep & Hsub).
      exists (fpv' ++ fp'). split; [by constructor |].
      intros l [Hl | Hl]%elem_of_app; [set_solver |].
      destruct (Hsub l Hl); set_solver.
Qed.

(** The value under a key may change below its reference: the entries then
    stand for the tree with that value replaced, as long as the rest of the
    footprint is left alone. *)
Lemma repr_entries_replace st d td fp k t :
  repr_entries st d td fp → NoDup fp → tdict_get k td = Some t →
  ∃ v fpv,
    dict_get k d = Some v ∧ repr st v t fpv ∧ NoDup fpv
    ∧ (∀ l, l ∈ fpv → l ∈ fp)
    ∧ ∀ st' t' fpv',
        repr st' v t' fpv' →
        (∀ l, l ∈ fp → l ∉ fpv → st' !! l = st !! l) →
        ∃ fp', repr_entries st' d (tdict_set k t' td) fp'
               ∧ ∀ l, l ∈ fp' → l ∈ fp ∨ l ∈ fpv'.
Proof.
  induction 1 as [|k' v0 t0 fp0 d td fps Hv Hd IH]; simpl; [done |].
  intros [Hnd0 [Hdisj Hnds]]%NoDup_app.
  destruct (decide (k = k')) as [<- | Hne].
  - intros [= <-]. exists v0, fp0. split; [done |]. split; [done |].
    split; [done |]. split; [set_solver |].
    intros st' t' fpv' Hv' Hagree. exists (fpv' ++ fps). split.
    + constructor; [done |].
      apply (proj1 (proj2 (repr_agree st st'))); [done |].
      intros l Hl. apply Hagree; [set_solver |].
      intros Hin. by apply (Hdisj l).
    + set_solver.
  - intros Hget.
    destruct (IH Hnds Hget) as (v & fpv & Hk & Hrv & Hndv & Hsub & Hrepl).
    exists v, fpv. split; [done |]. split; [done |]. split; [done |].
    split; [set_solver |].
    intros st' t' fpv' Hv' Hagree.
    destruct (Hrepl st' t' fpv' Hv') as (fp' & Hfp' & Hsub').
    { intros l Hl Hnin. apply Hagree; [set_solver | done]. }
    exists (fp0 ++ fp'). split.
    + constructor; [| done].
      apply (proj1 (repr_agree st st')); [done |].
      intros l Hl. apply Hagree; [set_solver |].
      intros Hin. apply (Hdisj l Hl). by apply Hsub.
    + intros l [Hl | Hl]%elem_of_app; [set_solver |].
      destruct (Hsub' l Hl); set_solver.
Qed.

(** ** Running the resampler on a state that stands for a tree *)

Lemma getitem_not_dict st v t fp k :
  repr st v t fp → (∀ d, t ≠ TDict d) →
  ∃ e, getitem v k st = (Raise e, st).
Proof.
  intros Hv Ht. destruct Hv as [a | l t Hl | l d td fps Hl Hkeys Hd | l xs ts fps Hl Hxs].
  - by eexists.
  - unfold getitem. rewrite (bind_ok _ _ _ _ _ (load_ok _ _ _ Hl)). by eexists.
  - by destruct (Ht td).
  - unfold getitem. rewrite (bind_ok _ _ _ _ _ (load_ok _ _ _ Hl)). by eexists.
Qed.

Lemma values_not_dict st v t fp :
  repr st v t fp → (∀ d, t ≠ TDict d) →
  ∃ e, values v st = (Raise e, st).
Proof.
  intros Hv Ht. destruct Hv as [a | l t Hl | l d td fps Hl Hkeys Hd | l xs ts fps Hl Hxs].
  - by eexists.
  - unfold values. rewrite (bind_ok _ _ _ _ _ (load_ok _ _ _ Hl)). by eexists.
  - by destruct (Ht td).
  - unfold values. rewrite (bind_ok _ _ _ _ _ (load_ok _ _ _ Hl)). by eexists.
Qed.

Section resample_proofs.
Context `{Backend}.

Lemma interpolate_ok st l t size mode t' :
  st !! l = Some (OTensor t) → F_interpolate t size mode = Ok t' →
  interpolate (PRef l) size mode st
  = (Ok (PRef (length st)), st ++ [OTensor t']).
Proof.
  intros Hl Ht. unfold interpolate.
  rewrite (bind_ok _ _ _ _ _ (load_ok _ _ _ Hl)).
  unfold lift, bind. by rewrite Ht.
Qed.

Lemma interpolate_fails st l t size mode e :
  st !! l = Some (OTensor t) → F_interpolate t size mode = Raise e →
  interpolate (PRef l) size mode st = (Raise e, st).
Proof.
  intros Hl Ht. unfold interpolate.
  rewrite (bind_ok _ _ _ _ _ (load_ok _ _ _ Hl)).
  unfold lift, bind. by rewrite Ht.
Qed.

Lemma interpolate_not_tensor st v t fp size mode :
  repr st v t fp → (∀ m, t ≠ TTensor m) →
  ∃ e, interpolate v size mode st = (Raise e, st).
Proof.
  intros Hv Ht. destruct Hv as [a | l t Hl | l d td fps Hl Hkeys Hd | l xs ts fps Hl Hxs].
  - by eexists.
  - by destruct (Ht t).
  - unfold interpolate. rewrite (bind_ok _ _ _ _ _ (load_ok _ _ _ Hl)). by eexists.
  - unfold interpolate. rewrite (bind_ok _ _ _ _ _ (load_ok _ _ _ Hl)). by eexists.
Qed.

Lemma relu__ok st l t :
  st !! l = Some (OTensor t) →
  relu_ (PRef l) st = (Ok (), <[l := OTensor (relu t)]> st).
Proof.
  intros Hl. unfold relu_. by rewrite (bind_ok _ _ _ _ _ (load_ok _ _ _ Hl)).
Qed.

Lemma dict_get_set_ne k k' v d :
  k ≠ k' → dict_get k (dict_set k' v d) = dict_get k d.
Proof.
  intros Hne. induction d as [|[k0 v0] d IH]; simpl.
  - by rewrite decide_False.
  - destruct (decide (k' = k0)) as [<- | Hne0]; simpl.
    + by rewrite !decide_False.
    + destruct (decide (k = k0)); [done | apply IH].
Qed.

(** One round of the loop of [scale_adam], on a parameter's entry that
    stands for [t]: it returns exactly when the resampler of the
    specification is defined on [t], the entry then stands for the resampled
    tree, and only the entry's dict and new objects were written. *)
Lemma scale_adam_group_repr size g t fp st :
  repr st g t fp → NoDup fp →
  match resample_group size t with
  | Some t' =>
      ∃ st' fp', scale_adam_group size g st = (Ok (), st')
        ∧ repr st' g t' fp'
        ∧ (length st ≤ length st')%nat
        ∧ (∀ l, (l < length st)%nat → l ∉ fp → st' !! l = st !! l)
        ∧ (∀ l, l ∈ fp' → l ∈ fp ∨ (length st ≤ l)%nat)
  | None => ∃ e st', scale_adam_group size g st = (Raise e, st')
  end.
Proof.
  intros Hg Hnd. unfold scale_adam_group.
  change (KStr "exp_avg") with key_exp_avg.
  change (KStr "exp_avg_sq") with key_exp_avg_sq.
  destruct t as [a | m0 | td | ts];
    try (destruct (getitem_not_dict st g _ fp key_exp_avg Hg) as [e He];
         [done |]; rewrite (bind_raise _ _ _ _ _ He); by (simpl; eauto)).
  inversion Hg as [| | l d td' fpg Hl Hkeys Hd |]; subst.
  apply NoDup_cons in Hnd as [Hlfp Hndg].
  pose proof (proj1 (proj2 (repr_fp_lt st)) _ _ _ Hd) as Hfplt.
  rewrite Forall_forall in Hfplt.
  pose proof (lookup_lt_Some _ _ _ Hl) as Hllt.
  pose proof (repr_entries_get st d td fpg key_exp_avg Hd) as Hm.
  pose proof (repr_entries_get st d td fpg key_exp_avg_sq Hd) as Hv.
  unfold resample_group.
  destruct (tdict_get key_exp_avg td) as [tm|].
  2:{ rewrite (bind_raise _ _ _ _ _ (getitem_missing st l d _ Hl Hm)). by (simpl; eauto). }
  destruct Hm as (vm & fpm & Hgm & Hrm & Hsubm).
  rewrite (bind_ok _ _ _ _ _ (getitem_ok st l d _ vm Hl Hgm)).
  destruct (tdict_get key_exp_avg_sq td) as [tv|].
  2:{ rewrite (bind_raise _ _ _ _ _ (getitem_missing st l d _ Hl Hv)).
      destruct tm; by (simpl; eauto). }
  destruct Hv as (vv & fpv & Hgv & Hrv & Hsubv).
  rewrite (bind_ok _ _ _ _ _ (getitem_ok st l d _ vv Hl Hgv)).
  destruct tm as [a | m | dm | lm];
    try (destruct (interpolate_not_tensor st vm _ fpm size bicubic Hrm) as [e He];
         [done |]; rewrite (bind_raise _ _ _ _ _ He); by (simpl; eauto)).
  inversion Hrm as [| lm tm' Hlm | |]; subst.
  destruct (F_interpolate m size bicubic) as [m'|e] eqn:Fm.
  2:{ rewrite (bind_raise _ _ _ _ _ (interpolate_fails _ _ _ _ _ _ Hlm Fm)).
      destruct tv; by (simpl; eauto). }
  rewrite (bind_ok _ _ _ _ _ (interpolate_ok _ _ _ _ _ _ Hlm Fm)).
  set (st1 := st ++ [OTensor m']).
  assert (Hlen1 : length st1 = S (length st))
    by (unfold st1; rewrite length_app; simpl; lia).
  assert (Hl1 : st1 !! l = Some (ODict d))
    by (unfold st1; by rewrite lookup_app_l).
  rewrite (bind_ok _ _ _ _ _ (setitem_ok st1 l d _ _ Hl1)).
  set (d1 := dict_set key_exp_avg (PRef (length st)) d).
  set (st2 := <[l := ODict d1]> st1).
  assert (Hlen2 : length st2 = S (length st))
    by (unfold st2; by rewrite length_insert).
  assert (Hag2 : ∀ l0, (l0 < length st)%nat → l0 ≠ l → st2 !! l0 = st !! l0).
  { intros l0 Hl0 Hne. unfold st2, st1.
    rewrite list_lookup_insert_ne by done. by apply lookup_app_l. }
  assert (Hrv2 : repr st2 vv tv fpv).
  { apply (proj1 (repr_agree st st2)); [done |]. intros l0 Hl0.
    apply Hag2; [by apply Hfplt, Hsubv |]. intros ->. by apply Hlfp, Hsubv. }
  destruct tv as [a | v | dv | lv];
    try (destruct (interpolate_not_tensor st2 vv _ fpv size bilinear Hrv2) as [e He];
         [done |]; rewrite (bind_raise _ _ _ _ _ He); by (simpl; eauto)).
  inversion Hrv2 as [| lv tv' Hlv | |]; subst.
  destruct (F_interpolate v size bilinear) as [v'|e] eqn:Fv.
  2:{ rewrite (bind_raise _ _ _ _ _ (interpolate_fails _ _ _ _ _ _ Hlv Fv)).
      by (simpl; eauto). }
  rewrite (bind_ok _ _ _ _ _ (interpolate_ok _ _ _ _ _ _ Hlv Fv)).
  set (st3 := st2 ++ [OTensor v']).
  assert (Hlen3 : length st3 = S (S (length st)))
    by (unfold st3; rewrite length_app; simpl; lia).
  assert (Hl3 : st3 !! l = Some (ODict d1)).
  { unfold st3. rewrite lookup_app_l by lia.
    unfold st2. apply list_lookup_insert_eq. lia. }
  rewrite (bind_ok _ _ _ _ _ (setitem_ok st3 l d1 _ _ Hl3)).
  set (d2 := dict_set key_exp_avg_sq (PRef (length st2)) d1).
  set (st4 := <[l := ODict d2]> st3).
  assert (Hlen4 : length st4 = S (S (length st)))
    by (unfold st4; by rewrite length_insert).
  assert (Hl4 : st4 !! l = Some (ODict d2))
    by (unfold st4; apply list_lookup_insert_eq; lia).
  rewrite (bind_ok _ _ _ _ _
             (getitem_ok st4 l d2 _ _ Hl4 (dict_get_set_eq _ _ _))).
  assert (Hv4 : st4 !! length st2 = Some (OTensor v')).
  { unfold st4, st3. rewrite list_lookup_insert_ne by lia.
    rewrite lookup_app_r by lia. by rewrite Nat.sub_diag. }
  rewrite (relu__ok st4 _ _ Hv4).
  set (st5 := <[length st2 := OTensor (relu v')]> st4).
  assert (Hag5 : ∀ l0, (l0 < length st)%nat → l0 ≠ l → st5 !! l0 = st !! l0).
  { intros l0 Hl0 Hne. unfold st5, st4, st3.
    rewrite !list_lookup_insert_ne by lia.
    rewrite lookup_app_l by lia. by apply Hag2. }
  assert (Hd5 : repr_entries st5 d td fpg).
  { apply (proj1 (proj2 (repr_agree st st5))); [done |]. intros l0 Hl0.
    apply Hag5; [by apply Hfplt |]. by intros ->. }
  assert (Hm5 : repr st5 (PRef (length st)) (TTensor m') [length st]).
  { constructor.
    unfold st5. rewrite list_lookup_insert_ne by lia.
    unfold st4. rewrite list_lookup_insert_ne by lia.
    unfold st3. rewrite lookup_app_l by lia.
    unfold st2. rewrite list_lookup_insert_ne by lia.
    unfold st1. rewrite lookup_app_r by lia. by rewrite Nat.sub_diag. }
  assert (Hv5 : repr st5 (PRef (length st2)) (TTensor (relu v')) [length st2]).
  { constructor. unfold st5. apply list_lookup_insert_eq. lia. }
  destruct (repr_entries_set st5 d td fpg key_exp_avg _ _ _ Hd5 Hm5)
    as (fp1 & Hrep1 & Hsub1).
  destruct (repr_entries_set st5 _ _ fp1 key_exp_avg_sq _ _ _ Hrep1 Hv5)
    as (fp2 & Hrep2 & Hsub2).
  exists st5, (l :: fp2). split; [done |]. split.
  { econstructor; [| | exact Hrep2].
    - unfold st5. rewrite list_lookup_insert_ne by lia. exact Hl4.
    - unfold d2, d1. rewrite !map_fst_dict_set; [done | done |].
      rewrite dict_get_set_ne by done. done. }
  split; [unfold st5; rewrite length_insert; lia |]. split.
  { intros l0 Hl0 Hnin. apply not_elem_of_cons in Hnin as [Hne _].
    by apply Hag5. }
  intros l0 [-> | Hl0]%elem_of_cons; [left; by left |].
  destruct (Hsub2 l0 Hl0) as [Hin | Hin].
  - destruct (Hsub1 l0 Hin) as [Hin' | Hin'].
    + left. by right.
    + apply list_elem_of_singleton in Hin' as ->. by right.
  - apply list_elem_of_singleton in Hin as ->. right. lia.
Qed.

(** The loop of [scale_adam] over the entries of [state['state']]. *)
Lemma scale_adam_groups_repr size ds :
  ∀ st gs fps,
    repr_entries st ds gs fps → NoDup fps →
    match resample_groups size gs with
    | Some gs' =>
        ∃ st' fps', forM_ (map snd ds) (scale_adam_group size) st = (Ok (), st')
          ∧ repr_entries st' ds gs' fps'
          ∧ (length st ≤ length st')%nat
          ∧ (∀ l, (l < length st)%nat → l ∉ fps → st' !! l = st !! l)
          ∧ (∀ l, l ∈ fps' → l ∈ fps ∨ (length st ≤ l)%nat)
    | None => ∃ e st', forM_ (map snd ds) (scale_adam_group size) st = (Raise e, st')
    end.
Proof.
  unfold forM_.
  induction ds as [|[k v] ds IH]; intros st gs fps Hrep Hnd;
    inversion Hrep as [|k0 v0 t fpv d0 gs0 fps0 Hv Hds]; subst; simpl.
  { exists st, []. split; [done |]. split; [constructor |].
    split; [done |]. split; [done |]. intros l Hl. by apply elem_of_nil in Hl. }
  apply NoDup_app in Hnd as (Hndv & Hdisj & Hnds).
  pose proof (proj1 (proj2 (repr_fp_lt st)) _ _ _ Hds) as Hfpslt.
  rewrite Forall_forall in Hfpslt.
  pose proof (scale_adam_group_repr size v t fpv st Hv Hndv) as Hone.
  destruct (resample_group size t) as [t'|]; simpl.
  2:{ destruct Hone as (e & st' & Hrun).
      rewrite (bind_raise _ _ _ _ _ Hrun). by eauto. }
  destruct Hone as (st1 & fp1 & Hrun & Hv1 & Hlen1 & Hkept1 & Hsub1).
  rewrite (bind_ok _ _ _ _ _ Hrun).
  assert (Hds1 : repr_entries st1 ds gs0 fps0).
  { apply (proj1 (proj2 (repr_agree st st1))); [done |]. intros l Hl.
    apply Hkept1; [by apply Hfpslt |]. intros Hin. by apply (Hdisj l). }
  specialize (IH st1 gs0 fps0 Hds1 Hnds).
  destruct (resample_groups size gs0) as [gs'|]; simpl.
  2:{ destruct IH as (e & st' & Hrun'). rewrite Hrun'. by eauto. }
  destruct IH as (st2 & fps2 & Hrun' & Hds2 & Hlen2 & Hkept2 & Hsub2).
  pose proof (proj1 (repr_fp_lt st1) _ _ _ Hv1) as Hfp1lt.
  rewrite Forall_forall in Hfp1lt.
  exists st2, (fp1 ++ fps2). split; [done |]. split.
  { constructor; [| done].
    apply (proj1 (repr_agree st1 st2)); [done |]. intros l Hl.
    apply Hkept2; [by apply Hfp1lt |]. intros Hin.
    destruct (Hsub1 l Hl) as [Hl' | Hl'].
    - by apply (Hdisj l).
    - specialize (Hfpslt l Hin). lia. }
  split; [lia |]. split.
  { intros l Hl [Hnv Hns]%not_elem_of_app.
    rewrite Hkept2 by (done || lia). by apply Hkept1. }
  intros l [Hl | Hl]%elem_of_app.
  - destruct (Hsub1 l Hl); [left; apply elem_of_app; by left | by right].
  - destruct (Hsub2 l Hl); [left; apply elem_of_app; by right | right; lia].
Qed.

(** [scale_adam] against the resampler of the specification.  On a state
    that stands for the tree [t], shares nothing and is nested no deeper than
    the recursion limit, the call returns exactly when the resampler is
    defined on [t], and the returned state stands for the resampled tree. *)
Lemma scale_adam_refines size x t fp st :
  repr st x t fp → NoDup fp → (depth t ≤ recursion_limit)%nat →
  match resample size t with
  | Some t' =>
      ∃ y st' fp', scale_adam x size st = (Ok y, st') ∧ repr st' y t' fp'
                   ∧ Forall (λ l, (length st ≤ l)%nat) fp'
  | None => ∃ e st', scale_adam x size st = (Raise e, st')
  end.
Proof.
  intros Hx Hnd Hdepth. unfold scale_adam.
  change (KStr "state") with key_state.
  destruct (deepcopy_repr recursion_limit x t fp st ∅ Hx Hdepth Hnd)
    as (y & memo' & st1 & fp1 & Hrun & Hy & Hnd1 & Hnew1 & [Hlen1 _] & _);
    [done |].
  rewrite Forall_forall in Hnew1.
  rewrite (bind_ok _ _ _ _ _ Hrun). cbv beta iota.
  destruct t as [a | m0 | td | ts];
    try (destruct (getitem_not_dict st1 y _ fp1 key_state Hy) as [e He];
         [done |];
         rewrite (bind_raise _ _ _ _ _ (bind_raise _ _ _ _ _ He));
         by (simpl; eauto)).
  inversion Hy as [| | lr dr td' fpr Hlr Hkeys Hdr |]; subst.
  apply NoDup_cons in Hnd1 as [Hlrfp Hndr].
  pose proof (proj1 (proj2 (repr_fp_lt st1)) _ _ _ Hdr) as Hfprlt.
  rewrite Forall_forall in Hfprlt.
  unfold resample.
  pose proof (repr_entries_get st1 dr td fpr key_state Hdr) as Hnone.
  pose proof (repr_entries_replace st1 dr td fpr key_state) as Hsome.
  destruct (tdict_get key_state td) as [ts|].
  2:{ rewrite (bind_raise _ _ _ _ _
                 (bind_raise _ _ _ _ _ (getitem_missing st1 lr dr _ Hlr Hnone))).
      by eauto. }
  clear Hnone.
  destruct (Hsome ts Hdr Hndr eq_refl)
    as (s & fpv & Hgs & Hrs & Hndv & Hsubv & Hrepl).
  rewrite (bind_bind_ok _ _ _ _ _ _ (getitem_ok st1 lr dr _ s Hlr Hgs)).
  destruct ts as [a | m0 | gs | ts];
    try (destruct (values_not_dict st1 s _ fpv Hrs) as [e He]; [done |];
         rewrite (bind_raise _ _ _ _ _ He); by (simpl; eauto)).
  inversion Hrs as [| | ls ds gs' fps Hls Hkeyss Hds |]; subst.
  apply NoDup_cons in Hndv as [Hlsfp Hnds].
  rewrite (bind_ok _ _ _ _ _ (values_ok st1 ls ds Hls)).
  pose proof (scale_adam_groups_repr size ds st1 gs fps Hds Hnds) as Hloop.
  destruct (resample_groups size gs) as [gs'|]; simpl.
  2:{ destruct Hloop as (e & st' & Hrun'). rewrite (bind_raise _ _ _ _ _ Hrun').
      by eauto. }
  destruct Hloop as (st2 & fps2 & Hrun' & Hds2 & Hlen2 & Hkept2 & Hsub2).
  rewrite (bind_ok _ _ _ _ _ Hrun').
  pose proof (proj1 (proj2 (repr_fp_lt st1)) _ _ _ Hds) as Hfpslt.
  destruct (Hrepl st2 (TDict gs') (ls :: fps2)) as (fp' & Hfp' & Hsub').
  { apply (repr_dict st2 ls ds); [| done | done].
    rewrite Hkept2; [done | by eapply lookup_lt_Some | done]. }
  { intros l Hl Hnin. apply Hkept2; [by apply Hfprlt |].
    intros Hin. apply Hnin. by right. }
  exists (PRef lr), st2, (lr :: fp'). split; [done |]. split.
  { apply (repr_dict st2 lr dr); [| done | done].
    rewrite Hkept2; [done | by eapply lookup_lt_Some |].
    intros Hin. apply Hlrfp, Hsubv. by right. }
  assert (Hfpr : ∀ l, l ∈ fpr → (length st ≤ l)%nat).
  { intros l Hl. apply Hnew1. by right. }
  constructor; [apply Hnew1; by left |].
  apply Forall_forall. intros l Hl.
  destruct (Hsub' l Hl) as [Hin | [-> | Hin]%elem_of_cons].
  - by apply Hfpr.
  - apply Hfpr, Hsubv. by left.
  - destruct (Hsub2 l Hin) as [Hin' | Hge]; [| lia].
    apply Hfpr, Hsubv. by right.
Qed.

End resample_proofs.

(** ** The resampler on trees *)

Lemma tdict_get_set_eq k t d : tdict_get k (tdict_set k t d) = Some t.
Proof.
  induction d as [|[k' t'] d IH]; simpl.
  - by rewrite decide_True.
  - destruct (decide (k = k')) as [<- | Hne]; simpl.
    + by rewrite decide_True.
    + by rewrite decide_False.
Qed.

Lemma tdict_get_set_ne k k' t d :
  k ≠ k' → tdict_get k (tdict_set k' t d) = tdict_get k d.
Proof.
  intros Hne. induction d as [|[k0 t0] d IH]; simpl.
  - by rewrite decide_False.
  - destruct (decide (k' = k0)) as [<- | Hne0]; simpl.
    + by rewrite !decide_False.
    + destruct (decide (k = k0)); [done | apply IH].
Qed.

Lemma map_tdict_set {A} (F : key * tree → A) k t t' d :
  tdict_get k d = Some t → F (k, t') = F (k, t) →
  map F (tdict_set k t' d) = map F d.
Proof.
  intros Hget HF. induction d as [|[k0 t0] d IH]; simpl in *; [done |].
  destruct (decide (k = k0)) as [<- | Hne]; simpl.
  - injection Hget as ->. by rewrite HF.
  - by rewrite IH.
Qed.

Lemma relu_nonneg t : tensor_all (λ x, 0 ≤ x) (relu t).
Proof.
  unfold tensor_all, relu, tmap. simpl.
  apply List.Forall_forall. intros y Hy.
  apply in_map_iff in Hy as (x & <- & _). unfold qmax.
  destruct (bool_decide (x ≤ 0)) eqn:Hx; [apply Qcle_refl |].
  apply bool_decide_eq_false in Hx. apply Qcnot_le_lt in Hx.
  by apply Qclt_le_weak.
Qed.

Section resampler.
Context `{Backend}.

Lemma resample_group_inv size g g' :
  resample_group size g = Some g' →
  ∃ d m v m' v',
    g = TDict d
    ∧ tdict_get key_exp_avg d = Some (TTensor m)
    ∧ tdict_get key_exp_avg_sq d = Some (TTensor v)
    ∧ F_interpolate m size bicubic = Ok m'
    ∧ F_interpolate v size bilinear = Ok v'
    ∧ g' = TDict (tdict_set key_exp_avg_sq (TTensor (relu v'))
                    (tdict_set key_exp_avg (TTensor m') d)).
Proof.
  unfold resample_group. destruct g as [| | d |]; try done.
  destruct (tdict_get key_exp_avg d) as [[| m | |]|] eqn:Hm; try done.
  destruct (tdict_get key_exp_avg_sq d) as [[| v | |]|] eqn:Hv; try done.
  destruct (F_interpolate m size bicubic) as [m'|] eqn:Fm; try done.
  destruct (F_interpolate v size bilinear) as [v'|] eqn:Fv; try done.
  intros [= <-]. by exists d, m, v, m', v'.
Qed.

Lemma resample_groups_inv size gs gs' :
  resample_groups size gs = Some gs' →
  Forall2 (λ kg kg', kg'.1 = kg.1 ∧ resample_group size kg.2 = Some kg'.2)
    gs gs'.
Proof.
  revert gs'. induction gs as [|[k g] gs IH]; intros gs' Hgs; simpl in Hgs.
  - injection Hgs as <-. constructor.
  - destruct (resample_group size g) as [g'|] eqn:Hg; [| done]. simpl in Hgs.
    destruct (resample_groups size gs) as [gs''|]; [| done]. simpl in Hgs.
    injection Hgs as <-. constructor; [done | by apply IH].
Qed.

Lemma resample_inv size t t' :
  resample size t = Some t' →
  ∃ d gs gs',
    t = TDict d ∧ tdict_get key_state d = Some (TDict gs)
    ∧ resample_groups size gs = Some gs'
    ∧ t' = TDict (tdict_set key_state (TDict gs') d).
Proof.
  unfold resample. destruct t as [| | d |]; try done.
  destruct (tdict_get key_state d) as [[| | gs |]|] eqn:Hs; try done.
  destruct (resample_groups size gs) as [gs'|] eqn:Hgs; [| done].
  intros [= <-]. by exists d, gs, gs'.
Qed.

(** What the resampler returns has no negative second-moment entry. *)
Lemma resample_second_moments_nonneg size t t' :
  resample size t = Some t' → second_moments_nonneg t'.
Proof.
  intros (d & gs & gs' & -> & Hs & Hgs & ->)%resample_inv.
  exists (tdict_set key_state (TDict gs') d), gs'.
  split; [done |]. split; [apply tdict_get_set_eq |].
  apply resample_groups_inv in Hgs. clear Hs.
  induction Hgs as [|[k g] [k' g'] gs gs' [_ Hg] _ IH]; [constructor |].
  constructor; [| done]. simpl in *.
  apply resample_group_inv in Hg as (dg & m & v & m' & v' & _ & _ & _ & _ & _ & ->).
  eexists _, (relu v'). split; [done |].
  split; [apply tdict_get_set_eq | apply relu_nonneg].
Qed.

Lemma resample_group_blank size g g' :
  resample_group size g = Some g' →
  blank_moments_group g' = blank_moments_group g.
Proof.
  intros (d & m & v & m' & v' & -> & Hm & Hv & _ & _ & ->)%resample_group_inv.
  simpl. f_equal.
  rewrite (map_tdict_set _ _ (TTensor v)).
  - rewrite (map_tdict_set _ _ (TTensor m)); [done | done |].
    reflexivity.
  - by rewrite tdict_get_set_ne.
  - reflexivity.
Qed.

(** The resampler changes the moment tensors only: with them blanked, the
    state is what it was. *)
Lemma resample_blank_moments size t t' :
  resample size t = Some t' → blank_moments t' = blank_moments t.
Proof.
  intros (d & gs & gs' & -> & Hs & Hgs & ->)%resample_inv.
  simpl. f_equal. apply (map_tdict_set _ _ (TDict gs)); [done |].
  cbn. do 2 f_equal.
  apply resample_groups_inv in Hgs. clear Hs.
  induction Hgs as [|[k g] [k' g'] gs0 gs0' [Hk Hg] _ IH]; [done |].
  simpl in *. subst k'. by rewrite (resample_group_blank _ _ _ Hg), IH.
Qed.

(** The step counter of every parameter is carried over. *)
Lemma resample_step_counters size t t' :
  resample size t = Some t' → step_counters t' = step_counters t.
Proof.
  intros (d & gs & gs' & -> & Hs & Hgs & ->)%resample_inv.
  unfold step_counters. rewrite tdict_get_set_eq, Hs.
  apply resample_groups_inv in Hgs. clear Hs.
  induction Hgs as [|[k g] [k' g'] gs0 gs0' [Hk Hg] _ IH]; [done |].
  simpl in *. subst k'. rewrite IH. do 2 f_equal.
  apply resample_group_inv in Hg as (dg & m & v & m' & v' & -> & _ & _ & _ & _ & ->).
  by rewrite !tdict_get_set_ne.
Qed.

End resampler.

(** ** scale_adam *)

Ltac repr_dict_at l fp :=
  eapply (repr_dict _ l _ _ fp);
  [reflexivity | apply (bool_decide_unpack _); by vm_compute |].

Ltac repr_entry fp fps :=
  apply (repr_entries_cons _ _ _ _ fp _ _ fps).

Lemma moments_store_repr :
  repr moments_store (PRef 0) moments_tree moments_footprint.
Proof.
  repr_dict_at 0%nat [1; 3; 4; 5; 2; 6]%nat.
  repr_entry [1; 3; 4; 5]%nat [2; 6]%nat.
  - repr_dict_at 1%nat [3; 4; 5]%nat.
    repr_entry [3; 4; 5]%nat (@nil loc); [| constructor].
    repr_dict_at 3%nat [4; 5]%nat.
    repr_entry (@nil loc) [4; 5]%nat; [constructor |].
    repr_entry [4]%nat [5]%nat; [by constructor |].
    repr_entry [5]%nat (@nil loc); [by constructor | constructor].
  - repr_entry [2; 6]%nat (@nil loc); [| constructor].
    eapply (repr_list _ 2%nat _ _ [6]%nat); [reflexivity |].
    apply (repr_items_cons _ _ _ [6]%nat _ _ []); [| constructor].
    repr_dict_at 6%nat (@nil loc).
    repr_entry (@nil loc) (@nil loc); [constructor |].
    repr_entry (@nil loc) (@nil loc); [constructor | constructor].
Qed.

Lemma moments_footprint_NoDup : NoDup moments_footprint.
Proof. apply (bool_decide_unpack _); by vm_compute. Qed.

(** C6: on an optimizer state (a state that stands for a tree, shares
    nothing and is nested no deeper than the recursion limit) and for every
    target size, when [scale_adam] returns, the second moment of every
    parameter of the returned state is a tensor without a negative entry; and
    it returns whenever every parameter has both moment tensors and
    [F.interpolate] accepts them: it raises in the other cases only. *)
Theorem scale_adam_second_moments_nonneg `{Backend}
    (state : pyval) (size : Z * Z) (st : store) (t : tree) (fp : list loc) :
  repr st state t fp → NoDup fp → (depth t ≤ recursion_limit)%nat →
  match scale_adam state size st with
  | (Ok y, st') =>
      ∃ t' fp', resample size t = Some t' ∧ repr st' y t' fp'
                ∧ second_moments_nonneg t'
  | (Raise _, _) => resample size t = None
  end.
Proof.
  intros Hrep Hnd Hdepth.
  pose proof (scale_adam_refines size state t fp st Hrep Hnd Hdepth) as Href.
  destruct (resample size t) as [t'|] eqn:Ht.
  - destruct Href as (y & st' & fp' & -> & Hy & _).
    exists t', fp'. split; [done |]. split; [done |].
    by eapply resample_second_moments_nonneg.
  - by destruct Href as (e & st' & ->).
Qed.

Lemma scale_adam_second_moments_nonneg_witness :
  repr moments_store (PRef 0) moments_tree moments_footprint
  ∧ NoDup moments_footprint
  ∧ (depth moments_tree ≤ @recursion_limit Reference.backend)%nat
  ∧ match @scale_adam Reference.backend (PRef 0) (1, 3)%Z moments_store with
    | (Ok y, st') =>
        ∃ t' fp', @resample Reference.backend (1, 3)%Z moments_tree = Some t'
                  ∧ repr st' y t' fp' ∧ second_moments_nonneg t'
    | (Raise _, _) => @resample Reference.backend (1, 3)%Z moments_tree = None
    end.
Proof.
  split; [exact moments_store_repr |].
  split; [exact moments_footprint_NoDup |].
  split; [vm_compute; lia |].
  apply (@scale_adam_second_moments_nonneg Reference.backend
           (PRef 0) (1, 3)%Z moments_store moments_tree moments_footprint).
  - exact moments_store_repr.
  - exact moments_footprint_NoDup.
  - vm_compute; lia.
Defined.

(** C7: whatever it is given, and whether it returns or raises,
    [scale_adam] leaves every object of the store it was called in as it
    was.  On an optimizer state, the source therefore stands for the same
    value afterwards; the returned state is made of objects allocated by the
    call, and with the two moment tensors of every parameter blanked it is
    the source with them blanked: step counters, hyperparameters and the
    layout are carried over. *)
Theorem scale_adam_keeps_source_and_rest `{Backend}
    (state : pyval) (size : Z * Z) (st : store) :
  store_kept st (scale_adam state size st).2
  ∧ ∀ t fp,
      repr st state t fp → NoDup fp → (depth t ≤ recursion_limit)%nat →
      repr (scale_adam state size st).2 state t fp
      ∧ match (scale_adam state size st).1 with
        | Ok y =>
            ∃ t' fp',
              repr (scale_adam state size st).2 y t' fp'
              ∧ Forall (λ l, (length st ≤ l)%nat) fp'
              ∧ blank_moments t' = blank_moments t
              ∧ step_counters t' = step_counters t
        | Raise _ => resample size t = None
        end.
Proof.
  pose proof (scale_adam_keeps_store state size st) as Hkept.
  split; [done |]. intros t fp Hrep Hnd Hdepth. split.
  - apply (proj1 (repr_agree st _)); [done |]. intros l Hl.
    apply Hkept. pose proof (proj1 (repr_fp_lt st) _ _ _ Hrep) as Hlt.
    rewrite Forall_forall in Hlt. by apply Hlt.
  - pose proof (scale_adam_refines size state t fp st Hrep Hnd Hdepth) as Href.
    destruct (resample size t) as [t'|] eqn:Ht.
    + destruct Href as (y & st' & fp' & -> & Hy & Hnew). simpl.
      exists t', fp'. split; [done |]. split; [done |].
      split; [by eapply resample_blank_moments
             | by eapply resample_step_counters].
    + by destruct Href as (e & st' & ->).
Qed.

Lemma scale_adam_keeps_source_and_rest_witness :
  store_kept moments_store
    (@scale_adam Reference.backend (PRef 0) (1, 3)%Z moments_store).2
  ∧ repr (@scale_adam Reference.backend (PRef 0) (1, 3)%Z moments_store).2
      (PRef 0) moments_tree moments_footprint
  ∧ match (@scale_adam Reference.backend (PRef 0) (1, 3)%Z moments_store).1 with
    | Ok y =>
        ∃ t' fp',
          repr (@scale_adam Reference.backend (PRef 0) (1, 3)%Z moments_store).2
            y t' fp'
          ∧ Forall (λ l, (length moments_store ≤ l)%nat) fp'
          ∧ blank_moments t' = blank_moments moments_tree
          ∧ step_counters t' = step_counters moments_tree
    | Raise _ => @resample Reference.backend (1, 3)%Z moments_tree = None
    end.
Proof.
  destruct (@scale_adam_keeps_source_and_rest Reference.backend
              (PRef 0) (1, 3)%Z moments_store) as [Hkept Hrest].
  split; [exact Hkept |].
  apply (Hrest moments_tree moments_footprint).
  - exact moments_store_repr.
  - exact moments_footprint_NoDup.
  - vm_compute; lia.
Defined.

(** ** size_to_fit *)

Lemma round_frac_cross n d a b :
  (0 < d)%Z → (0 < b)%Z → (n * b = a * d)%Z → round_frac n d = round_frac a b.
Proof.
  intros Hd Hb Hcross. unfold round_frac.
  pose proof (Z.div_mod a b ltac:(lia)) as Ha.
  pose proof (Z.mod_pos_bound a b Hb) as Hra.
  pose proof (Z.div_mod n d ltac:(lia)) as Hn.
  pose proof (Z.mod_pos_bound n d Hd) as Hrn.
  set (f := (a / b)%Z) in *. set (r := (a mod b)%Z) in *.
  set (f' := (n / d)%Z) in *. set (r' := (n mod d)%Z) in *.
  assert (E : (d * b * (f' - f) = r * d - r' * b)%Z)
    by (rewrite Ha, Hn in Hcross; lia).
  assert (Hdb : (0 < d * b)%Z) by nia.
  assert (B1 : (0 ≤ r * d < d * b)%Z) by nia.
  assert (B2 : (0 ≤ r' * b < d * b)%Z) by nia.
  assert (Hf : f' = f).
  { destruct (Z.lt_trichotomy f' f) as [Hlt | [Heq | Hgt]]; [| done |].
    - assert (d * b * (f' - f) ≤ - (d * b))%Z by nia. lia.
    - assert (d * b ≤ d * b * (f' - f))%Z by nia. lia. }
  assert (Hr : (r' * b = r * d)%Z) by (rewrite Hf in E; lia).
  rewrite Hf.
  destruct (Z.ltb_spec (2 * r') d), (Z.ltb_spec (2 * r) b);
    [done | nia | nia |].
  destruct (Z.ltb_spec d (2 * r')), (Z.ltb_spec b (2 * r));
    [done | nia | nia | done].
Qed.

Lemma py_round_div a b :
  (0 < b)%Z → py_round (Qc_of_Z a / Qc_of_Z b) = round_frac a b.
Proof.
  intros Hb. destruct b as [|p|p]; try lia.
  set (q := Qc_of_Z a / Qc_of_Z (Z.pos p)).
  assert (Hq : (this q == a # p)%Q).
  { unfold q, Qcdiv, Qcmult, Qcinv, Qc_of_Z. simpl.
    rewrite !Qred_correct. symmetry. apply Qmake_Qdiv. }
  unfold Qeq in Hq. simpl in Hq.
  change (py_round q) with (round_frac (Qnum q) (Z.pos (Qden q))).
  by apply round_frac_cross.
Qed.

Lemma round_frac_bounds a b m :
  (0 < b)%Z → (0 ≤ a ≤ m * b)%Z → (0 ≤ round_frac a b ≤ m)%Z.
Proof.
  intros Hb Ha. unfold round_frac.
  pose proof (Z.div_mod a b ltac:(lia)) as Hdm.
  pose proof (Z.mod_pos_bound a b Hb) as Hr.
  set (f := (a / b)%Z) in *. set (r := (a mod b)%Z) in *.
  assert (Hf : (0 ≤ f ≤ m)%Z) by nia.
  destruct (Z.ltb_spec (2 * r) b); [lia |].
  assert (f < m)%Z by nia.
  destruct (Z.ltb_spec b (2 * r)); [lia |]. destruct (Z.even f); lia.
Qed.

Lemma round_frac_mul k m : (0 < m)%Z → round_frac (m * k) m = k.
Proof.
  intros Hm. unfold round_frac.
  rewrite (Z.mul_comm m k), Z.div_mul, Z.mod_mul by lia.
  by destruct (Z.ltb_spec (2 * 0) m); [| lia].
Qed.

Lemma round_frac_small a b :
  (0 < b)%Z → (0 ≤ a)%Z → (2 * a ≤ b)%Z → round_frac a b = 0%Z.
Proof.
  intros Hb Ha Hab. unfold round_frac.
  rewrite Z.div_small, Z.mod_small by lia.
  destruct (Z.ltb_spec (2 * a) b); [done |].
  by destruct (Z.ltb_spec b (2 * a)); [lia |].
Qed.

(** What [size_to_fit] does on a size with a positive longer side, when it
    resizes. *)
Lemma size_to_fit_resize w h max_dim scale_up :
  (0 ≤ w)%Z → (0 ≤ h)%Z → (0 < Z.max h w)%Z →
  scale_up = true ∨ (max_dim < Z.max h w)%Z →
  size_to_fit (w, h) max_dim scale_up
  = Ok (if bool_decide (h > w)%Z
        then (round_frac (max_dim * w) h, max_dim)
        else (max_dim, round_frac (max_dim * h) w)).
Proof.
  intros Hw Hh Hpos Hresize. unfold size_to_fit.
  replace (negb scale_up && bool_decide (Z.max h w ≤ max_dim)%Z) with false.
  2:{ destruct Hresize as [-> | Hlt]; [done |].
      rewrite bool_decide_false by lia. by destruct scale_up. }
  unfold true_div. destruct (bool_decide (h > w)%Z) eqn:Hhw.
  - apply bool_decide_eq_true in Hhw.
    rewrite bool_decide_false by lia. simpl.
    by rewrite py_round_div by lia.
  - apply bool_decide_eq_false in Hhw.
    rewrite bool_decide_false by lia. simpl.
    by rewrite py_round_div by lia.
Qed.

(** The result of [size_to_fit] fits: for a size with non-negative sides, a
    positive longer side and [max_dim >= 0], it returns a size with both
    sides between 0 and [max_dim]; and whenever it resizes ([scale_up], or
    the size exceeds [max_dim]) the side that was the longer one is exactly
    [max_dim]. *)
Theorem size_to_fit_fits (w h max_dim : Z) (scale_up : bool) :
  (0 ≤ w)%Z → (0 ≤ h)%Z → (0 < Z.max h w)%Z → (0 ≤ max_dim)%Z →
  ∃ w' h',
    size_to_fit (w, h) max_dim scale_up = Ok (w', h')
    ∧ (0 ≤ w' ≤ max_dim)%Z ∧ (0 ≤ h' ≤ max_dim)%Z
    ∧ (scale_up = true ∨ (max_dim < Z.max h w)%Z →
       if bool_decide (h > w)%Z then h' = max_dim else w' = max_dim).
Proof.
  intros Hw Hh Hpos Hmax.
  destruct (decide (scale_up = true ∨ (max_dim < Z.max h w)%Z)) as [Hres | Hkeep].
  - rewrite (size_to_fit_resize w h max_dim scale_up) by done.
    destruct (bool_decide (h > w)%Z) eqn:Hhw.
    + apply bool_decide_eq_true in Hhw.
      pose proof (round_frac_bounds (max_dim * w) h max_dim ltac:(lia) ltac:(nia)).
      eexists _, _. split; [done |]. split; [done |]. split; [lia | done].
    + apply bool_decide_eq_false in Hhw.
      pose proof (round_frac_bounds (max_dim * h) w max_dim ltac:(lia) ltac:(nia)).
      eexists _, _. split; [done |]. split; [lia |]. split; [done | done].
  - exists w, h. unfold size_to_fit.
    destruct scale_up; [by destruct Hkeep; left |]. simpl.
    rewrite bool_decide_true by lia.
    split; [done |]. split; [lia |]. split; [lia | done].
Qed.

Lemma size_to_fit_fits_witness :
  (0 ≤ 300)%Z ∧ (0 ≤ 200)%Z ∧ (0 < Z.max 200 300)%Z ∧ (0 ≤ 64)%Z
  ∧ ∃ w' h',
      size_to_fit (300, 200)%Z 64 false = Ok (w', h')
      ∧ (0 ≤ w' ≤ 64)%Z ∧ (0 ≤ h' ≤ 64)%Z
      ∧ (false = true ∨ (64 < Z.max 200 300)%Z →
         if bool_decide (200 > 300)%Z then h' = 64%Z else w' = 64%Z).
Proof.
  split; [lia |]. split; [lia |]. split; [lia |]. split; [lia |].
  apply (size_to_fit_fits 300 200 64 false); lia.
Defined.

(** Fitting a size that was already fitted changes nothing: [size_to_fit]
    is idempotent for a positive [max_dim]. *)
Theorem size_to_fit_idempotent (w h max_dim : Z) (scale_up : bool) (s : Z * Z) :
  (0 ≤ w)%Z → (0 ≤ h)%Z → (0 < Z.max h w)%Z → (0 < max_dim)%Z →
  size_to_fit (w, h) max_dim scale_up = Ok s →
  size_to_fit s max_dim scale_up = Ok s.
Proof.
  intros Hw Hh Hpos Hmax Hfit.
  destruct (decide (scale_up = true ∨ (max_dim < Z.max h w)%Z)) as [Hres | Hkeep].
  - rewrite (size_to_fit_resize w h max_dim scale_up) in Hfit by done.
    destruct (bool_decide (h > w)%Z) eqn:Hhw; injection Hfit as <-.
    + apply bool_decide_eq_true in Hhw.
      pose proof (round_frac_bounds (max_dim * w) h max_dim ltac:(lia) ltac:(nia))
        as Hb.
      set (k := round_frac (max_dim * w) h) in *.
      destruct scale_up.
      * rewrite size_to_fit_resize by (lia || by left).
        destruct (decide (k = max_dim)) as [-> | Hne].
        -- rewrite bool_decide_false by lia. by rewrite round_frac_mul.
        -- rewrite bool_decide_true by lia. by rewrite round_frac_mul.
      * unfold size_to_fit. simpl. by rewrite bool_decide_true by lia.
    + apply bool_decide_eq_false in Hhw.
      pose proof (round_frac_bounds (max_dim * h) w max_dim ltac:(lia) ltac:(nia))
        as Hb.
      set (k := round_frac (max_dim * h) w) in *.
      destruct scale_up.
      * rewrite size_to_fit_resize by (lia || by left).
        rewrite bool_decide_false by lia. by rewrite round_frac_mul.
      * unfold size_to_fit. simpl. by rewrite bool_decide_true by lia.
  - unfold size_to_fit in *.
    destruct scale_up; [by destruct Hkeep; left |]. simpl in *.
    rewrite bool_decide_true in Hfit by lia. injection Hfit as <-.
    by rewrite bool_decide_true by lia.
Qed.

Lemma size_to_fit_idempotent_witness :
  (0 ≤ 300)%Z ∧ (0 ≤ 200)%Z ∧ (0 < Z.max 200 300)%Z ∧ (0 < 64)%Z
  ∧ size_to_fit (300, 200)%Z 64 true = Ok (64, 43)%Z
  ∧ size_to_fit (64, 43)%Z 64 true = Ok (64, 43)%Z.
Proof.
  split; [lia |]. split; [lia |]. split; [lia |]. split; [lia |].
  split; [by vm_compute |].
  apply (size_to_fit_idempotent 300 200 64 true (64, 43)%Z);
    [lia | lia | lia | lia | by vm_compute].
Defined.

(** The only size with non-negative sides on which [size_to_fit] raises is
    the empty one, [(0, 0)], and then only when it has to resize: it divides
    by the longer side, and the error is [ZeroDivisionError]. *)
Theorem size_to_fit_raises_on_empty_size_only
    (w h max_dim : Z) (scale_up : bool) :
  (0 ≤ w)%Z → (0 ≤ h)%Z →
  (raises (size_to_fit (w, h) max_dim scale_up)
   ↔ w = 0%Z ∧ h = 0%Z ∧ (scale_up = true ∨ (max_dim < 0)%Z))
  ∧ (w = 0%Z ∧ h = 0%Z ∧ (scale_up = true ∨ (max_dim < 0)%Z) →
     size_to_fit (w, h) max_dim scale_up = Raise ZeroDivisionError).
Proof.
  intros Hw Hh.
  assert (Hempty : w = 0%Z ∧ h = 0%Z ∧ (scale_up = true ∨ (max_dim < 0)%Z) →
                   size_to_fit (w, h) max_dim scale_up = Raise ZeroDivisionError).
  { intros (-> & -> & Hres). unfold size_to_fit.
    replace (negb scale_up && bool_decide (Z.max 0 0 ≤ max_dim)%Z) with false.
    - by vm_compute.
    - destruct Hres as [-> | Hlt]; [done |].
      rewrite bool_decide_false by lia. by destruct scale_up. }
  split; [| done]. split; [| intros Hc; rewrite Hempty by done; by eexists].
  intros [e He].
  destruct (decide (0 < Z.max h w)%Z) as [Hpos | Hzero].
  - destruct (decide (scale_up = true ∨ (max_dim < Z.max h w)%Z)) as [Hres | Hkeep].
    + by rewrite size_to_fit_resize in He.
    + unfold size_to_fit in He.
      destruct scale_up; [by destruct Hkeep; left |]. simpl in He.
      by rewrite bool_decide_true in He by lia.
  - assert (w = 0%Z ∧ h = 0%Z) as [-> ->] by lia.
    split; [done |]. split; [done |].
    destruct scale_up; [by left | right].
    unfold size_to_fit in He. simpl in He.
    destruct (decide (0 ≤ max_dim)%Z); [| lia].
    by rewrite bool_decide_true in He by lia.
Qed.

Lemma size_to_fit_raises_on_empty_size_only_witness :
  (0 ≤ 0)%Z ∧ (0 ≤ 0)%Z
  ∧ size_to_fit (0, 0)%Z 64 true = Raise ZeroDivisionError.
Proof.
  split; [lia |]. split; [lia |].
  apply (size_to_fit_raises_on_empty_size_only 0 0 64 true); [lia | lia |].
  split; [done |]. split; [done | by left].
Defined.

(** A thin image loses its shorter side: when the longer side is at least
    twice [max_dim] times the shorter one, the shorter side of the result is
    [round] of a number not above 1/2, which is 0. *)
Theorem size_to_fit_collapses_thin_sizes (w h max_dim : Z) (scale_up : bool) :
  (0 ≤ h ≤ w)%Z → (0 < w)%Z → (0 ≤ max_dim)%Z → (2 * (max_dim * h) ≤ w)%Z →
  scale_up = true ∨ (max_dim < w)%Z →
  size_to_fit (w, h) max_dim scale_up = Ok (max_dim, 0%Z).
Proof.
  intros Hh Hw Hmax Hthin Hres.
  rewrite size_to_fit_resize;
    [| lia | lia | lia | destruct Hres; [by left | right; lia]].
  rewrite bool_decide_false by lia.
  by rewrite round_frac_small by nia.
Qed.

Lemma size_to_fit_collapses_thin_sizes_witness :
  (0 ≤ 1 ≤ 1000)%Z ∧ (0 < 1000)%Z ∧ (0 ≤ 64)%Z ∧ (2 * (64 * 1) ≤ 1000)%Z
  ∧ size_to_fit (1000, 1)%Z 64 false = Ok (64, 0)%Z.
Proof.
  split; [lia |]. split; [lia |]. split; [lia |]. split; [lia |].
  apply (size_to_fit_collapses_thin_sizes 1000 1 64 false); lia.
Defined.

(** ** gen_scales *)

Lemma gen_scales_lookup start n i :
  (i < Z.to_nat n)%nat → gen_scales start n !! i = Some (gen_scale start i).
Proof.
  intros Hi. unfold gen_scales.
  change (map ?f ?l) with (f <$> l).
  by rewrite list_lookup_fmap, lookup_seq_lt.
Qed.

Lemma gen_scales_lookup_Some start n i a :
  gen_scales start n !! i = Some a →
  (i < Z.to_nat n)%nat ∧ a = gen_scale start i.
Proof.
  intros Hi. pose proof (lookup_lt_Some _ _ _ Hi) as Hlt.
  unfold gen_scales in Hlt. rewrite length_map, length_seq in Hlt.
  rewrite gen_scales_lookup in Hi by done. by injection Hi as <-.
Qed.

(** Every second scale is exact: [round(start * 2^(2k/2))] is
    [start * 2^k], so the scale doubles every two steps of the schedule. *)
Theorem gen_scale_even_index_doubles (start : Z) (k : nat) :
  gen_scale start (2 * k) = (start * 2 ^ Z.of_nat k)%Z.
Proof.
  unfold gen_scale.
  replace (Z.of_nat (2 * k)) with (Z.of_nat k + Z.of_nat k)%Z by lia.
  rewrite Z.pow_add_r by lia.
  set (p := (2 ^ Z.of_nat k)%Z).
  assert (Hp : (0 < p)%Z) by (unfold p; apply Z.pow_pos_nonneg; lia).
  replace (4 * (start * start) * (p * p))%Z
    with ((2 * Z.abs start * p) * (2 * Z.abs start * p))%Z by nia.
  rewrite Z.sqrt_square by nia.
  replace (2 * Z.abs start * p + 1)%Z with (1 + (Z.abs start * p) * 2)%Z by lia.
  rewrite Z.div_add by lia. change (1 / 2)%Z with 0%Z.
  destruct start; simpl; lia.
Qed.

Lemma gen_scale_step start i :
  (2 ≤ start)%Z → (gen_scale start i < gen_scale start (S i))%Z.
Proof.
  intros Hs. unfold gen_scale. rewrite Z.sgn_pos, !Z.mul_1_l by lia.
  replace (Z.of_nat (S i)) with (Z.of_nat i + 1)%Z by lia.
  rewrite Z.pow_add_r, Z.pow_1_r by lia.
  set (p := (2 ^ Z.of_nat i)%Z).
  assert (Hp : (1 ≤ p)%Z).
  { unfold p. change 1%Z with (2 ^ 0)%Z. apply Z.pow_le_mono_r; lia. }
  set (N := (4 * (start * start) * p)%Z).
  replace (4 * (start * start) * (p * 2))%Z with (2 * N)%Z by (unfold N; lia).
  assert (HN : (16 ≤ N)%Z) by (unfold N; nia).
  pose proof (Z.sqrt_spec N ltac:(lia)) as [Hlo Hhi].
  pose proof (Z.sqrt_nonneg N) as Hr0.
  set (r := Z.sqrt N) in *. unfold Z.succ in Hhi.
  assert (Hr4 : (4 ≤ r)%Z) by nia.
  destruct (decide (5 ≤ r)%Z) as [Hr5 | Hr5].
  - assert (Hnext : (r + 2 ≤ Z.sqrt (2 * N))%Z).
    { apply Z.sqrt_le_square; nia. }
    apply Z.lt_le_trans with ((r + 1) / 2 + 1)%Z; [lia |].
    replace ((r + 1) / 2 + 1)%Z with ((r + 1 + 1 * 2) / 2)%Z
      by (rewrite Z.div_add by lia; lia).
    apply Z.div_le_mono; lia.
  - assert (Hr : r = 4%Z) by lia.
    assert (HN25 : (N < 25)%Z) by nia.
    assert (Hstart : start = 2%Z) by (unfold N in HN25; nia).
    assert (Hp1 : p = 1%Z) by (unfold N in HN25; nia).
    unfold r, N. rewrite Hstart, Hp1. by vm_compute.
Qed.

Lemma gen_scale_lt start i j :
  (2 ≤ start)%Z → (i < j)%nat → (gen_scale start i < gen_scale start j)%Z.
Proof.
  intros Hs Hij. induction Hij as [|j Hij IH].
  - by apply gen_scale_step.
  - etrans; [exact IH | by apply gen_scale_step].
Qed.

(** From [start >= 2] on the schedule is strictly increasing: no scale is
    produced twice. *)
Theorem gen_scales_strictly_increasing (start n : Z) (i j : nat) (a b : Z) :
  (2 ≤ start)%Z →
  gen_scales start n !! i = Some a → gen_scales start n !! j = Some b →
  (i < j)%nat → (a < b)%Z.
Proof.
  intros Hs [_ ->]%gen_scales_lookup_Some [_ ->]%gen_scales_lookup_Some Hij.
  by apply gen_scale_lt.
Qed.

Lemma gen_scales_strictly_increasing_witness :
  (2 ≤ 64)%Z
  ∧ gen_scales 64 7 !! 1%nat = Some 91%Z ∧ gen_scales 64 7 !! 6%nat = Some 512%Z
  ∧ (1 < 6)%nat ∧ (91 < 512)%Z.
Proof.
  split; [lia |]. split; [reflexivity |]. split; [reflexivity |].
  split; [lia |].
  apply (gen_scales_strictly_increasing 64 7 1 6 91 512);
    [lia | reflexivity | reflexivity | lia].
Defined.

(** ** The loss modules together *)

Lemma sq_nonneg x : 0 ≤ sq x.
Proof.
  unfold sq. destruct (Qclt_le_dec x 0) as [Hneg | Hpos].
  - replace (x * x) with ((- x) * (- x)) by ring.
    assert (0 ≤ - x) as Hx.
    { apply Qclt_le_weak in Hneg. apply Qcopp_le_compat in Hneg.
      by replace (- 0) with 0 in Hneg by ring. }
    replace 0 with (0 * - x) by ring. by apply Qcmult_le_compat_r.
  - replace 0 with (0 * x) by ring. by apply Qcmult_le_compat_r.
Qed.

Lemma sq_zero x : sq x = 0 → x = 0.
Proof. unfold sq. intros Hx. by destruct (Qcmult_integral _ _ Hx). Qed.

Lemma sum_upto_ext n f g :
  (∀ i, (i < n)%nat → f i = g i) → sum_upto n f = sum_upto n g.
Proof. intros Hfg. unfold sum_upto. f_equal. by apply table_ext. Qed.

Lemma sum_upto_zero n f : (∀ i, (i < n)%nat → f i = 0) → sum_upto n f = 0.
Proof.
  intros Hf. rewrite (sum_upto_ext n f (λ _, 0)) by done.
  unfold sum_upto, qsum. induction (seq 0 n) as [|i l IH]; simpl; [done |].
  rewrite IH. ring.
Qed.

Lemma squared_differences_nonneg x y :
  0 ≤ qsum (zip_with (λ a b, sq (a - b)) x y).
Proof.
  apply qsum_nonneg. revert y.
  induction x as [|a x IH]; intros [|b y]; simpl; try constructor;
    [apply sq_nonneg | apply IH].
Qed.

Lemma squared_differences_self l :
  qsum (zip_with (λ a b, sq (a - b)) l l) = 0.
Proof.
  unfold qsum. induction l as [|a l IH]; simpl; [done |].
  rewrite IH. unfold sq. ring.
Qed.

Lemma squared_differences_zero x y :
  length x = length y →
  qsum (zip_with (λ a b, sq (a - b)) x y) = 0 → x = y.
Proof.
  revert y. induction x as [|a x IH]; intros [|b y] Hlen Hsum;
    try discriminate Hlen; [done |].
  change (sq (a - b) + qsum (zip_with (λ a b, sq (a - b)) x y) = 0) in Hsum.
  apply Qcplus_nonneg_zero in Hsum as [Hab Hrest];
    [| apply sq_nonneg | apply squared_differences_nonneg].
  apply sq_zero in Hab. f_equal.
  - replace a with ((a - b) + b) by ring. rewrite Hab. ring.
  - apply IH; [by injection Hlen | done].
Qed.

Lemma mse_loss_sum_nonneg input target v :
  mse_loss_sum input target = Ok v → 0 ≤ v.
Proof.
  unfold mse_loss_sum.
  destruct (broadcast_shapes (shape input) (shape target)); [| done].
  intros [= <-]. apply squared_differences_nonneg.
Qed.

Lemma mse_loss_sum_self t : mse_loss_sum t t = Ok 0.
Proof.
  unfold mse_loss_sum. rewrite broadcast_shapes_diag.
  by rewrite squared_differences_self.
Qed.

Lemma tv_plane_nonneg p : 0 ≤ tv_plane p.
Proof.
  unfold tv_plane.
  set (xs := zip_with (zip_with Qcminus) _ (map from_1 _)).
  set (ys := zip_with (zip_with Qcminus) _ (map but_last (from_1 _))).
  clearbody xs ys. apply qsum_nonneg.
  revert ys. induction xs as [|x xs IH]; intros [|y ys]; simpl;
    try constructor; [| apply IH].
  apply qsum_nonneg. clear. revert y.
  induction x as [|a x IH]; intros [|b y]; simpl; try constructor;
    [| apply IH].
  replace 0 with (0 + 0) by ring.
  apply Qcplus_le_compat; apply sq_nonneg.
Qed.

Lemma TVLoss_forward_nonneg t v : TVLoss_forward t = Ok v → 0 ≤ v.
Proof.
  unfold TVLoss_forward. destruct (rev (shape t)) as [|w [|h pre]]; try done.
  intros [= <-]. apply qsum_nonneg, List.Forall_forall. intros x Hx.
  apply in_map_iff in Hx as (p & <- & _). apply tv_plane_nonneg.
Qed.

(** No loss is ever negative: whatever module is built from [ContentLoss],
    [StyleLoss], [TVLoss], [Normalize] and [LayerApply], and whatever it is
    applied to, a value it returns is a sum of squares. *)
Theorem forward_nonneg (m : module) (input : value) (v : Qc) :
  forward m input = Ok v → 0 ≤ v.
Proof.
  revert input. induction m as [target | target | | m IH scale eps | m IH l];
    intros input Hv; simpl in Hv.
  - destruct input as [x | f]; [| done].
    by eapply mse_loss_sum_nonneg.
  - destruct input as [x | f]; [| done]. unfold StyleLoss_forward in Hv.
    destruct (get_target x) as [g|]; [| done].
    by eapply mse_loss_sum_nonneg.
  - destruct input as [x | f]; [| done]. by eapply TVLoss_forward_nonneg.
  - by eapply IH.
  - destruct input as [x | f].
    + destruct l as [k |]; [| done].
      destruct (tensor_index x k) as [x'|]; [| done]. by eapply IH.
    + destruct (f !! l) as [x|]; [| done]. by eapply IH.
Qed.

Lemma forward_nonneg_witness :
  forward (LayerApply TVLoss Input) feats_tv1 = Ok (Qc_of_Z 1)
  ∧ 0 ≤ Qc_of_Z 1.
Proof.
  split; [by vm_compute |].
  apply (forward_nonneg (LayerApply TVLoss Input) feats_tv1 (Qc_of_Z 1)).
  by vm_compute.
Defined.

(** Each loss vanishes at its own target: the content loss of the target
    activation, and the style loss of an activation against the Gram target
    computed from that activation, are 0. *)
Theorem loss_at_own_target_is_zero (t g : tensor) :
  get_target t = Ok g →
  forward (ContentLoss t) (VTensor t) = Ok 0
  ∧ forward (StyleLoss g) (VTensor t) = Ok 0.
Proof.
  intros Hg. simpl. unfold ContentLoss_forward, StyleLoss_forward.
  rewrite Hg. simpl. by rewrite !mse_loss_sum_self.
Qed.

Lemma loss_at_own_target_is_zero_witness :
  ∃ g, get_target activation_1x2x1x2 = Ok g
       ∧ forward (ContentLoss activation_1x2x1x2) (VTensor activation_1x2x1x2)
         = Ok 0
       ∧ forward (StyleLoss g) (VTensor activation_1x2x1x2) = Ok 0.
Proof.
  eexists. split; [reflexivity |].
  apply (loss_at_own_target_is_zero activation_1x2x1x2). reflexivity.
Defined.

(** For an activation of the target's shape, the content loss is 0 exactly
    when the activation is the target. *)
Theorem ContentLoss_zero_iff_equal (target input : tensor) :
  shape input = shape target → wf_tensor input → wf_tensor target →
  (ContentLoss_forward target input = Ok 0 ↔ data input = data target).
Proof.
  intros Hs Hi Ht. unfold ContentLoss_forward, mse_loss_sum.
  rewrite Hs, broadcast_shapes_diag.
  unfold wf_tensor in *.
  rewrite !expand_to_diag by congruence. split.
  - intros [= Hsum]. apply squared_differences_zero; [congruence | done].
  - intros ->. by rewrite squared_differences_self.
Qed.

Lemma ContentLoss_zero_iff_equal_witness :
  shape activation_zero_1x1x1x2 = shape activation_1x1x1x2
  ∧ wf_tensor activation_zero_1x1x1x2 ∧ wf_tensor activation_1x1x1x2
  ∧ (ContentLoss_forward activation_1x1x1x2 activation_zero_1x1x1x2 = Ok 0
     ↔ data activation_zero_1x1x1x2 = data activation_1x1x1x2).
Proof.
  split; [reflexivity |]. split; [reflexivity |]. split; [reflexivity |].
  apply (ContentLoss_zero_iff_equal activation_1x1x1x2 activation_zero_1x1x1x2);
    reflexivity.
Defined.

(** An image with a single row or a single column has total-variation loss
    0, whatever its entries: the crop to rows [0 .. h-2] and columns
    [0 .. w-2] leaves nothing. *)
Theorem TVLoss_of_single_row_or_column_is_zero
    (pre : list nat) (h w : nat) (t : tensor) :
  shape t = pre ++ [h; w] → wf_tensor t → (h ≤ 1 ∨ w ≤ 1)%nat →
  TVLoss_forward t = Ok 0.
Proof.
  intros Hs Hwf Hhw. rewrite (TVLoss_forward_cropped pre h w) by done.
  f_equal. unfold tv_cropped.
  apply sum_upto_zero. intros p _.
  apply sum_upto_zero. intros i Hi.
  apply sum_upto_zero. intros j Hj. lia.
Qed.

Lemma TVLoss_of_single_row_or_column_is_zero_witness :
  shape activation_1x2x1x2 = [1; 2]%nat ++ [1; 2]%nat
  ∧ wf_tensor activation_1x2x1x2 ∧ (1 ≤ 1 ∨ 2 ≤ 1)%nat
  ∧ TVLoss_forward activation_1x2x1x2 = Ok 0.
Proof.
  split; [reflexivity |]. split; [reflexivity |]. split; [left; lia |].
  apply (TVLoss_of_single_row_or_column_is_zero [1; 2]%nat 1 2
           activation_1x2x1x2); [reflexivity | reflexivity | left; lia].
Defined.

Lemma pixel_tmap f planes h w d p i j :
  length d = (planes * (h * w))%nat →
  (p < planes)%nat → (i < h)%nat → (j < w)%nat →
  pixel h w (map f d) p i j = f (pixel h w d p i j).
Proof.
  intros Hd Hp Hi Hj. unfold pixel.
  assert (p * (h * w) + i * w + j < length d)%nat as Hlt.
  { rewrite Hd.
    assert (i * w + j < h * w)%nat by nia.
    assert ((p + 1) * (h * w) ≤ planes * (h * w))%nat by nia. lia. }
  rewrite (nth_indep (map f d) 0 (f 0)) by (by rewrite length_map).
  apply map_nth.
Qed.

(** The total-variation loss sees differences only: adding the same number
    to every entry of an image does not change it. *)
Theorem TVLoss_shift_invariant
    (pre : list nat) (h w : nat) (t : tensor) (c : Qc) :
  shape t = pre ++ [h; w] → wf_tensor t →
  TVLoss_forward (tmap (λ x, x + c) t) = TVLoss_forward t.
Proof.
  intros Hs Hwf.
  rewrite (TVLoss_forward_cropped pre h w t) by done.
  rewrite (TVLoss_forward_cropped pre h w (tmap _ t));
    [| done | unfold wf_tensor, tmap in *; simpl; by rewrite length_map].
  f_equal. unfold tv_cropped, tmap. simpl.
  assert (Hd : length (data t) = (numel pre * (h * w))%nat).
  { unfold wf_tensor in Hwf. rewrite Hwf, Hs, numel_app.
    unfold numel at 2. simpl. lia. }
  apply sum_upto_ext. intros p Hp.
  apply sum_upto_ext. intros i Hi.
  apply sum_upto_ext. intros j Hj.
  rewrite !(pixel_tmap _ (numel pre)) by (done || lia).
  unfold sq. ring.
Qed.

Lemma TVLoss_shift_invariant_witness :
  shape image_2x2_tv1 = [1; 1]%nat ++ [2; 2]%nat ∧ wf_tensor image_2x2_tv1
  ∧ TVLoss_forward (tmap (λ x, x + Qc_of_Z 5) image_2x2_tv1)
    = TVLoss_forward image_2x2_tv1.
Proof.
  split; [reflexivity |]. split; [reflexivity |].
  apply (TVLoss_shift_invariant [1; 1]%nat 2 2 image_2x2_tv1);
    reflexivity.
Defined.

(** ** WeightedLoss: terms without a weight, and errors *)

Lemma zip_app_l {A B} (l1 l1' : list A) (l2 : list B) :
  length l1 = length l2 → zip (l1 ++ l1') l2 = zip l1 l2.
Proof.
  revert l2. induction l1 as [|a l1 IH]; intros [|b l2] Hlen;
    try discriminate Hlen; simpl.
  - by destruct l1'.
  - by rewrite IH by (by injection Hlen).
Qed.

Lemma zip_app_r {A B} (l1 : list A) (l2 l2' : list B) :
  length l1 = length l2 → zip l1 (l2 ++ l2') = zip l1 l2.
Proof.
  revert l2. induction l1 as [|a l1 IH]; intros [|b l2] Hlen;
    try discriminate Hlen; simpl; [done |].
  by rewrite IH by (by injection Hlen).
Qed.

Lemma omap_imap_ext {A B C} (f g : B → option C) (j : nat → A → B) xs :
  (∀ i x, xs !! i = Some x → f (j i x) = g (j i x)) →
  omap f (imap j xs) = omap g (imap j xs).
Proof.
  revert j. induction xs as [|x xs IH]; intros j Hfg; [done |].
  change (match f (j 0%nat x) with
          | Some y => y :: omap f (imap (j ∘ S) xs)
          | None => omap f (imap (j ∘ S) xs)
          end
          = match g (j 0%nat x) with
            | Some y => y :: omap g (imap (j ∘ S) xs)
            | None => omap g (imap (j ∘ S) xs)
            end).
  rewrite (Hfg 0%nat x eq_refl).
  rewrite (IH (j ∘ S)); [done |]. intros i y Hi. by apply (Hfg (S i)).
Qed.

Lemma print_losses_app ls extra ws ws' b b' xs :
  (length xs ≤ length ls)%nat →
  _print_losses {| losses := ls ++ extra; weights := ws; verbose := b |} xs
  = _print_losses {| losses := ls; weights := ws'; verbose := b' |} xs.
Proof.
  intros Hlen. unfold _print_losses. simpl.
  apply omap_imap_ext. intros i x Hi. simpl.
  rewrite lookup_app_l; [done |].
  apply lookup_lt_Some in Hi. lia.
Qed.

Lemma length_zip_same {A B} (l1 : list A) (l2 : list B) :
  length l1 = length l2 → length (zip l1 l2) = length l1.
Proof. intros Hlen. rewrite length_zip_with. lia. Qed.

(** [zip(self, self.weights)] stops at the shorter of the two: loss terms
    without a weight are never evaluated, and weights without a term are
    never used.  The value printed and returned is that of the critic cut
    to the common length. *)
Theorem WeightedLoss_ignores_unpaired_terms
    (ls extra_losses : list module) (ws extra_weights : list Qc) (b : bool)
    (args : value) :
  length ls = length ws →
  WeightedLoss_forward
    {| losses := ls ++ extra_losses; weights := ws; verbose := b |} args
  = WeightedLoss_forward {| losses := ls; weights := ws; verbose := b |} args
  ∧ WeightedLoss_forward
      {| losses := ls; weights := ws ++ extra_weights; verbose := b |} args
    = WeightedLoss_forward {| losses := ls; weights := ws; verbose := b |} args.
Proof.
  intros Hlen. unfold WeightedLoss_forward. simpl.
  rewrite zip_app_l, zip_app_r by done. split; [| done].
  destruct (mapM_res _ (zip ls ws)) as [xs|e] eqn:Hxs; [| done]. simpl.
  destruct b; [| done]. do 2 f_equal.
  apply print_losses_app.
  apply length_mapM_res in Hxs. rewrite Hxs, length_zip_same; done.
Qed.

Lemma WeightedLoss_ignores_unpaired_terms_witness :
  length [LayerApply TVLoss Input] = length [Qc_of_Z 2]
  ∧ WeightedLoss_forward
      {| losses := [LayerApply TVLoss Input] ++ [ContentLoss image_2x2_tv1];
         weights := [Qc_of_Z 2]; verbose := true |} feats_tv1
    = Ok ([(0%nat, LayerApply TVLoss Input, Qc_of_Z 2)], Qc_of_Z 2).
Proof.
  split; [reflexivity |].
  destruct (WeightedLoss_ignores_unpaired_terms
              [LayerApply TVLoss Input] [ContentLoss image_2x2_tv1]
              [Qc_of_Z 2] [] true feats_tv1 eq_refl) as [Hcut _].
  rewrite Hcut. by vm_compute.
Defined.

Lemma mapM_res_first_error {A B} (f : A → res B) pre a post vals e :
  mapM_res f pre = Ok vals → f a = Raise e →
  mapM_res f (pre ++ a :: post) = Raise e.
Proof.
  revert vals. induction pre as [|x pre IH]; intros vals Hpre Ha; simpl.
  - by rewrite Ha.
  - simpl in Hpre. destruct (f x) as [y|]; [| done]. simpl in *.
    destruct (mapM_res f pre) as [ys|]; [| done].
    by rewrite (IH ys).
Qed.

(** The first term that raises decides the outcome: when the terms before
    it return and it raises [e], [forward] raises [e], whatever the later
    terms would do and whether or not it is verbose. *)
Theorem WeightedLoss_raises_first_error
    (pre post : list module) (m : module) (ws : list Qc) (b : bool)
    (args : value) (vals : list Qc) (e : exn) :
  (length pre < length ws)%nat →
  mapM_res (λ m, forward m args) pre = Ok vals →
  forward m args = Raise e →
  WeightedLoss_forward
    {| losses := pre ++ m :: post; weights := ws; verbose := b |} args
  = Raise e.
Proof.
  intros Hlen Hpre Hm. unfold WeightedLoss_forward. simpl.
  assert (Hws : ∃ ws1 w ws2, ws = ws1 ++ w :: ws2 ∧ length ws1 = length pre).
  { exists (take (length pre) ws).
    destruct (drop (length pre) ws) as [|w ws2] eqn:Hdrop.
    - apply (f_equal length) in Hdrop. rewrite length_drop in Hdrop.
      simpl in Hdrop. lia.
    - exists w, ws2. split.
      + by rewrite <- Hdrop, take_drop.
      + rewrite length_take. lia. }
  destruct Hws as (ws1 & w & ws2 & -> & Hlen1).
  assert (Hzip : zip (pre ++ m :: post) (ws1 ++ w :: ws2)
                 = zip pre ws1 ++ (m, w) :: zip post ws2).
  { clear -Hlen1. revert ws1 Hlen1.
    induction pre as [|x pre IH]; intros [|y ws1] Hlen1;
      try discriminate Hlen1; simpl; [done |].
    by rewrite IH by (by injection Hlen1). }
  rewrite Hzip.
  erewrite mapM_res_first_error; [done | | by rewrite Hm].
  by apply mapM_res_weighted.
Qed.

Lemma WeightedLoss_raises_first_error_witness :
  (length [LayerApply TVLoss Input] < length [Qc_of_Z 2; Qc_of_Z 3])%nat
  ∧ forward (LayerApply TVLoss (Layer 7)) feats_tv1 = Raise KeyError
  ∧ WeightedLoss_forward
      {| losses := [LayerApply TVLoss Input] ++ LayerApply TVLoss (Layer 7) :: [];
         weights := [Qc_of_Z 2; Qc_of_Z 3]; verbose := false |} feats_tv1
    = Raise KeyError.
Proof.
  split; [simpl; lia |]. split; [reflexivity |].
  apply (WeightedLoss_raises_first_error [LayerApply TVLoss Input] []
           (LayerApply TVLoss (Layer 7)) [Qc_of_Z 2; Qc_of_Z 3] false
           feats_tv1 [Qc_of_Z 1]);
    [simpl; lia | by vm_compute | reflexivity].
Defined.

(** ** VGGFeatures *)

Lemma elem_of_sorted_set l x : x ∈ sorted_set l ↔ x ∈ l.
Proof.
  unfold sorted_set. rewrite merge_sort_Permutation. apply elem_of_remove_dups.
Qed.

Lemma StronglySorted_le_lt (l : list nat) :
  StronglySorted le l → NoDup l → StronglySorted lt l.
Proof.
  induction 1 as [|x l Hl IH Hx]; intros Hnd; [constructor |].
  apply NoDup_cons in Hnd as [Hxl Hnd]. constructor; [by apply IH |].
  rewrite Forall_forall in Hx. apply Forall_forall. intros y Hy.
  specialize (Hx y Hy). assert (x ≠ y) by (by intros ->). lia.
Qed.

Lemma sorted_set_sorted l : StronglySorted lt (sorted_set l).
Proof.
  unfold sorted_set. apply StronglySorted_le_lt.
  - apply (StronglySorted_merge_sort le).
  - rewrite merge_sort_Permutation. apply NoDup_remove_dups.
Qed.

Lemma sorted_set_ext l1 l2 :
  (∀ x, x ∈ l1 ↔ x ∈ l2) → sorted_set l1 = sorted_set l2.
Proof.
  intros Hl. unfold sorted_set. apply (StronglySorted_unique le).
  - apply (StronglySorted_merge_sort le).
  - apply (StronglySorted_merge_sort le).
  - rewrite !merge_sort_Permutation.
    apply NoDup_Permutation; [apply NoDup_remove_dups.. |].
    intros x. by rewrite !elem_of_remove_dups.
Qed.


Lemma foldM_res_inv {A B} (I : list A → B → Prop) (f : B → A → res B) l0 :
  (∀ pre a post b b',
     l0 = pre ++ a :: post → I pre b → f b a = Ok b' → I (pre ++ [a]) b') →
  ∀ l pre b r,
    l0 = pre ++ l → I pre b → foldM_res f b l = Ok r → I l0 r.
Proof.
  intros Hstep. induction l as [|a l IH]; intros pre b r Hl Hb Hr; simpl in Hr.
  - injection Hr as <-. rewrite Hl, app_nil_r. done.
  - destruct (f b a) as [b'|] eqn:Hfa; [| done]. simpl in Hr.
    apply (IH (pre ++ [a]) b' r); [by rewrite <- app_assoc | | done].
    by eapply Hstep.
Qed.

Section vgg.
Context `{Backend}.

(** The mapping returned by [VGGFeatures.forward] has exactly the requested
    layers as keys ([self.layers] when none is given): no key is missing, and
    there is no other key. *)
Theorem VGGFeatures_forward_keys (self : VGGFeatures) (input : tensor)
    (layers_arg : option (list nat)) (feats : gmap layer tensor) :
  VGGFeatures_forward self input layers_arg = Ok feats →
  ∀ k, is_Some (feats !! k)
       ↔ ∃ l, k = Layer l
              ∧ l ∈ match layers_arg with
                    | None => layers self
                    | Some ls => ls
                    end.
Proof.
  intros Hrun k. unfold VGGFeatures_forward in Hrun.
  fold (requested self layers_arg) in Hrun.
  assert (Hreq : ∀ l, l ∈ requested self layers_arg
                      ↔ l ∈ match layers_arg with
                            | None => layers self
                            | Some ls => ls
                            end).
  { destruct layers_arg; simpl; [apply elem_of_sorted_set | done]. }
  setoid_rewrite <- Hreq. clear Hreq.
  destruct (foldM_res _ _ (requested self layers_arg)) as [[[fs x] cur]|] eqn:Hfold;
    [| done].
  simpl in Hrun. injection Hrun as <-.
  revert k.
  refine (foldM_res_inv
            (λ pre (s : gmap layer tensor * tensor * nat),
               ∀ k, is_Some (s.1.1 !! k) ↔ ∃ l, k = Layer l ∧ l ∈ pre)
            _ (requested self layers_arg) _ _ [] _ (fs, x, cur) eq_refl _ Hfold).
  - intros pre a post [[fs0 x0] cur0] b' _ Hinv Hstep k'. simpl in *.
    destruct (vgg19_features _ _ _ _) as [x'|]; [| done].
    injection Hstep as <-. simpl.
    destruct (decide (k' = Layer a)) as [-> | Hne].
    + rewrite lookup_insert_eq. split; [| by eauto].
      intros _. exists a. split; [done |]. apply elem_of_app. right. by left.
    + rewrite lookup_insert_ne by done. rewrite Hinv. split.
      * intros (l & -> & Hl). exists l. split; [done |].
        apply elem_of_app. by left.
      * intros (l & -> & [Hl | Hl]%elem_of_app); [by eauto |].
        apply list_elem_of_singleton in Hl as ->. done.
  - intros k'. simpl. rewrite lookup_empty. split; [by intros [? ?] |].
    intros (l & _ & Hl). by apply elem_of_nil in Hl.
Qed.

(** Duplicates and the order of the [layers] argument do not matter:
    [forward] goes through [sorted(set(layers))]. *)
Theorem VGGFeatures_forward_depends_on_layer_set (self : VGGFeatures)
    (input : tensor) (l1 l2 : list nat) :
  (∀ x, x ∈ l1 ↔ x ∈ l2) →
  VGGFeatures_forward self input (Some l1)
  = VGGFeatures_forward self input (Some l2).
Proof.
  intros Hl. unfold VGGFeatures_forward. by rewrite (sorted_set_ext l1 l2).
Qed.

(** When slices of the network compose ([model[a:b]] followed by
    [model[b:c]] is [model[a:c]]), the incremental pass of [forward] gives,
    for every requested layer, the activation of the network prefix up to
    and including that layer. *)
Theorem VGGFeatures_forward_gives_prefix_activations
    (ls : list nat) (self : VGGFeatures) (input : tensor)
    (layers_arg : option (list nat)) (feats : gmap layer tensor) :
  (∀ a b c x y, (a ≤ b ≤ c)%nat →
     vgg19_features (model_stop self) a b x = Ok y →
     vgg19_features (model_stop self) b c y
     = vgg19_features (model_stop self) a c x) →
  VGGFeatures_init ls = Ok self →
  VGGFeatures_forward self input layers_arg = Ok feats →
  ∀ l, l ∈ match layers_arg with None => layers self | Some ls' => ls' end →
       ∃ y, vgg19_features (model_stop self) 0 (l + 1) input = Ok y
            ∧ feats !! Layer l = Some y.
Proof.
  intros Hcomp Hinit Hrun l Hl. unfold VGGFeatures_forward in Hrun.
  fold (requested self layers_arg) in Hrun.
  assert (Hsorted : StronglySorted lt (requested self layers_arg)).
  { destruct layers_arg; simpl; [apply sorted_set_sorted |].
    unfold VGGFeatures_init in Hinit.
    destruct (last (sorted_set ls)); [| done]. injection Hinit as <-. simpl.
    apply sorted_set_sorted. }
  assert (Hreq : l ∈ requested self layers_arg).
  { destruct layers_arg; simpl; [by apply elem_of_sorted_set | done]. }
  clear Hl Hinit.
  destruct (foldM_res _ _ (requested self layers_arg)) as [[[fs x] cur]|] eqn:Hfold;
    [| done].
  simpl in Hrun. injection Hrun as <-.
  cut (((cur = 0%nat ∧ x = input)
        ∨ vgg19_features (model_stop self) 0 cur input = Ok x)
       ∧ (cur = 0%nat ∨ (cur - 1)%nat ∈ requested self layers_arg)
       ∧ ∀ l, l ∈ requested self layers_arg →
           ∃ y, vgg19_features (model_stop self) 0 (l + 1) input = Ok y
                ∧ fs !! Layer l = Some y).
  { intros (_ & _ & Hall). by apply Hall. }
  refine (foldM_res_inv
            (λ pre (s : gmap layer tensor * tensor * nat),
               ((s.2 = 0%nat ∧ s.1.2 = input)
                ∨ vgg19_features (model_stop self) 0 s.2 input = Ok s.1.2)
               ∧ (s.2 = 0%nat ∨ (s.2 - 1)%nat ∈ pre)
               ∧ ∀ l, l ∈ pre →
                   ∃ y, vgg19_features (model_stop self) 0 (l + 1) input = Ok y
                        ∧ s.1.1 !! Layer l = Some y)
            _ (requested self layers_arg) _ _ [] _ (fs, x, cur) eq_refl _ Hfold).
  - intros pre a post [[fs0 x0] cur0] b' Hsplit (Hx & Hcur & Hfs) Hstep.
    simpl in *.
    destruct (vgg19_features (model_stop self) cur0 (a + 1) x0) as [x'|] eqn:Hx';
      [| done].
    injection Hstep as <-. simpl.
    rewrite Hsplit in Hsorted.
    assert (Hbelow : ∀ l', l' ∈ pre → (l' < a)%nat).
    { intros l' Hl'.
      apply (StronglySorted_app_1_elem_of _ _ _ l' a Hsorted Hl'). by left. }
    assert (Hcur_le : (cur0 ≤ a + 1)%nat).
    { destruct Hcur as [-> | Hin]; [lia |]. specialize (Hbelow _ Hin). lia. }
    assert (Hdirect : vgg19_features (model_stop self) 0 (a + 1) input = Ok x').
    { destruct Hx as [[-> ->] | Hx]; [done |].
      rewrite <- (Hcomp 0%nat cur0 (a + 1)%nat input x0) by (done || lia).
      done. }
    split; [by right |]. split.
    { right. replace (a + 1 - 1)%nat with a by lia.
      apply elem_of_app. right. by left. }
    intros l' [Hl' | Hl']%elem_of_app.
    + destruct (Hfs l' Hl') as (y & Hy & Hlook). exists y. split; [done |].
      rewrite lookup_insert_ne; [done |].
      intros [= ->]. specialize (Hbelow _ Hl'). lia.
    + apply list_elem_of_singleton in Hl' as ->. exists x'.
      split; [done | by rewrite lookup_insert_eq].
  - simpl. split; [by left |]. split; [by left |].
    intros l' Hl'. by apply elem_of_nil in Hl'.
Qed.

End vgg.

Lemma VGGFeatures_forward_keys_witness :
  ∃ self feats,
    VGGFeatures_init [6; 1; 6]%nat = Ok self
    ∧ @VGGFeatures_forward Reference.backend self picture_2x2 None = Ok feats
    ∧ ∀ k, is_Some (feats !! k) ↔ ∃ l, k = Layer l ∧ l ∈ layers self.
Proof.
  eexists _, _. split; [reflexivity |]. split; [reflexivity |].
  apply (@VGGFeatures_forward_keys Reference.backend _ picture_2x2 None).
  reflexivity.
Defined.


Lemma VGGFeatures_forward_depends_on_layer_set_witness :
  (∀ x, x ∈ [6; 1; 6]%nat ↔ x ∈ [1; 6]%nat)
  ∧ ∃ self,
      VGGFeatures_init [6; 1]%nat = Ok self
      ∧ @VGGFeatures_forward Reference.backend self picture_2x2
          (Some [6; 1; 6]%nat)
        = @VGGFeatures_forward Reference.backend self picture_2x2
            (Some [1; 6]%nat).
Proof.
  assert (Hset : ∀ x, x ∈ [6; 1; 6]%nat ↔ x ∈ [1; 6]%nat) by set_solver.
  split; [exact Hset |]. eexists. split; [reflexivity |].
  by apply (@VGGFeatures_forward_depends_on_layer_set Reference.backend).
Defined.

Lemma VGGFeatures_forward_gives_prefix_activations_witness :
  ∃ self feats,
    VGGFeatures_init [6; 1]%nat = Ok self
    ∧ @VGGFeatures_forward Reference.backend self picture_2x2 None = Ok feats
    ∧ ∀ l, l ∈ layers self →
        ∃ y, @vgg19_features Reference.backend (model_stop self) 0 (l + 1)
               picture_2x2 = Ok y
             ∧ feats !! Layer l = Some y.
Proof.
  eexists _, _. split; [reflexivity |]. split; [reflexivity |].
  apply (@VGGFeatures_forward_gives_prefix_activations Reference.backend
           [6; 1]%nat _ picture_2x2 None);
    [by intros a b c x y _ [= <-] | reflexivity | reflexivity].
Defined.

(** ** StyleLoss.get_target: shape and symmetry *)

Lemma nth_concat_uniform {A} n (ls : list (list A)) b r d :
  Forall (λ l, length l = n) ls → (b < length ls)%nat → (r < n)%nat →
  nth (b * n + r) (concat ls) d = nth r (nth b ls []) d.
Proof.
  intros Hls. revert b. induction Hls as [|l ls Hl _ IH]; intros b Hb Hr;
    [simpl in Hb; lia |].
  simpl concat. destruct b as [|b].
  - change (0 * n + r)%nat with r. rewrite app_nth1 by lia. done.
  - change (nth (S b) (l :: ls) []) with (nth b ls []).
    replace (S b * n + r)%nat with (length l + (b * n + r))%nat by lia.
    rewrite app_nth2_plus. apply IH; [simpl in Hb; lia | done].
Qed.

Lemma length_gram n rows : length (gram n rows) = (length rows * length rows)%nat.
Proof.
  unfold gram. rewrite (length_concat_uniform (length rows)).
  - by rewrite length_map.
  - apply List.Forall_forall. intros l Hl.
    apply in_map_iff in Hl as (ri & <- & _). by rewrite length_map.
Qed.

Lemma dot_comm r1 r2 : dot r1 r2 = dot r2 r1.
Proof.
  unfold dot, qsum. revert r2.
  induction r1 as [|x r1 IH]; intros [|y r2]; simpl; try done.
  rewrite IH. ring.
Qed.

Lemma nth_gram n rows i j :
  (i < length rows)%nat → (j < length rows)%nat →
  nth (i * length rows + j) (gram n rows) 0
  = dot (nth i rows []) (nth j rows []) / Q2Qc (Z.of_nat n # 1).
Proof.
  intros Hi Hj. unfold gram.
  rewrite (nth_concat_uniform (length rows)); [| | by rewrite length_map | done].
  2:{ apply List.Forall_forall. intros l Hl.
      apply in_map_iff in Hl as (ri & <- & _). by rewrite length_map. }
  rewrite (nth_indep _ [] ((λ ri, map (λ rj, dot ri rj / Q2Qc (Z.of_nat n # 1))
                                    rows) []))
    by (by rewrite length_map).
  rewrite (map_nth (λ ri, map (λ rj, dot ri rj / Q2Qc (Z.of_nat n # 1)) rows)).
  set (ri := nth i rows []).
  rewrite (nth_indep _ 0 ((λ rj, dot ri rj / Q2Qc (Z.of_nat n # 1)) []))
    by (by rewrite length_map).
  by rewrite (map_nth (λ rj, dot ri rj / Q2Qc (Z.of_nat n # 1))).
Qed.

Lemma get_target_unfold pre c h w t :
  shape t = pre ++ [c; h; w] →
  get_target t
  = Ok {| shape := pre ++ [c; c];
          data := concat (map (λ m, gram (h * w) (unstack c (h * w) m))
                            (unstack (numel pre) (c * (h * w)) (data t))) |}.
Proof.
  intros Hs. unfold get_target. rewrite Hs, !rev_app_distr. simpl.
  by rewrite rev_involutive, numel_rev.
Qed.

Lemma Forall_length_grams c n (mats : list (list Qc)) :
  Forall (λ l, length l = (c * c)%nat)
    (map (λ m, gram n (unstack c n m)) mats).
Proof.
  apply List.Forall_forall. intros l Hl.
  apply in_map_iff in Hl as (m & <- & _).
  by rewrite length_gram, length_unstack.
Qed.

(** [get_target] needs at least three dimensions: below that the transpose
    of the flattened tensor raises [IndexError].  On an activation of shape
    [(..., c, h, w)] it returns a well-formed tensor of shape [(..., c, c)],
    whatever [h] and [w] are. *)
Theorem get_target_shape (t : tensor) :
  ((length (shape t) < 3)%nat → get_target t = Raise IndexError)
  ∧ ∀ pre c h w,
      shape t = pre ++ [c; h; w] →
      ∃ g, get_target t = Ok g ∧ shape g = pre ++ [c; c] ∧ wf_tensor g.
Proof.
  split.
  - intros Hlen. unfold get_target. rewrite <- length_rev in Hlen.
    destruct (rev (shape t)) as [|w [|h [|c pre]]]; try done.
    simpl in Hlen. lia.
  - intros pre c h w Hs. rewrite (get_target_unfold pre c h w) by done.
    eexists. split; [done |]. split; [done |].
    unfold wf_tensor. simpl.
    rewrite (length_concat_uniform (c * c)) by apply Forall_length_grams.
    rewrite length_map, length_unstack, numel_app.
    change (numel [c; c]) with (c * (c * 1))%nat. lia.
Qed.

(** Each matrix returned by [get_target] is symmetric. *)
Theorem get_target_symmetric (pre : list nat) (c h w : nat) (t g : tensor)
    (b i j : nat) :
  shape t = pre ++ [c; h; w] → get_target t = Ok g →
  (b < numel pre)%nat → (i < c)%nat → (j < c)%nat →
  matrix_entry g c b i j = matrix_entry g c b j i.
Proof.
  intros Hs Hg Hb Hi Hj. rewrite (get_target_unfold pre c h w) in Hg by done.
  injection Hg as <-. unfold matrix_entry. simpl.
  set (mats := unstack (numel pre) (c * (h * w)) (data t)).
  assert (Hentry : ∀ i j, (i < c)%nat → (j < c)%nat →
            nth (b * (c * c) + i * c + j)
              (concat (map (λ m, gram (h * w) (unstack c (h * w) m)) mats)) 0
            = dot (nth i (unstack c (h * w) (nth b mats [])) [])
                  (nth j (unstack c (h * w) (nth b mats [])) [])
              / Q2Qc (Z.of_nat (h * w) # 1)).
  { intros i' j' Hi' Hj'.
    rewrite <- Nat.add_assoc.
    rewrite (nth_concat_uniform (c * c));
      [| apply Forall_length_grams
       | unfold mats; by rewrite length_map, length_unstack | nia].
    rewrite (nth_indep _ [] ((λ m, gram (h * w) (unstack c (h * w) m)) []))
      by (unfold mats; by rewrite length_map, length_unstack).
    rewrite (map_nth (λ m, gram (h * w) (unstack c (h * w) m))).
    pose proof (nth_gram (h * w) (unstack c (h * w) (nth b mats [])) i' j')
      as Hnth.
    rewrite length_unstack in Hnth. by apply Hnth. }
  rewrite !Hentry by done. by rewrite dot_comm.
Qed.

Lemma get_target_symmetric_witness :
  ∃ g,
    shape activation_1x2x1x2 = [1]%nat ++ [2; 1; 2]%nat
    ∧ get_target activation_1x2x1x2 = Ok g
    ∧ (0 < numel [1]%nat)%nat ∧ (0 < 2)%nat ∧ (1 < 2)%nat
    ∧ matrix_entry g 2 0 0 1 = matrix_entry g 2 0 1 0.
Proof.
  eexists. split; [reflexivity |]. split; [reflexivity |].
  split; [simpl; lia |]. split; [lia |]. split; [lia |].
  apply (get_target_symmetric [1]%nat 2 1 2 activation_1x2x1x2);
    [reflexivity | reflexivity | simpl; lia | lia | lia].
Defined.

(** ** The engine: steps of a run, and what it returns *)

Lemma optimizer_steps_app evs1 evs2 :
  optimizer_steps (evs1 ++ evs2) = optimizer_steps evs1 ++ optimizer_steps evs2.
Proof. unfold optimizer_steps. apply omap_app. Qed.

Lemma steps_of_app iterations l1 l2 :
  steps_of iterations (l1 ++ l2)
  = steps_of iterations l1 ++ steps_of iterations l2.
Proof. unfold steps_of. by rewrite map_app, concat_app. Qed.


Lemma tensor_index_unsqueeze t :
  wf_tensor t → tensor_index (unsqueeze t) 0 = Ok t.
Proof.
  unfold wf_tensor, tensor_index, unsqueeze. intros Hwf. simpl.
  rewrite <- Hwf, firstn_all. by destruct t.
Qed.

Section engine_more.
Context `{Backend}.

Lemma run_steps_init base w : out w = base → run_steps base false [] w.
Proof.
  intros Hw. split; [| discriminate]. exists []. by rewrite app_nil_r.
Qed.

Lemma run_steps_get_self base b l :
  hoare (run_steps base b l) get_self (λ _, run_steps base b l) anything.
Proof. by intros w Hw. Qed.

Lemma run_steps_lift {A} base b l (r : res A) :
  hoare (run_steps base b l) (lift r) (λ _, run_steps base b l) anything.
Proof. by apply hoare_lift. Qed.

Lemma run_steps_raise {A} base b l e (Q : A → world → Prop) :
  hoare (run_steps base b l) (raise e) Q anything.
Proof. by apply hoare_raise. Qed.

Lemma run_steps_the_image base b l :
  hoare (run_steps base b l) the_image (λ _, run_steps base b l) anything.
Proof.
  intros w Hw. unfold the_image, bind, get_self. simpl.
  by destruct (image (self w)).
Qed.

Lemma run_steps_set_image base b l x :
  hoare (run_steps base b l) (set_image x) (λ _, run_steps base true l) anything.
Proof. intros w [Hout _]. simpl. split; [done |]. intros _. by eexists. Qed.

Lemma run_steps_emit base b l e :
  hoare (run_steps base b l) (emit e)
    (λ _, run_steps base b (l ++ optimizer_steps [e])) anything.
Proof.
  intros w [(new & Hout & Hnew) Himg]. simpl. split; [| done].
  exists (new ++ [e]). rewrite Hout, app_assoc. split; [done |].
  by rewrite optimizer_steps_app, Hnew.
Qed.

Lemma run_steps_emit_other base b l e :
  optimizer_steps [e] = [] →
  hoare (run_steps base b l) (emit e) (λ _, run_steps base b l) anything.
Proof.
  intros He. eapply hoare_post; [apply run_steps_emit |].
  intros ? w. by rewrite He, app_nil_r.
Qed.

Lemma run_steps_observe base b l f l' :
  (∀ img, optimizer_steps [f img] = l') →
  hoare (run_steps base b l) (observe f)
    (λ _, run_steps base b (l ++ l')) anything.
Proof.
  intros Hf w Hw. unfold observe, the_image, bind, get_self. simpl.
  destruct (image (self w)) as [img|] eqn:Himg; simpl; [| done].
  pose proof (run_steps_emit base b l (f img) w Hw) as Hemit.
  by rewrite Hf in Hemit.
Qed.

Lemma run_steps_init_optimizer base b l opt index scale initial_scale size
    step_size :
  hoare (run_steps base b l)
    (init_optimizer opt index scale initial_scale size step_size)
    (λ _, run_steps base b l) anything.
Proof.
  unfold init_optimizer.
  hoare_seq ltac:(apply run_steps_the_image).
  hoare_seq ltac:(apply run_steps_lift).
  destruct (bool_decide (scale ≠ initial_scale)).
  - destruct opt as [o|]; [| apply run_steps_raise].
    destruct (state_dict o) as [sd st].
    hoare_seq ltac:(apply run_steps_lift).
    hoare_seq ltac:(apply run_steps_lift).
    hoare_seq ltac:(by apply run_steps_emit_other).
    by apply hoare_ret.
  - hoare_seq ltac:(by apply run_steps_emit_other).
    by apply hoare_ret.
Qed.

Lemma run_steps_iteration base b l crit index scale opt i :
  hoare (run_steps base b l) (iteration crit index scale opt i)
    (λ _, run_steps base true (l ++ [(index, scale, i)])) anything.
Proof.
  unfold iteration.
  hoare_seq ltac:(apply run_steps_get_self).
  hoare_seq ltac:(apply run_steps_the_image).
  hoare_seq ltac:(apply run_steps_lift).
  hoare_seq ltac:(apply run_steps_lift).
  eapply hoare_bind.
  { destruct (bool_decide _);
      [apply run_steps_raise | by apply run_steps_emit_other]. }
  intros ?.
  hoare_seq ltac:(apply run_steps_lift).
  hoare_seq ltac:(apply run_steps_lift).
  hoare_seq ltac:(apply run_steps_set_image).
  hoare_seq ltac:(by apply (run_steps_observe _ _ _ _ [(index, scale, i)])).
  by apply hoare_ret.
Qed.

Lemma run_steps_stylize_scale base b l content_img style_img content_weights
    tv_loss tv_weight initial_scale iterations step_size opt index scale :
  hoare (run_steps base b l)
    (stylize_scale content_img style_img content_weights tv_loss tv_weight
       initial_scale iterations step_size opt (index, scale))
    (λ _, run_steps base true (l ++ steps_of iterations [(index, scale)]))
    anything.
Proof.
  unfold stylize_scale.
  hoare_seq ltac:(apply run_steps_get_self).
  eapply hoare_bind; [apply run_steps_lift | intros [cw ch]].
  eapply hoare_bind; [apply run_steps_lift | intros [sw sh]].
  hoare_seq ltac:(apply run_steps_lift).
  hoare_seq ltac:(apply run_steps_lift).
  hoare_seq ltac:(apply run_steps_the_image).
  hoare_seq ltac:(apply run_steps_lift).
  hoare_seq ltac:(apply run_steps_set_image).
  eapply (hoare_bind _ (λ _, run_steps base true l)).
  { eapply hoare_post; [by apply (run_steps_observe _ _ _ _ []) |].
    intros ? w. by rewrite app_nil_r. }
  intros ?.
  hoare_seq ltac:(by apply run_steps_emit_other).
  hoare_seq ltac:(apply run_steps_lift).
  hoare_seq ltac:(apply run_steps_lift).
  hoare_seq ltac:(by apply run_steps_emit_other).
  hoare_seq ltac:(apply run_steps_lift).
  hoare_seq ltac:(apply run_steps_lift).
  hoare_seq ltac:(apply run_steps_init_optimizer).
  eapply hoare_bind.
  { eapply hoare_pre.
    - apply (hoare_foldM
               (λ pre (_ : optimizer),
                  run_steps base true (l ++ map (λ i, (index, scale, i)) pre))
               anything _ (passes iterations)) with (pre := []).
      intros pre i opt'.
      eapply hoare_post; [apply run_steps_iteration |].
      intros ? w. simpl. by rewrite map_app, app_assoc.
    - intros w Hw. simpl. by rewrite app_nil_r. }
  intros opt'. apply hoare_ret. intros w. simpl.
  unfold steps_of. simpl. by rewrite app_nil_r.
Qed.

Lemma run_steps_stylize base content_img style_img content_weight tv_weight
    initial_scale scales iterations step_size :
  hoare (run_steps base false [])
    (stylize content_img style_img content_weight tv_weight
       initial_scale scales iterations step_size)
    (λ r w,
       run_steps base true
         (steps_of iterations (imap pair (gen_scales initial_scale scales))) w
       ∧ ∃ p, r = Some p ∧ get_image (self w) = Ok (Some p))
    anything.
Proof.
  unfold stylize.
  hoare_seq ltac:(apply run_steps_get_self).
  eapply (hoare_bind _ (λ _, run_steps base false [])).
  { destruct (bool_decide _); [apply run_steps_raise | by apply hoare_ret]. }
  intros content_weights.
  hoare_seq ltac:(apply run_steps_lift).
  hoare_seq ltac:(apply run_steps_lift).
  hoare_seq ltac:(apply run_steps_set_image).
  eapply hoare_bind.
  { apply (hoare_foldM
             (λ pre (_ : option optimizer),
                run_steps base true (steps_of iterations pre))
             anything _ _) with (pre := []).
    intros pre [index scale] opt.
    eapply hoare_post; [apply run_steps_stylize_scale |].
    intros ? w. simpl. by rewrite steps_of_app. }
  intros ? w Hw. cbv [bind get_self lift].
  destruct (get_image (self w)) as [r|e] eqn:Hget; [| done].
  split; [done |].
  destruct Hw as [_ Himg]. destruct (Himg eq_refl) as [img Himg'].
  unfold get_image in Hget. rewrite Himg' in Hget.
  destruct (tensor_index img 0) as [img0|]; simpl in Hget; [| done].
  destruct (TF_to_pil_image img0) as [p|]; simpl in Hget; [| done].
  injection Hget as <-. by exists p.
Qed.


(** A completed run returns an image, never [None]: the engine holds an
    image from line 191 on, and what [stylize] returns is what [get_image]
    returns afterwards. *)
Theorem stylize_returns_an_image
    (content_img style_img : PIL_Image) (content_weight tv_weight : Qc)
    (initial_scale scales iterations : Z) (step_size : Qc) (w w' : world)
    (r : option PIL_Image) :
  stylize content_img style_img content_weight tv_weight initial_scale scales
    iterations step_size w = (Ok r, w') →
  ∃ p, r = Some p ∧ image (self w') ≠ None
       ∧ get_image (self w') = Ok (Some p).
Proof.
  intros Hrun.
  pose proof (run_steps_stylize (out w) content_img style_img content_weight
                tv_weight initial_scale scales iterations step_size w
                (run_steps_init (out w) w eq_refl)) as Hspec.
  rewrite Hrun in Hspec. destruct Hspec as [[_ Himg] (p & -> & Hget)].
  exists p. split; [done |]. split; [| done].
  destruct (Himg eq_refl) as [img ->]. done.
Qed.

(** With [scales <= 0] the loop over the scales is empty: [stylize] runs no
    optimizer step and raises no error for the missing scales; it returns
    the content image resized for [initial_scale] and converted to a tensor
    and back. *)
Theorem stylize_without_scales_returns_resized_content
    (content_img style_img : PIL_Image) (content_weight tv_weight : Qc)
    (initial_scale scales iterations : Z) (step_size : Qc) (w : world)
    (csize : Z * Z) (resized : PIL_Image) :
  (scales ≤ 0)%Z → content_layers (self w) ≠ [] →
  size_to_fit (Image_size content_img) initial_scale true = Ok csize →
  Image_resize content_img csize = Ok resized →
  wf_tensor (TF_to_tensor resized) →
  let run := stylize content_img style_img content_weight tv_weight
               initial_scale scales iterations step_size w in
  run.1 = (p ← TF_to_pil_image (TF_to_tensor resized); Ok (Some p))
  ∧ out run.2 = out w
  ∧ image (self run.2) = Some (unsqueeze (TF_to_tensor resized)).
Proof.
  intros Hscales Hlayers Hsize Hresize Hwf. unfold stylize.
  replace (gen_scales initial_scale scales) with (@nil Z)
    by (unfold gen_scales; by replace (Z.to_nat scales) with 0%nat by lia).
  cbv [bind get_self lift foldM imap ret set_image load_resized].
  rewrite bool_decide_false by (by destruct (content_layers (self w))).
  cbv [ret]. rewrite Hsize, Hresize. simpl.
  unfold get_image. cbn [image]. rewrite tensor_index_unsqueeze by done.
  simpl.
  by destruct (TF_to_pil_image (TF_to_tensor resized)).
Qed.

End engine_more.


Lemma stylize_returns_an_image_witness :
  ∃ w0,
    Reference.new_world = Ok w0
    ∧ ∃ r w',
        @stylize Reference.backend picture_2x2 picture_2x2
          (Q2Qc (1 # 100)) (Q2Qc (1 # 5000000)) 2 1 1 (Q2Qc (1 # 50)) w0
        = (Ok r, w')
        ∧ ∃ p, r = Some p ∧ image (self w') ≠ None
               ∧ @get_image Reference.backend (self w') = Ok (Some p).
Proof.
  eexists. split; [reflexivity |].
  match goal with
  | |- ∃ r w', ?run = _ ∧ _ => destruct run as [[r|e] w'] eqn:Hrun
  end.
  - exists r, w'. split; [reflexivity |].
    exact (@stylize_returns_an_image Reference.backend
             _ _ _ _ _ _ _ _ _ _ _ Hrun).
  - exfalso. vm_compute in Hrun. discriminate Hrun.
Defined.

Lemma stylize_without_scales_returns_resized_content_witness :
  ∃ w0 csize resized,
    Reference.new_world = Ok w0
    ∧ (0 ≤ 0)%Z ∧ content_layers (self w0) ≠ []
    ∧ size_to_fit (@Image_size Reference.backend picture_2x2) 1 true = Ok csize
    ∧ @Image_resize Reference.backend picture_2x2 csize = Ok resized
    ∧ wf_tensor (@TF_to_tensor Reference.backend resized)
    ∧ let run := @stylize Reference.backend picture_2x2 picture_2x2
                   (Q2Qc (1 # 100)) (Q2Qc (1 # 5000000)) 1 0 1
                   (Q2Qc (1 # 50)) w0 in
      run.1 = (p ← @TF_to_pil_image Reference.backend
                     (@TF_to_tensor Reference.backend resized);
               Ok (Some p))
      ∧ out run.2 = out w0
      ∧ image (self run.2)
        = Some (unsqueeze (@TF_to_tensor Reference.backend resized)).
Proof.
  eexists _, _, _. split; [reflexivity |]. split; [lia |].
  split; [discriminate |]. split; [reflexivity |]. split; [reflexivity |].
  split; [reflexivity |].
  eapply (@stylize_without_scales_returns_resized_content Reference.backend);
    [lia | discriminate | reflexivity | reflexivity | reflexivity].
Defined.

(** ** scale_adam: missing entries, a state that has not stepped, and
       repeated calls *)

Lemma tdict_set_same k t d : tdict_get k d = Some t → tdict_set k t d = d.
Proof.
  induction d as [|[k' t'] d IH]; simpl; [done |].
  destruct (decide (k = k')) as [<- | Hne].
  - by intros [= ->].
  - intros Hget. by rewrite IH.
Qed.

Section scale_adam_more.
Context `{Backend}.

(** A state without the key ['state'] makes [scale_adam] raise [KeyError],
    after the copy and before anything is resampled. *)
Theorem scale_adam_without_state_key_raises_KeyError
    (state : pyval) (size : Z * Z) (st : store) (d : list (key * tree))
    (fp : list loc) :
  repr st state (TDict d) fp → NoDup fp →
  (depth (TDict d) ≤ recursion_limit)%nat →
  tdict_get key_state d = None →
  (scale_adam state size st).1 = Raise KeyError.
Proof.
  intros Hx Hnd Hdepth Hnone. unfold scale_adam.
  change (KStr "state") with key_state.
  destruct (deepcopy_repr recursion_limit state (TDict d) fp st ∅ Hx Hdepth Hnd)
    as (y & memo' & st1 & fp1 & Hrun & Hy & _); [done |].
  rewrite (bind_ok _ _ _ _ _ Hrun). cbv beta iota.
  inversion Hy as [| | lr dr td' fpr Hlr Hkeys Hdr |]; subst.
  pose proof (repr_entries_get st1 dr d fpr key_state Hdr) as Hget.
  rewrite Hnone in Hget.
  by rewrite (bind_raise _ _ _ _ _
                (bind_raise _ _ _ _ _ (getitem_missing st1 lr dr _ Hlr Hget))).
Qed.

(** On the state of an optimizer that has not stepped yet (no entry under
    ['state']) there is nothing to resample: [scale_adam] returns a copy
    that stands for the same value and is made of new objects only. *)
Theorem scale_adam_of_state_without_entries
    (state : pyval) (size : Z * Z) (st : store) (d : list (key * tree))
    (fp : list loc) :
  repr st state (TDict d) fp → NoDup fp →
  (depth (TDict d) ≤ recursion_limit)%nat →
  tdict_get key_state d = Some (TDict []) →
  ∃ y st' fp',
    scale_adam state size st = (Ok y, st')
    ∧ repr st' y (TDict d) fp'
    ∧ Forall (λ l, (length st ≤ l)%nat) fp'.
Proof.
  intros Hx Hnd Hdepth Hempty.
  pose proof (scale_adam_refines size state (TDict d) fp st Hx Hnd Hdepth)
    as Href.
  unfold resample in Href. rewrite Hempty in Href. simpl in Href.
  by rewrite (tdict_set_same _ _ _ Hempty) in Href.
Qed.

(** [scale_adam] can be called again on the same source: the second call
    returns as the first did, both results stand for the same value, and
    they share no object. *)
Theorem scale_adam_twice_gives_equal_states
    (state : pyval) (size : Z * Z) (st st1 : store) (t : tree)
    (fp : list loc) (y1 : pyval) :
  repr st state t fp → NoDup fp → (depth t ≤ recursion_limit)%nat →
  scale_adam state size st = (Ok y1, st1) →
  ∃ y2 st2 t' fp1 fp2,
    scale_adam state size st1 = (Ok y2, st2)
    ∧ repr st2 y1 t' fp1 ∧ repr st2 y2 t' fp2
    ∧ ∀ l, l ∈ fp1 → l ∉ fp2.
Proof.
  intros Hx Hnd Hdepth Hrun1.
  pose proof (scale_adam_refines size state t fp st Hx Hnd Hdepth) as Href1.
  pose proof (scale_adam_keeps_store state size st) as Hkept1.
  rewrite Hrun1 in Hkept1. simpl in Hkept1.
  assert (Hx1 : repr st1 state t fp).
  { apply (proj1 (repr_agree st st1)); [done |]. intros l Hl.
    apply Hkept1. pose proof (proj1 (repr_fp_lt st) _ _ _ Hx) as Hlt.
    rewrite Forall_forall in Hlt. by apply Hlt. }
  pose proof (scale_adam_refines size state t fp st1 Hx1 Hnd Hdepth) as Href2.
  destruct (resample size t) as [t'|].
  2:{ destruct Href1 as (e & st' & He). rewrite Hrun1 in He. done. }
  destruct Href1 as (y1' & st1' & fp1 & Hrun1' & Hy1 & _).
  rewrite Hrun1 in Hrun1'. injection Hrun1' as <- <-.
  destruct Href2 as (y2 & st2 & fp2 & Hrun2 & Hy2 & Hnew2).
  pose proof (scale_adam_keeps_store state size st1) as Hkept2.
  rewrite Hrun2 in Hkept2. simpl in Hkept2.
  pose proof (proj1 (repr_fp_lt st1) _ _ _ Hy1) as Hlt1.
  rewrite Forall_forall in Hlt1, Hnew2.
  exists y2, st2, t', fp1, fp2. split; [done |]. split.
  { apply (proj1 (repr_agree st1 st2)); [done |]. intros l Hl.
    apply Hkept2. by apply Hlt1. }
  split; [done |].
  intros l Hl1 Hl2. specialize (Hlt1 l Hl1). specialize (Hnew2 l Hl2). lia.
Qed.

End scale_adam_more.

Lemma scale_adam_twice_gives_equal_states_witness :
  repr moments_store (PRef 0) moments_tree moments_footprint
  ∧ NoDup moments_footprint
  ∧ (depth moments_tree ≤ @recursion_limit Reference.backend)%nat
  ∧ ∃ y1 st1,
      @scale_adam Reference.backend (PRef 0) (1, 3)%Z moments_store
      = (Ok y1, st1)
      ∧ ∃ y2 st2 t' fp1 fp2,
          @scale_adam Reference.backend (PRef 0) (1, 3)%Z st1 = (Ok y2, st2)
          ∧ repr st2 y1 t' fp1 ∧ repr st2 y2 t' fp2
          ∧ ∀ l, l ∈ fp1 → l ∉ fp2.
Proof.
  split; [exact moments_store_repr |].
  split; [exact moments_footprint_NoDup |].
  split; [vm_compute; lia |].
  destruct (@scale_adam Reference.backend (PRef 0) (1, 3)%Z moments_store)
    as [[y1|e] st1] eqn:Hrun.
  - exists y1, st1. split; [reflexivity |].
    apply (@scale_adam_twice_gives_equal_states Reference.backend
             (PRef 0) (1, 3)%Z moments_store st1 moments_tree
             moments_footprint y1);
      [exact moments_store_repr | exact moments_footprint_NoDup
      | vm_compute; lia | exact Hrun].
  - exfalso. vm_compute in Hrun. discriminate Hrun.
Defined.

Lemma stateless_store_repr :
  repr stateless_store (PRef 0) stateless_tree [0; 1]%nat.
Proof.
  repr_dict_at 0%nat [1]%nat.
  repr_entry [1]%nat (@nil loc); [| constructor].
  eapply (repr_list _ 1%nat _ _ []); [reflexivity | constructor].
Qed.

Lemma unstepped_store_repr :
  repr unstepped_store (PRef 0) unstepped_tree [0; 1; 2]%nat.
Proof.
  repr_dict_at 0%nat [1; 2]%nat.
  repr_entry [1]%nat [2]%nat.
  - repr_dict_at 1%nat (@nil loc). constructor.
  - repr_entry [2]%nat (@nil loc); [| constructor].
    eapply (repr_list _ 2%nat _ _ []); [reflexivity | constructor].
Qed.

Lemma scale_adam_without_state_key_raises_KeyError_witness :
  repr stateless_store (PRef 0) stateless_tree [0; 1]%nat
  ∧ NoDup [0; 1]%nat
  ∧ (depth stateless_tree ≤ @recursion_limit Reference.backend)%nat
  ∧ (@scale_adam Reference.backend (PRef 0) (1, 3)%Z stateless_store).1
    = Raise KeyError.
Proof.
  split; [exact stateless_store_repr |].
  split; [apply (bool_decide_unpack _); by vm_compute |].
  split; [vm_compute; lia |].
  apply (@scale_adam_without_state_key_raises_KeyError Reference.backend
           (PRef 0) (1, 3)%Z stateless_store
           [(Reference.key_param_groups, TList [])] [0; 1]%nat);
    [exact stateless_store_repr | apply (bool_decide_unpack _); by vm_compute
    | vm_compute; lia | reflexivity].
Defined.

Lemma scale_adam_of_state_without_entries_witness :
  repr unstepped_store (PRef 0) unstepped_tree [0; 1; 2]%nat
  ∧ NoDup [0; 1; 2]%nat
  ∧ (depth unstepped_tree ≤ @recursion_limit Reference.backend)%nat
  ∧ ∃ y st' fp',
      @scale_adam Reference.backend (PRef 0) (1, 3)%Z unstepped_store
      = (Ok y, st')
      ∧ repr st' y unstepped_tree fp'
      ∧ Forall (λ l, (length unstepped_store ≤ l)%nat) fp'.
Proof.
  split; [exact unstepped_store_repr |].
  split; [apply (bool_decide_unpack _); by vm_compute |].
  split; [vm_compute; lia |].
  apply (@scale_adam_of_state_without_entries Reference.backend
           (PRef 0) (1, 3)%Z unstepped_store
           [(key_state, TDict []); (Reference.key_param_groups, TList [])]
           [0; 1; 2]%nat);
    [exact unstepped_store_repr | apply (bool_decide_unpack _); by vm_compute
    | vm_compute; lia | reflexivity].
Defined.
